(** * Sandbox explorer extension: change tree, diff resolver and CLI gateway

    A shallow embedding of the TypeScript sources of the extension
    ([cli.ts], [tree.ts], [extension.ts]) and the properties of its
    change-set tree construction, pattern matching, diff resolution and
    process wrappers.

    Strings are [string] (sequences of 8-bit characters standing for the
    code units of a JavaScript string): the operations the sources use
    ([startsWith], [substring], [split], [replace], [+], [===]) act on the
    sequence of units only, so the width of a unit plays no role. *)

From Stdlib Require Import String Ascii List ZArith Lia Bool Permutation Sorted.
From Stdlib Require Import DecimalString.
From Stdlib Require OrderedTypeEx.
Import ListNotations.
Open Scope string_scope.
Open Scope list_scope.
Set Warnings "-register-all".

(** ** JavaScript values and built-ins used by the sources *)

Module Js.

(** Truthiness of a string: every string but the empty one. *)
Definition truthy (s : string) : bool := negb (s =? "").

(** Truthiness of [string | null | undefined]. *)
Definition truthy_opt (o : option string) : bool :=
  match o with
  | Some s => truthy s
  | None => false
  end.

(** [a || b] where [a] is [string | null | undefined] and [b] a string. *)
Definition or_else (a : option string) (b : string) : string :=
  match a with
  | Some s => if truthy s then s else b
  | None => b
  end.

(** The one-unit string holding a double quote. *)
Definition dquote : string := String (ascii_of_nat 34) EmptyString.

(** [a || b] on two strings. *)
Definition or_str (a b : string) : string := if truthy a then a else b.

(** [s.startsWith(p)]. *)
Definition startsWith (s p : string) : bool := String.prefix p s.

(** [s.substring(n)] for [0 <= n]: the units from index [n] on. *)
Fixpoint substring_from (n : nat) (s : string) : string :=
  match n, s with
  | O, _ => s
  | S k, String _ r => substring_from k r
  | S _, EmptyString => EmptyString
  end.

(** [s.split(sep)] for a one-unit separator: never the empty array. *)
Fixpoint split (sep : ascii) (s : string) : list string :=
  match s with
  | EmptyString => [EmptyString]
  | String c r =>
      if Ascii.eqb c sep then EmptyString :: split sep r
      else match split sep r with
           | h :: t => String c h :: t
           | [] => [String c EmptyString]
           end
  end.

(** [parts.join(sep)]. *)
Definition join (sep : string) (parts : list string) : string :=
  String.concat sep parts.

(** [s.replace(/pat/g, rep)] for a literal, non-empty [pat]: matches are
    found left to right and do not overlap.  [skip] counts the units of the
    current match that are still to be consumed. *)
Fixpoint replaceAll_from (pat rep : string) (skip : nat) (s : string) : string :=
  match s with
  | EmptyString => EmptyString
  | String c r =>
      match skip with
      | S k => replaceAll_from pat rep k r
      | O =>
          if String.prefix pat s
          then (rep ++ replaceAll_from pat rep (String.length pat - 1) r)%string
          else String c (replaceAll_from pat rep 0 r)
      end
  end.

Definition replaceAll (pat rep s : string) : string :=
  replaceAll_from pat rep 0 s.

(** WhiteSpace and LineTerminator units (those below 256): what [trim]
    removes. *)
Definition isWhite (c : ascii) : bool :=
  let n := nat_of_ascii c in
  (Nat.eqb n 9 || Nat.eqb n 10 || Nat.eqb n 11 || Nat.eqb n 12
   || Nat.eqb n 13 || Nat.eqb n 32 || Nat.eqb n 160)%bool.

Fixpoint trimStart (s : string) : string :=
  match s with
  | EmptyString => EmptyString
  | String c r => if isWhite c then trimStart r else s
  end.

Definition reverse (s : string) : string :=
  string_of_list_ascii (rev (list_ascii_of_string s)).

(** [s.trim()]. *)
Definition trim (s : string) : string :=
  reverse (trimStart (reverse (trimStart s))).

(** A [Map<string, V>]: keys are unique and iteration is in insertion
    order, so it is an association list; [set] on a present key keeps the
    key's position. *)
Definition Map (V : Type) : Type := list (string * V).

Fixpoint map_has {V} (k : string) (m : Map V) : bool :=
  match m with
  | [] => false
  | (k', _) :: r => if k' =? k then true else map_has k r
  end.

Fixpoint map_get {V} (k : string) (m : Map V) : option V :=
  match m with
  | [] => None
  | (k', v) :: r => if k' =? k then Some v else map_get k r
  end.

Fixpoint map_set {V} (k : string) (v : V) (m : Map V) : Map V :=
  match m with
  | [] => [(k, v)]
  | (k', v') :: r => if k' =? k then (k, v) :: r else (k', v') :: map_set k v r
  end.

(** [m.delete(k)], and what [update(k, undefined)] does to a [Memento]. *)
Definition map_delete {V} (k : string) (m : Map V) : Map V :=
  filter (fun e => negb (fst e =? k)) m.

(** Texts put one after the other: what repeated [+=] or [append]
    leaves. *)
Definition concatAll (l : list string) : string :=
  fold_right String.append EmptyString l.

(** The outcome of a call that may throw an [Error]. *)
Inductive result (A : Type) : Type :=
| Ok (value : A)
| Throw (message : string).
Arguments Ok {A} value.
Arguments Throw {A} message.

Definition throws {A} (r : result A) : bool :=
  match r with
  | Ok _ => false
  | Throw _ => true
  end.

(** Values produced by [JSON.parse]. *)
Inductive json : Type :=
| JNull
| JBool (b : bool)
| JNum (numeral : string)
| JStr (s : string)
| JArr (items : list json)
| JObj (members : list (string * json)).

(** [v[k]] / [v.k] for a parsed JSON value [v] and one of the keys the
    sources read ([name], [storage_dir], [upper_cwd], [overlay_cwd],
    [changes]), none of which is a property of a primitive, of an array or
    of [Object.prototype].  The outer [None] is the [TypeError] of reading
    a property of [null]; the inner [None] is [undefined]. *)
Definition getProp (v : json) (k : string) : option (option json) :=
  match v with
  | JNull => None
  | JObj members => Some (map_get k members)
  | _ => Some None
  end.

(** [x ?? d]: [d] when [x] is [undefined] or [null]. *)
Definition nullish_or (x : option json) (d : json) : json :=
  match x with
  | None => d
  | Some JNull => d
  | Some v => v
  end.

End Js.

(** ** The CLI gateway ([cli.ts]) *)

Module Cli.
Import Js.

Record SandboxConfigInfo : Type := {
  cfg_name : option json;
  cfg_storage_dir : option json;
  cfg_upper_cwd : option json;
  cfg_overlay_cwd : option json
}.

(** One change reported by [sandbox status --json].  An optional field is
    [None] when it is absent ([undefined]) or [null]. *)
Record SandboxChangeEntry : Type := {
  destination : string;
  operation : string;
  source : option string;
  staged : option string;
  tmp_path : option string;
  error : option string
}.

(** The [sandbox.*] settings read through [vscode.workspace.getConfiguration]. *)
Record Settings : Type := {
  set_binaryPath : option string;
  set_name : option string;
  set_net : option string;
  set_noDefaultBinds : bool;
  set_bind : option (list string);
  set_mask : option (list string);
  set_ignored : bool
}.

(** What a spawned child process does: the chunks it writes, in order, and
    the code its [close] event carries ([None] for [null], as when a signal
    ends the process). *)
Inductive ChildEvent : Type :=
| StdoutData (d : string)
| StderrData (d : string).

Record ChildRun : Type := {
  events : list ChildEvent;
  closeCode : option Z
}.

Record ExecResult : Type := {
  stdout : string;
  stderr : string;
  code : Z
}.

(** The calls [spawnDiffStream] makes on the handlers it is given. *)
Inductive HandlerCall : Type :=
| OnStdout (chunk : string)
| OnStderr (chunk : string)
| OnClose (code : Z).

(** Which of the optional handlers the caller supplied. *)
Record Handlers : Type := {
  onStdout : bool;
  onStderr : bool;
  onClose : bool
}.

Definition pushFlagged (flag : string) (items : list string) : list string :=
  flat_map (fun b => if (truthy b && truthy (trim b))%bool then [flag; b] else []) items.

Definition buildBaseArgs (cfg : Settings) : list string :=
  let binds := match set_bind cfg with Some l => l | None => [] end in
  let masks := match set_mask cfg with Some l => l | None => [] end in
  (match set_name cfg with
   | Some name =>
       if (truthy name && (0 <? String.length (trim name))%nat)%bool
       then ["--name"; name] else []
   | None => []
   end)
  ++ (match set_net cfg with
      | Some net => if net =? "host" then ["--net=host"] else []
      | None => []
      end)
  ++ (if set_noDefaultBinds cfg then ["--no-default-binds"] else [])
  ++ pushFlagged "--bind" binds
  ++ pushFlagged "--mask" masks
  ++ (if set_ignored cfg then ["--ignored"] else []).

Definition getBinaryPath (cfg : Settings) : string :=
  or_else (set_binaryPath cfg) "sandbox".

Definition onData (acc : string * string) (e : ChildEvent) : string * string :=
  match e with
  | StdoutData d => ((fst acc ++ d)%string, snd acc)
  | StderrData d => (fst acc, (snd acc ++ d)%string)
  end.

Section Gateway.
(** The operating system: the run of the child started by
    [cp.spawn(bin, args, { cwd, env })]. *)
Variable spawn : string -> list string -> option string -> ChildRun.
(** [JSON.parse]: [None] when it throws a [SyntaxError]. *)
Variable JSON_parse : string -> option json.
Variable cfg : Settings.

Definition execFile (bin : string) (args : list string) (cwd : option string)
  : ExecResult :=
  let child := spawn bin args cwd in
  let acc := fold_left onData (events child) (EmptyString, EmptyString) in
  {| stdout := fst acc;
     stderr := snd acc;
     code := match closeCode child with Some c => c | None => 0%Z end |}.

Definition fetchConfig (cwd : option string) : result SandboxConfigInfo :=
  let bin := getBinaryPath cfg in
  let args := buildBaseArgs cfg
              ++ ["config"; "--json"; "name"; "storage_dir"; "upper_cwd"; "overlay_cwd"] in
  let res := execFile bin args cwd in
  let failed :=
    Throw ("Failed to parse sandbox config JSON: " ++ or_str (stderr res) (stdout res))%string in
  match JSON_parse (stdout res) with
  | None => failed
  | Some parsed =>
      match getProp parsed "name", getProp parsed "storage_dir",
            getProp parsed "upper_cwd", getProp parsed "overlay_cwd" with
      | Some n, Some s, Some u, Some o =>
          Ok {| cfg_name := n; cfg_storage_dir := s;
                cfg_upper_cwd := u; cfg_overlay_cwd := o |}
      | _, _, _, _ => failed
      end
  end.

Definition fetchStatus (cwd : option string) : result json :=
  let bin := getBinaryPath cfg in
  let args := buildBaseArgs cfg ++ ["status"; "--json"] in
  let res := execFile bin args cwd in
  let failed :=
    Throw ("Failed to parse sandbox status JSON: " ++ or_str (stderr res) (stdout res))%string in
  match JSON_parse (stdout res) with
  | None => failed
  | Some parsed =>
      match getProp parsed "changes" with
      | Some changes => Ok (nullish_or changes (JArr []))
      | None => failed
      end
  end.

(** The body shared, textually, by the exit-code-checked calls. *)
Definition checked (bin : string) (args : list string) (cwd : option string)
  : result ExecResult :=
  let res := execFile bin args cwd in
  if negb (code res =? 0)%Z then Throw (or_str (stderr res) (stdout res))
  else Ok res.

Definition discard (r : result ExecResult) : result unit :=
  match r with
  | Ok _ => Ok tt
  | Throw m => Throw m
  end.

Definition runAccept (patterns : list string) (cwd : option string) : result unit :=
  discard (checked (getBinaryPath cfg) (buildBaseArgs cfg ++ "accept" :: patterns) cwd).

Definition runReject (patterns : list string) (cwd : option string) : result unit :=
  discard (checked (getBinaryPath cfg) (buildBaseArgs cfg ++ "reject" :: patterns) cwd).

Definition runDiff (patterns : list string) (cwd : option string) : result string :=
  match checked (getBinaryPath cfg) (buildBaseArgs cfg ++ "diff" :: patterns) cwd with
  | Ok res => Ok (stdout res)
  | Throw m => Throw m
  end.

Definition onEvent (h : Handlers) (e : ChildEvent) : list HandlerCall :=
  match e with
  | StdoutData d => if onStdout h then [OnStdout d] else []
  | StderrData d => if onStderr h then [OnStderr d] else []
  end.

(** The handler calls made, in order, while the child of
    [spawnDiffStream] runs. *)
Definition spawnDiffStream (patterns : list string) (h : Handlers)
    (cwd : option string) : list HandlerCall :=
  let bin := getBinaryPath cfg in
  let args := buildBaseArgs cfg ++ "diff" :: patterns in
  let child := spawn bin args cwd in
  flat_map (onEvent h) (events child)
  ++ (if onClose h
      then [OnClose (match closeCode child with Some c => c | None => 0%Z end)]
      else []).

Definition runSync (cwd : option string) : result unit :=
  discard (checked (getBinaryPath cfg) (buildBaseArgs cfg ++ ["sync"]) cwd).

Definition runStop (cwd : option string) : result unit :=
  discard (checked (getBinaryPath cfg) (buildBaseArgs cfg ++ ["stop"]) cwd).

Definition runDelete (cwd : option string) : result unit :=
  discard (checked (getBinaryPath cfg) (buildBaseArgs cfg ++ ["delete"; "-y"]) cwd).

End Gateway.

(** The command line [openSandboxTerminal] sends to the terminal it
    creates, with [SHELL] the value of [process.env.SHELL]. *)
Definition openSandboxTerminal (cfg : Settings) (SHELL : option string) : string :=
  let bin := or_else (set_binaryPath cfg) "sandbox" in
  let args := buildBaseArgs cfg in
  let shell := or_else SHELL "sh" in
  join " " (bin :: args ++ [shell]).

End Cli.

(** ** The change tree ([tree.ts]) *)

Module Tree.
Import Js.
Import Cli.

Inductive CollapsibleState : Type :=
| StateNone
| Collapsed
| Expanded.

Record Command : Type := {
  cmd_title : string;
  cmd_command : string;
  cmd_arguments : list (list string)
}.

(** A [SandboxNode] (a [vscode.TreeItem]) with the fields the sources set. *)
Inductive SandboxNode : Type := mkNode {
  label : string;
  collapsibleState : CollapsibleState;
  targetPath : option string;
  op : option string;
  contextValue : string;
  command : option Command;
  iconPath : option string;
  resourceUri : option string;
  tooltip : option string;
  accessibilityInformation : option (string * string);
  children : option (list SandboxNode)
}.

Definition isOneOf (s : string) (l : list string) : bool :=
  existsb (String.eqb s) l.

(** [new SandboxNode(label, collapsibleState, targetPath, op)]. *)
Definition newSandboxNode (label : string) (state : CollapsibleState)
    (targetPath op : option string) : SandboxNode :=
  {| label := label;
     collapsibleState := state;
     targetPath := targetPath;
     op := op;
     contextValue :=
       match op with
       | Some o =>
           if o =? "folder" then "folder"
           else if isOneOf o ["actions"; "action"; "workspace"] then o
           else "change"
       | None => "change"
       end;
     command :=
       match state with
       | StateNone =>
           Some {| cmd_title := "Diff";
                   cmd_command := "sandbox.diff";
                   cmd_arguments :=
                     [match targetPath with
                      | Some t => if truthy t then [t] else []
                      | None => []
                      end] |}
       | _ => None
       end;
     iconPath := None;
     resourceUri := None;
     tooltip := None;
     accessibilityInformation := None;
     children := None |}.

Definition withIcon (icon : string) (n : SandboxNode) : SandboxNode :=
  mkNode (label n) (collapsibleState n) (targetPath n) (op n) (contextValue n)
         (command n) (Some icon) (resourceUri n) (tooltip n)
         (accessibilityInformation n) (children n).

Definition withChildren (cs : list SandboxNode) (n : SandboxNode) : SandboxNode :=
  mkNode (label n) (collapsibleState n) (targetPath n) (op n) (contextValue n)
         (command n) (iconPath n) (resourceUri n) (tooltip n)
         (accessibilityInformation n) (Some cs).

Definition withCommand (c : Command) (n : SandboxNode) : SandboxNode :=
  mkNode (label n) (collapsibleState n) (targetPath n) (op n) (contextValue n)
         (Some c) (iconPath n) (resourceUri n) (tooltip n)
         (accessibilityInformation n) (children n).

Definition changeLabel (c : SandboxChangeEntry) : string :=
  if ((operation c =? "rename") && truthy_opt (source c))%bool
  then (match source c with Some s => s | None => "" end
        ++ " -> " ++ destination c)%string
  else destination c.

Definition changeIcon (operation : string) : string :=
  if operation =? "create" then "diff-added"
  else if operation =? "modify" then "diff-modified"
  else if operation =? "remove" then "diff-removed"
  else if operation =? "rename" then "diff-renamed"
  else if operation =? "error" then "error"
  else "question".

Definition nodeFromChange (c : SandboxChangeEntry) : SandboxNode :=
  let n := newSandboxNode (changeLabel c) StateNone
                          (Some (destination c)) (Some (operation c)) in
  mkNode (label n) (collapsibleState n) (targetPath n) (op n) "change"
         (command n) (Some (changeIcon (operation c))) (Some (destination c))
         (tooltip n) (accessibilityInformation n) (children n).

(** One iteration of the loop of [groupByOperation]: [push] extends the
    array stored under the key, which stays where it is in the map. *)
Definition groupStep (m : Map (list SandboxChangeEntry)) (c : SandboxChangeEntry)
  : Map (list SandboxChangeEntry) :=
  let key := operation c in
  let m1 := if map_has key m then m else map_set key [] m in
  match map_get key m1 with
  | Some l => map_set key (l ++ [c]) m1
  | None => m1
  end.

Definition groupByOperation (changes : list SandboxChangeEntry)
  : Map (list SandboxChangeEntry) :=
  fold_left groupStep changes [].

(** The nested maps built by the first loop of [buildDirectoryHierarchy]:
    a value is a change (a leaf) or a [Map] (an interior node). *)
Inductive DirTree : Type :=
| Leaf (c : SandboxChangeEntry)
| Dir (m : list (string * DirTree)).

(** The path shown for a change: [destination] without the [cwd + '/']
    prefix when [cwd] is truthy and the destination starts with it. *)
Definition relPath (cwd : option string) (c : SandboxChangeEntry) : string :=
  match cwd with
  | Some w =>
      if (truthy w && startsWith (destination c) (w ++ "/"))%bool
      then substring_from (String.length w + 1) (destination c)
      else destination c
  | None => destination c
  end.

Definition nonEmpty (p : string) : bool := (0 <? String.length p)%nat.

Definition pathParts (cwd : option string) (c : SandboxChangeEntry) : list string :=
  filter nonEmpty (split "/"%char (relPath cwd c)).

(** The inner loop over [parts], from index [i] on, with [cursor] the map
    the loop stands in.  Where the source moves [cursor] to the nested map
    and goes on mutating it, the updated nested map is stored back under
    the same key, which keeps its position. *)
Fixpoint insertParts (parts : list string) (c : SandboxChangeEntry)
    (cursor : Map DirTree) : Map DirTree :=
  match parts with
  | [] => cursor
  | part :: rest =>
      let cursor1 :=
        if map_has part cursor then cursor else map_set part (Dir []) cursor in
      match rest with
      | [] => map_set part (Leaf c) cursor1
      | _ :: _ =>
          match map_get part cursor1 with
          | Some (Dir next) => map_set part (Dir (insertParts rest c next)) cursor1
          | _ => map_set part (Dir (insertParts rest c [])) cursor1
          end
      end
  end.

(** [root] after the first loop of [buildDirectoryHierarchy]. *)
Definition buildRoot (changes : list SandboxChangeEntry) (cwd : option string)
  : Map DirTree :=
  fold_left (fun root c => insertParts (pathParts cwd c) c root) changes [].

Definition folderPathOf (prefix name : string) : string :=
  if truthy prefix then (prefix ++ "/" ++ name)%string else name.

Definition folderNode (name folderPath : string) (kids : list SandboxNode)
  : SandboxNode :=
  withChildren kids
    (withCommand {| cmd_title := "Diff";
                    cmd_command := "sandbox.diff";
                    cmd_arguments := [[(folderPath ++ "/**")%string]] |}
       (withIcon "folder"
          (newSandboxNode name Collapsed (Some folderPath) (Some "folder")))).

Section Render.
(** [String.prototype.localeCompare] of the host: negative, zero or
    positive. *)
Variable localeCompare : string -> string -> Z.

(** [entries.sort((a, b) => a[0].localeCompare(b[0]))]: the sort is
    stable, so an entry goes before the first one it does not follow. *)
Fixpoint insertEntry {V} (x : string * V) (l : list (string * V))
  : list (string * V) :=
  match l with
  | [] => [x]
  | y :: r =>
      if (localeCompare (fst x) (fst y) <=? 0)%Z then x :: l
      else y :: insertEntry x r
  end.

Definition sortEntries {V} (l : list (string * V)) : list (string * V) :=
  fold_right insertEntry [] l.

(** The node of one map entry.  The children of a folder are rendered
    entry by entry and then put in the order of their names, which is the
    order [toNodes] gives the entries before it renders them (see
    [toNodes_eq]). *)
Fixpoint renderEntry (prefix name : string) (value : DirTree) : SandboxNode :=
  match value with
  | Dir sub =>
      let folderPath := folderPathOf prefix name in
      folderNode name folderPath
        (map snd (sortEntries
           (map (fun e => (fst e, renderEntry folderPath (fst e) (snd e))) sub)))
  | Leaf c => nodeFromChange c
  end.

Definition toNodes (tree : Map DirTree) (prefix : string) : list SandboxNode :=
  map snd (sortEntries
    (map (fun e => (fst e, renderEntry prefix (fst e) (snd e))) tree)).

Definition buildDirectoryHierarchy (changes : list SandboxChangeEntry)
    (cwd : option string) : list SandboxNode :=
  toNodes (buildRoot changes cwd) "".

Definition makeAction (label command icon : string) : SandboxNode :=
  withCommand {| cmd_title := label; cmd_command := command; cmd_arguments := [] |}
    (withIcon icon (newSandboxNode label StateNone None (Some "action"))).

Definition buildActionsGroupNode (cwd : string)
    (inOverlayRoot hasOriginalWorkspace : bool) : SandboxNode :=
  let group := withIcon "tools"
                 (newSandboxNode "Actions" Expanded None (Some "actions")) in
  if inOverlayRoot then
    withChildren
      (makeAction "Enter Sandbox" "sandbox.enter" "terminal"
       :: (if hasOriginalWorkspace
           then [makeAction "Restore Workspace Folder"
                            "sandbox.restoreWorkspaceFolder" "folder"]
           else []))
      group
  else
    withChildren
      [ makeAction "Enter Sandbox" "sandbox.enter" "terminal";
        makeAction "Refresh" "sandbox.refresh" "refresh";
        makeAction "Sync" "sandbox.sync" "sync";
        makeAction "Stop" "sandbox.stop" "debug-stop";
        makeAction "Delete" "sandbox.delete" "trash";
        makeAction "Add Overlay as Folder" "sandbox.addOverlayFolder" "new-folder";
        makeAction "Remove Overlay Folder" "sandbox.removeOverlayFolder" "folder";
        makeAction "Use Overlay in Explorer" "sandbox.useOverlayInExplorer" "folder-opened";
        makeAction "Restore Workspace Folder" "sandbox.restoreWorkspaceFolder" "folder";
        makeAction "Show Config" "sandbox.showConfig" "gear" ]
      group.

Definition buildOverlayIndicatorNode : SandboxNode :=
  let n := withIcon "layers-active"
             (newSandboxNode "Overlay active" StateNone None (Some "info")) in
  mkNode (label n) (collapsibleState n) (targetPath n) (op n) (contextValue n)
         (command n) (iconPath n) (resourceUri n)
         (Some ("You are viewing the sandbox overlay. Use " ++ dquote
                ++ "Restore Workspace Folder" ++ dquote
                ++ " to return to your original workspace.")%string)
         (Some ("Overlay active", "text")) (children n).

Definition order : list string :=
  ["error"; "remove"; "rename"; "modify"; "create"].

(** The node of one operation group: [`${op} (${list.length})`]. *)
Definition groupNode (op : string) (list : list SandboxChangeEntry)
    (cwd : string) : SandboxNode :=
  withChildren (buildDirectoryHierarchy list (Some cwd))
    (newSandboxNode
       (op ++ " (" ++ NilEmpty.string_of_uint (Nat.to_uint (length list)) ++ ")")%string
       Collapsed None (Some op)).

(** The first loop over the groups: the operations of [order]. *)
Definition orderedGroupNodes (groups : Map (list SandboxChangeEntry))
    (cwd : string) : list SandboxNode :=
  flat_map (fun op =>
              match map_get op groups with
              | Some list =>
                  if (length list =? 0)%nat then [] else [groupNode op list cwd]
              | None => []
              end) order.

(** The second loop: the groups of every other operation, in the order
    of the map. *)
Definition otherGroupNodes (groups : Map (list SandboxChangeEntry))
    (cwd : string) : list SandboxNode :=
  flat_map (fun e => if isOneOf (fst e) order then []
                     else [groupNode (fst e) (snd e) cwd]) groups.

Definition groupNodes (changes : list SandboxChangeEntry) (cwd : string)
  : list SandboxNode :=
  let groups := groupByOperation changes in
  orderedGroupNodes groups cwd ++ otherGroupNodes groups cwd.

Definition errorNode (message : string) : SandboxNode :=
  withIcon "error" (newSandboxNode message StateNone None (Some "error")).

(** The nodes listed for the folder [cwd], given what [fetchStatus(cwd)]
    gave: the body shared by the single-folder root and the expansion of
    a workspace node. *)
Definition folderChildren (inOverlayRoot hasOriginalWorkspace : bool)
    (cwd : string) (status : result (list SandboxChangeEntry))
  : list SandboxNode :=
  match status with
  | Throw message => [errorNode message]
  | Ok changes =>
      (if inOverlayRoot then [buildOverlayIndicatorNode] else [])
      ++ [buildActionsGroupNode cwd inOverlayRoot hasOriginalWorkspace]
      ++ groupNodes changes cwd
  end.

Record WorkspaceFolder : Type := {
  folder_name : string;
  fsPath : string
}.

Record Provider : Type := {
  workspaceFolder : option WorkspaceFolder;
  inOverlayRoot : bool;
  hasOriginalWorkspace : bool
}.

Definition workspaceNode (f : WorkspaceFolder) : SandboxNode :=
  withIcon "root-folder"
    (newSandboxNode (folder_name f) Collapsed (Some (fsPath f)) (Some "workspace")).

(** [getChildren(element)], with [folders] the workspace folders of the
    window and [fetch cwd] what [fetchStatus(cwd)] resolves to, its
    [changes] read as the array of entries the signature promises. *)
Definition getChildren (this : Provider) (folders : list WorkspaceFolder)
    (fetch : string -> result (list SandboxChangeEntry))
    (element : option SandboxNode) : list SandboxNode :=
  match element with
  | None =>
      if (length folders <=? 1)%nat then
        match (match workspaceFolder this with
               | Some f => Some f
               | None => hd_error folders
               end) with
        | Some f =>
            let cwd := fsPath f in
            if truthy cwd
            then folderChildren (inOverlayRoot this) (hasOriginalWorkspace this)
                                cwd (fetch cwd)
            else []
        | None => []
        end
      else map workspaceNode folders
  | Some element =>
      match op element, targetPath element with
      | Some o, Some cwd =>
          if ((o =? "workspace") && truthy cwd)%bool
          then folderChildren (inOverlayRoot this) (hasOriginalWorkspace this)
                              cwd (fetch cwd)
          else match children element with Some cs => cs | None => [] end
      | _, _ => match children element with Some cs => cs | None => [] end
      end
  end.

End Render.

End Tree.

(** ** Diff helpers ([extension.ts]) *)

Module Extension.
Import Js.
Import Cli.

(** *** Regular expressions, as far as [globToRegex] writes them *)

Inductive CharSet : Type :=
| Literal (c : ascii)
| NotSlash
| AnyChar.

Inductive Quant : Type :=
| Once
| Optional
| Star.

Definition Term : Type := (CharSet * Quant)%type.

(** A compiled [^ ... $] pattern: its terms in order. *)
Definition RegExp : Type := list Term.

(** Whether the last term read can still take a quantifier. *)
Inductive Suffix : Type :=
| NoSuffix
| AfterAtom
| AfterQuant.

Inductive Mode : Type :=
| AtStart
| InBody (q : Suffix)
| AfterBackslash
| InClass (seen : nat)
| AtEnd.

Definition isSyntaxChar (c : ascii) : bool :=
  existsb (Ascii.eqb c)
    ["."; "+"; "^"; "$"; "{"; "}"; "("; ")"; "|"; "["; "]"; "\"; "*"; "?"]%char.

Definition requantify (q : Quant) (acc : list Term) : list Term :=
  match acc with
  | (cs, _) :: r => (cs, q) :: r
  | [] => []
  end.

(** One unit of the pattern source read by [new RegExp(source)]; [None] is
    the [SyntaxError] (or a construct [globToRegex] never writes).  The
    terms are collected last first. *)
Definition readUnit (st : option (list Term * Mode)) (c : ascii)
  : option (list Term * Mode) :=
  match st with
  | None => None
  | Some (acc, AtStart) =>
      if Ascii.eqb c "^" then Some (acc, InBody NoSuffix) else None
  | Some (acc, AfterBackslash) =>
      if isSyntaxChar c then Some ((Literal c, Once) :: acc, InBody AfterAtom)
      else None
  | Some (acc, InClass 0) =>
      if Ascii.eqb c "^" then Some (acc, InClass 1) else None
  | Some (acc, InClass 1) =>
      if Ascii.eqb c "/" then Some (acc, InClass 2) else None
  | Some (acc, InClass _) =>
      if Ascii.eqb c "]" then Some ((NotSlash, Once) :: acc, InBody AfterAtom)
      else None
  | Some (acc, AtEnd) => None
  | Some (acc, InBody q) =>
      if Ascii.eqb c "*" then
        match q with
        | AfterAtom => Some (requantify Star acc, InBody AfterQuant)
        | _ => None
        end
      else if Ascii.eqb c "?" then
        match q with
        | AfterAtom => Some (requantify Optional acc, InBody AfterQuant)
        | AfterQuant => Some (acc, InBody NoSuffix)
        | NoSuffix => None
        end
      else if Ascii.eqb c "$" then Some (acc, AtEnd)
      else if Ascii.eqb c "\" then Some (acc, AfterBackslash)
      else if Ascii.eqb c "[" then Some (acc, InClass 0)
      else if Ascii.eqb c "." then Some ((AnyChar, Once) :: acc, InBody AfterAtom)
      else if isSyntaxChar c then None
      else Some ((Literal c, Once) :: acc, InBody AfterAtom)
  end.

(** [new RegExp(source)]. *)
Definition compile (source : string) : option RegExp :=
  match fold_left readUnit (list_ascii_of_string source) (Some ([], AtStart)) with
  | Some (acc, AtEnd) => Some (rev acc)
  | _ => None
  end.

Definition isLineTerminator (c : ascii) : bool :=
  (Ascii.eqb c (ascii_of_nat 10) || Ascii.eqb c (ascii_of_nat 13))%bool.

Definition inSet (cs : CharSet) (c : ascii) : bool :=
  match cs with
  | Literal l => Ascii.eqb c l
  | NotSlash => negb (Ascii.eqb c "/")
  | AnyChar => negb (isLineTerminator c)
  end.

(** Whether the terms match the whole of [s]. *)
Fixpoint matchTerms (r : RegExp) (s : list ascii) : bool :=
  match r with
  | [] => match s with [] => true | _ :: _ => false end
  | (cs, Once) :: r' =>
      match s with
      | c :: s' => (inSet cs c && matchTerms r' s')%bool
      | [] => false
      end
  | (cs, Optional) :: r' =>
      (matchTerms r' s
       || match s with
          | c :: s' => inSet cs c && matchTerms r' s'
          | [] => false
          end)%bool
  | (cs, Star) :: r' =>
      (fix run (s : list ascii) : bool :=
         (matchTerms r' s
          || match s with
             | c :: s' => inSet cs c && run s'
             | [] => false
             end)%bool) s
  end.

(** [r.test(s)] for a pattern anchored at both ends. *)
Definition test (r : RegExp) (s : string) : bool :=
  matchTerms r (list_ascii_of_string s).

(** *** The helpers *)

Definition isEscaped (c : ascii) : bool :=
  existsb (Ascii.eqb c)
    ["."; "+"; "^"; "$"; "{"; "}"; "("; ")"; "|"; "["; "]"; "\"]%char.

(** [glob.replace(/[.+^${}()|[\]\\]/g, '\\$&')]. *)
Fixpoint escapeSpecials (glob : string) : string :=
  match glob with
  | EmptyString => EmptyString
  | String c r =>
      if isEscaped c then String "\" (String c (escapeSpecials r))
      else String c (escapeSpecials r)
  end.

(** The source text [globToRegex] hands to [new RegExp]. *)
Definition globSource (glob : string) : string :=
  let escaped :=
    replaceAll "::DOUBLE_STAR::" ".*"
      (replaceAll "*" "[^/]*"
         (replaceAll "**" "::DOUBLE_STAR::" (escapeSpecials glob))) in
  ("^" ++ escaped ++ "$")%string.

Definition globToRegex (glob : string) : option RegExp :=
  compile (globSource glob).

(** [patterns.map((p) => globToRegex(p))]: throws when one pattern does. *)
Fixpoint compileAll (patterns : list string) : option (list RegExp) :=
  match patterns with
  | [] => Some []
  | p :: ps =>
      match globToRegex p, compileAll ps with
      | Some r, Some rs => Some (r :: rs)
      | _, _ => None
      end
  end.

Definition filterChangesByPatterns (changes : list SandboxChangeEntry)
    (patterns : list string) : option (list SandboxChangeEntry) :=
  match compileAll patterns with
  | Some regexes =>
      Some (filter (fun c => existsb (fun r => test r (destination c)) regexes) changes)
  | None => None
  end.


(** One side of the diff: a file that is there, or an empty file made for
    the occasion in a fresh temporary directory, with its file name. *)
Inductive DiffSide : Type :=
| FileUri (path : string)
| TempEmptyFile (name : string).

Definition isSafeChar (c : ascii) : bool :=
  let n := nat_of_ascii c in
  ((97 <=? n) && (n <=? 122) || (65 <=? n) && (n <=? 90)
   || (48 <=? n) && (n <=? 57)
   || Ascii.eqb c "." || Ascii.eqb c "_" || Ascii.eqb c "-")%bool%nat.

Fixpoint sanitize (s : string) : string :=
  match s with
  | EmptyString => EmptyString
  | String c r => String (if isSafeChar c then c else "_"%char) (sanitize r)
  end.

Definition createTempEmptyFile (prefix : string) : DiffSide :=
  TempEmptyFile (or_str (sanitize prefix) "empty").

Section DiffResolver.
(** [fs.accessSync(p, R_OK)] succeeding on the local file system. *)
Variable readable : string -> bool.
(** [path.basename] of Node. *)
Variable basename : string -> string.




End DiffResolver.

(** *** The commands *)

(** [ensurePatterns(arg)]: [arg] is [Some] for an array of strings, and
    [input] is what the input box resolves to ([None] when it is
    dismissed); the box is only shown when [arg] is no such array. *)
Definition ensurePatterns (arg : option (list string)) (input : option string)
  : option (list string) :=
  match arg with
  | Some patterns => Some patterns
  | None =>
      match input with
      | Some text =>
          if truthy text
          then Some (filter (fun s => (0 <? String.length s)%nat)
                            (map trim (split "," text)))
          else None
      | None => None
      end
  end.








(** The calls a command makes on the window, in order. *)
Inductive UiCall : Type :=
| WithProgress (title : string)
| ShowErrorMessage (message : string)
| OpenSettings (setting : string)
| RefreshTree
| OpenFolder (path : string)
| ShowWarningMessage (message : string)
| UpdateSandboxContexts.



Section Commands.
Variable spawn : string -> list string -> option string -> ChildRun.
Variable cfg : Settings.
(** [getWorkspaceCwd()] when the extension was activated. *)
Variable cwd : option string.




End Commands.

(** *** The overlay mapping kept in [context.globalState]

    The extension writes strings only, under the keys below, so the
    state is a map to strings. *)

Definition overlayKey (overlayPath : string) : string :=
  ("overlayMap:" ++ overlayPath)%string.

Definition rememberOverlayMapping (state : Map string)
    (overlayPath originalPath : string) : Map string :=
  map_set (overlayKey overlayPath) originalPath state.

Definition recallOriginalForOverlay (state : Map string) (overlayPath : string)
  : option string :=
  map_get (overlayKey overlayPath) state.

Definition forgetOverlayMapping (state : Map string) (overlayPath : string)
  : Map string :=
  map_delete (overlayKey overlayPath) state.

Definition noOriginalWarning : string :=
  ("No recorded original workspace for this overlay. Use " ++ dquote
   ++ "Add Overlay as Folder" ++ dquote
   ++ " or open your workspace manually.")%string.

(** The handler of [sandbox.restoreWorkspaceFolder], with [current] what
    [getWorkspaceCwd()] gives: its calls and the state it leaves. *)
Definition restoreWorkspaceFolder (state : Map string) (current : option string)
  : list UiCall * Map string :=
  match current with
  | Some cur =>
      if truthy cur then
        match recallOriginalForOverlay state cur with
        | Some original =>
            if truthy original
            then ([OpenFolder original; UpdateSandboxContexts],
                  forgetOverlayMapping state cur)
            else ([ShowWarningMessage noOriginalWarning; UpdateSandboxContexts],
                  state)
        | None =>
            ([ShowWarningMessage noOriginalWarning; UpdateSandboxContexts], state)
        end
      else ([], state)
  | None => ([], state)
  end.

(** [hasOriginal] as [updateSandboxContexts] computes it and hands it to
    the tree provider. *)
Definition hasOriginal (state : Map string) (current : option string) : bool :=
  match current with
  | Some cur =>
      if truthy cur then truthy_opt (recallOriginalForOverlay state cur) else false
  | None => false
  end.

End Extension.

(** * Statements

    The predicates and functions the properties are stated with, and the
    sample inputs they are tried on. *)

(** ** For the CLI gateway *)

Module CliProps.
Import Js Cli.

(** A run that differs from [spawn]'s only in the code of its [close]. *)
Definition closingWith (c : option Z)
    (spawn : string -> list string -> option string -> ChildRun)
  : string -> list string -> option string -> ChildRun :=
  fun bin args cwd => {| events := events (spawn bin args cwd); closeCode := c |}.

(** An exit-code-checked call with outcome [r], on the child [child]
    whose captured output is [res]: it throws exactly on a non-zero exit
    code, with stderr, or else stdout, as message. *)
Definition exitCodeChecked (r : result unit) (child : ChildRun) (res : ExecResult)
  : Prop :=
  (throws r = true <-> exists n, closeCode child = Some n /\ n <> 0%Z)
  /\ (forall m, r = Throw m ->
        m = if (stderr res =? "")%string then stdout res else stderr res)
  /\ (closeCode child = Some 0%Z -> r = Ok tt).

(** A child that a signal ends after it wrote something. *)
Definition killedBySignal : string -> list string -> option string -> ChildRun :=
  fun _ _ _ =>
    {| events := [StdoutData "partial"; StderrData "Terminated"];
       closeCode := None |}.

Definition defaultSettings : Settings :=
  {| set_binaryPath := None; set_name := None; set_net := None;
     set_noDefaultBinds := false; set_bind := None; set_mask := None;
     set_ignored := false |}.

Definition allHandlers : Handlers :=
  {| onStdout := true; onStderr := true; onClose := true |}.

(** [JSON.parse] as far as one text is concerned: [text] parses to [v]. *)
Definition parsesTo (text : string) (v : json) : string -> option json :=
  fun s => if (s =? text)%string then Some v else None.

(** A child that prints [text] and exits with [c]. *)
Definition printing (text : string) (c : Z)
  : string -> list string -> option string -> ChildRun :=
  fun _ _ _ => {| events := [StdoutData text]; closeCode := Some c |}.

Definition changesFiveText : string :=
  ("{" ++ dquote ++ "changes" ++ dquote ++ ":5}")%string.

(** The chunks a child wrote on one stream, in order. *)
Definition stdoutChunks (es : list ChildEvent) : list string :=
  flat_map (fun e => match e with StdoutData d => [d] | StderrData _ => [] end) es.

Definition stderrChunks (es : list ChildEvent) : list string :=
  flat_map (fun e => match e with StderrData d => [d] | StdoutData _ => [] end) es.

(** The chunks a handler received, in order. *)
Definition stdoutCalls (calls : list HandlerCall) : list string :=
  flat_map (fun c => match c with OnStdout d => [d] | _ => [] end) calls.

Definition stderrCalls (calls : list HandlerCall) : list string :=
  flat_map (fun c => match c with OnStderr d => [d] | _ => [] end) calls.

Definition closeCalls (calls : list HandlerCall) : list Z :=
  flat_map (fun c => match c with OnClose n => [n] | _ => [] end) calls.

(** A text made of white space only (the empty text too). *)
Definition isBlank (s : string) : bool :=
  forallb isWhite (list_ascii_of_string s).

Definition notBlank (s : string) : bool := negb (isBlank s).

(** A list of characters without its leading white space. *)
Fixpoint dropWhite (l : list ascii) : list ascii :=
  match l with
  | [] => []
  | c :: r => if isWhite c then dropWhite r else l
  end.

(** How often the character [sep] occurs in a text, and in the texts of
    a list. *)
Fixpoint countChar (sep : ascii) (s : string) : nat :=
  match s with
  | EmptyString => 0
  | String c r => (if Ascii.eqb c sep then 1 else 0) + countChar sep r
  end.

Definition countIn (sep : ascii) (l : list string) : nat :=
  list_sum (map (countChar sep) l).

(** A text without the character [sep]. *)
Definition freeOf (sep : ascii) (s : string) : Prop :=
  Forall (fun c => c <> sep) (list_ascii_of_string s).

(** Settings with a name, a network mode and binds. *)
Definition sampleSettings : Settings :=
  {| set_binaryPath := Some "/opt/sandbox"; set_name := Some "dev";
     set_net := Some "host"; set_noDefaultBinds := false;
     set_bind := Some ["/src:/work:ro"; "  "; "/data"]; set_mask := None;
     set_ignored := true |}.

End CliProps.

(** ** For the change tree *)

Module TreeProps.
Import Js Cli Tree.

(** The distinct elements of a list, each at its first occurrence. *)
Fixpoint firstSeen (l : list string) : list string :=
  match l with
  | [] => []
  | x :: r => x :: filter (fun y => negb (y =? x)%string) (firstSeen r)
  end.

Definition hasOperation (key : string) (c : SandboxChangeEntry) : bool :=
  (operation c =? key)%string.

(** The groups of [changes], said directly: one group per distinct
    operation, in first-seen order, holding the entries of that
    operation in the order of [changes]. *)
Definition groupsOf (changes : list SandboxChangeEntry)
  : Map (list SandboxChangeEntry) :=
  map (fun key => (key, filter (hasOperation key) changes))
      (firstSeen (map operation changes)).

(** [leafAt path c m]: following the keys of [path] from the map [m]
    down through interior nodes ends at a leaf holding [c]. *)
Inductive leafAt : list string -> SandboxChangeEntry -> Map DirTree -> Prop :=
| leafHere (name : string) (c : SandboxChangeEntry) (m : Map DirTree) :
    In (name, Leaf c) m -> leafAt [name] c m
| leafBelow (name : string) (sub : Map DirTree) (path : list string)
    (c : SandboxChangeEntry) (m : Map DirTree) :
    In (name, Dir sub) m -> leafAt path c sub -> leafAt (name :: path) c m.

(** [nameIn name m]: [name] is a key somewhere in the nested maps. *)
Inductive nameIn : string -> Map DirTree -> Prop :=
| nameHere (name : string) (t : DirTree) (m : Map DirTree) :
    In (name, t) m -> nameIn name m
| nameBelow (key : string) (sub : Map DirTree) (name : string) (m : Map DirTree) :
    In (key, Dir sub) m -> nameIn name sub -> nameIn name m.

(** Keys are unique in every map of the hierarchy, as in a [Map]. *)
Inductive uniqueKeys : Map DirTree -> Prop :=
| uniqueKeys_intro (m : Map DirTree) :
    NoDup (map fst m) ->
    (forall name sub, In (name, Dir sub) m -> uniqueKeys sub) ->
    uniqueKeys m.

(** The node stored under the keys of [path], every key before the last
    naming an interior node. *)
Fixpoint subtreeAt (path : list string) (m : Map DirTree) : option DirTree :=
  match path with
  | [] => None
  | name :: rest =>
      match rest with
      | [] => map_get name m
      | _ :: _ =>
          match map_get name m with
          | Some (Dir sub) => subtreeAt rest sub
          | _ => None
          end
      end
  end.

(** [cursor] after [if (!cursor.has(part)) cursor.set(part, new Map())]. *)
Definition ensured (part : string) (cursor : Map DirTree) : Map DirTree :=
  if map_has part cursor then cursor else map_set part (Dir []) cursor.

Definition entryFor (destination operation : string) : SandboxChangeEntry :=
  {| destination := destination; operation := operation; source := None;
     staged := None; tmp_path := None; error := None |}.

(** [nodeIn n ns]: [n] is one of the nodes [ns] or lies below one of
    them. *)
Inductive nodeIn : SandboxNode -> list SandboxNode -> Prop :=
| nodeTop (n : SandboxNode) (ns : list SandboxNode) : In n ns -> nodeIn n ns
| nodeUnder (f : SandboxNode) (kids : list SandboxNode) (n : SandboxNode)
    (ns : list SandboxNode) :
    In f ns -> children f = Some kids -> nodeIn n kids -> nodeIn n ns.

(** [nodeAt folders n ns]: [n] is reached from the nodes [ns] by opening
    the folders labelled [folders], one inside the other. *)
Inductive nodeAt : list string -> SandboxNode -> list SandboxNode -> Prop :=
| nodeAtTop (n : SandboxNode) (ns : list SandboxNode) : In n ns -> nodeAt [] n ns
| nodeAtBelow (f : SandboxNode) (kids : list SandboxNode) (folders : list string)
    (n : SandboxNode) (ns : list SandboxNode) :
    In f ns -> children f = Some kids -> nodeAt folders n kids ->
    nodeAt (label f :: folders) n ns.

(** Comparison of strings unit by unit, as a [localeCompare]. *)
Definition unitCompare (a b : string) : Z :=
  match OrderedTypeEx.String_as_OT.cmp a b with
  | Lt => (-1)%Z
  | Eq => 0%Z
  | Gt => 1%Z
  end.

Definition byName (localeCompare : string -> string -> Z) {V}
    (a b : string * V) : Prop :=
  (localeCompare (fst a) (fst b) <= 0)%Z.

Definition sampleChanges : list SandboxChangeEntry :=
  [entryFor "/w/z.txt" "create"; entryFor "/w/b/c.txt" "chmod";
   entryFor "/w/m/x" "create"; entryFor "/w/a.txt" "create";
   entryFor "/w/b" "error"].

(** [startsLike p q]: the list [q] starts with the list [p]. *)
Definition startsLike (p q : list string) : Prop := exists r, q = p ++ r.

(** Two paths collide: both have a segment, and one is the beginning of
    the other (as when they are the same). *)
Definition collides (p q : list string) : Prop :=
  p <> [] /\ q <> [] /\ (startsLike p q \/ startsLike q p).

(** No change of the list has a path that collides with the path of
    another. *)
Definition collisionFree (cwd : option string) (changes : list SandboxChangeEntry)
  : Prop :=
  ForallOrdPairs
    (fun a b => ~ collides (pathParts cwd a) (pathParts cwd b)) changes.

(** How deep the nested maps go. *)
Fixpoint height (t : DirTree) : nat :=
  match t with
  | Leaf _ => 0
  | Dir m => S (fold_right Nat.max 0 (map (fun e => height (snd e)) m))
  end.

Definition mapHeight (m : Map DirTree) : nat :=
  fold_right Nat.max 0 (map (fun e => height (snd e)) m).

(** The two maps hold the same leaves at the same paths. *)
Definition sameLeaves (m m' : Map DirTree) : Prop :=
  forall path c, leafAt path c m <-> leafAt path c m'.

(** The interior map under [part], the empty one when there is none. *)
Definition subOf (part : string) (m : Map DirTree) : Map DirTree :=
  match map_get part m with
  | Some (Dir next) => next
  | _ => []
  end.

(** No interior node of the hierarchy is empty. *)
Inductive foldersFilled : Map DirTree -> Prop :=
| foldersFilled_intro (m : Map DirTree) :
    (forall name sub, In (name, Dir sub) m -> sub <> [] /\ foldersFilled sub) ->
    foldersFilled m.

(** A path made of slashes only (the empty path too). *)
Definition onlySlashes (s : string) : bool :=
  forallb (Ascii.eqb "/") (list_ascii_of_string s).

(** A change whose path has a segment to show. *)
Definition hasSegment (cwd : option string) (c : SandboxChangeEntry) : bool :=
  negb (onlySlashes (relPath cwd c)).

(** The folder path [toNodes] has reached after going down [names] from
    [prefix]. *)
Definition pathBelow (prefix : string) (names : list string) : string :=
  fold_left folderPathOf names prefix.

(** The command a click on a node runs: [sandbox.diff] on one pattern. *)
Definition diffOn (pattern : string) : Command :=
  {| cmd_title := "Diff"; cmd_command := "sandbox.diff";
     cmd_arguments := [[pattern]] |}.

End TreeProps.

(** ** For the diff helpers *)

Module ExtensionProps.
Import Js Cli Extension TreeProps.





Definition modified (destination : string) : SandboxChangeEntry :=
  entryFor destination "modify".

(** A glob pattern read from left to right: [**], [*], or one character
    standing for itself. *)
Inductive GlobToken : Type :=
| TLit (c : ascii)
| TStar
| TDoubleStar.

Fixpoint tokenize (glob : string) : list GlobToken :=
  match glob with
  | EmptyString => []
  | String c r =>
      if Ascii.eqb c "*" then
        match r with
        | String c2 r2 =>
            if Ascii.eqb c2 "*" then TDoubleStar :: tokenize r2
            else TStar :: tokenize r
        | EmptyString => TStar :: tokenize r
        end
      else TLit c :: tokenize r
  end.

(** What a restricted glob matches: [*] a run of characters other than
    ['/'], [**] a run of characters (line terminators apart, which [.]
    leaves out), any other character itself; the whole text is matched. *)
Inductive globMatches : list GlobToken -> list ascii -> Prop :=
| globMatches_nil : globMatches [] []
| globMatches_lit (c : ascii) (ts : list GlobToken) (s : list ascii) :
    globMatches ts s -> globMatches (TLit c :: ts) (c :: s)
| globMatches_star (run : list ascii) (ts : list GlobToken) (s : list ascii) :
    Forall (fun c => c <> "/"%char) run -> globMatches ts s ->
    globMatches (TStar :: ts) (run ++ s)
| globMatches_doubleStar (run : list ascii) (ts : list GlobToken) (s : list ascii) :
    Forall (fun c => isLineTerminator c = false) run -> globMatches ts s ->
    globMatches (TDoubleStar :: ts) (run ++ s).

(** A pattern without [?], which [globToRegex] leaves to the regular
    expression, and without [:], of which its placeholder for [**] is
    made. *)
Definition plainGlob (glob : string) : Prop :=
  Forall (fun c => c <> "?"%char /\ c <> ":"%char) (list_ascii_of_string glob).

(** Every literal character among the tokens satisfies [P]. *)
Definition literalsAre (P : ascii -> Prop) (ts : list GlobToken) : Prop :=
  Forall (fun t => match t with TLit c => P c | _ => True end) ts.

Definition termOf (t : GlobToken) : Term :=
  match t with
  | TLit c => (Literal c, Once)
  | TStar => (NotSlash, Star)
  | TDoubleStar => (AnyChar, Star)
  end.

(** The text a character stands for in the pattern source. *)
Definition escapedChar (c : ascii) : string :=
  if isEscaped c then String "\" (String c EmptyString) else String c EmptyString.

(** The text of a token after each of the three replacements of
    [globToRegex]. *)
Definition afterDoubleStars (t : GlobToken) : string :=
  match t with
  | TLit c => escapedChar c
  | TStar => "*"
  | TDoubleStar => "::DOUBLE_STAR::"
  end.

Definition afterStars (t : GlobToken) : string :=
  match t with
  | TLit c => escapedChar c
  | TStar => "[^/]*"
  | TDoubleStar => "::DOUBLE_STAR::"
  end.

Definition afterPlaceholders (t : GlobToken) : string :=
  match t with
  | TLit c => escapedChar c
  | TStar => "[^/]*"
  | TDoubleStar => ".*"
  end.

Definition written (text : GlobToken -> string) (ts : list GlobToken) : string :=
  fold_right (fun t acc => (text t ++ acc)%string) EmptyString ts.





Import CliProps.

(** A text that neither begins nor ends with white space. *)
Definition edgesNotWhite (s : string) : bool :=
  match list_ascii_of_string s with
  | [] => true
  | c :: r => (negb (isWhite c) && negb (isWhite (last r c)))%bool
  end.

(** A pattern as the input box hands it on: not empty, no white space
    around it, no comma in it. *)
Definition cleanPattern (p : string) : Prop :=
  p <> EmptyString /\ edgesNotWhite p = true /\ countChar "," p = 0.

(** A text of white space and commas only. *)
Definition onlySeparators (text : string) : bool :=
  forallb (fun c => (isWhite c || Ascii.eqb c ",")%bool) (list_ascii_of_string text).

(** A text of the characters [createTempEmptyFile] lets through. *)
Definition allSafe (s : string) : bool :=
  forallb isSafeChar (list_ascii_of_string s).

(** A text without line terminators, which [.] does not match. *)
Definition oneLine (s : string) : bool :=
  forallb (fun c => negb (isLineTerminator c)) (list_ascii_of_string s).

(** The destinations a pattern [folder/**] selects. *)
Definition isUnder (folder : string) (c : SandboxChangeEntry) : bool :=
  (startsWith (destination c) (folder ++ "/")
   && oneLine (substring_from (String.length folder + 1) (destination c)))%bool.

Definition hasDestination (d : string) (c : SandboxChangeEntry) : bool :=
  (destination c =? d)%string.





(** A child that writes on both streams and exits with [2]. *)
Definition failing : string -> list string -> option string -> ChildRun :=
  fun _ _ _ =>
    {| events := [StdoutData "diff "; StderrData "warn"; StdoutData "text"];
       closeCode := Some 2%Z |}.

End ExtensionProps.

(** * Properties *)

(** ** Strings and lists *)

Module JsFacts.
Import Js.

Lemma or_str_spec (a b : string) :
  or_str a b = if (a =? "")%string then b else a.
Proof.
  unfold or_str, truthy. destruct (a =? "")%string; reflexivity.
Qed.

Lemma truthy_true (s : string) : truthy s = true <-> s <> EmptyString.
Proof.
  unfold truthy. destruct (String.eqb_spec s ""); cbn; split; congruence.
Qed.

Lemma split_not_nil (sep : ascii) (s : string) : split sep s <> [].
Proof.
  destruct s as [|c r]; cbn; [discriminate|].
  destruct (Ascii.eqb c sep); [discriminate|].
  destruct (split sep r); discriminate.
Qed.

Lemma join_split (sep : ascii) (s : string) :
  join (String sep EmptyString) (split sep s) = s.
Proof.
  unfold join. induction s as [|c r IH]; cbn; [reflexivity|].
  pose proof (split_not_nil sep r) as Hne.
  destruct (Ascii.eqb_spec c sep) as [->|Hc].
  - destruct (split sep r) as [|h t]; [contradiction|].
    change (String.concat (String sep "") ("" :: h :: t))
      with (String sep (String.concat (String sep "") (h :: t))).
    now rewrite IH.
  - destruct (split sep r) as [|h t]; [contradiction|].
    destruct t as [|h' t'].
    + cbn in *. now rewrite IH.
    + change (String.concat (String sep "") (String c h :: h' :: t'))
        with (String c (String.concat (String sep "") (h :: h' :: t'))).
      now rewrite IH.
Qed.

Lemma prefix_app (p r : string) : String.prefix p (p ++ r) = true.
Proof.
  induction p as [|a p IH]; cbn; [now destruct r|].
  destruct (ascii_dec a a); [assumption|contradiction].
Qed.

Lemma substring_from_app (p r : string) :
  substring_from (String.length p) (p ++ r) = r.
Proof. induction p as [|a p IH]; cbn; [reflexivity|assumption]. Qed.

Lemma prefix_split (p s : string) :
  String.prefix p s = true -> s = (p ++ substring_from (String.length p) s)%string.
Proof.
  revert s. induction p as [|a p IH]; intros s; cbn; [reflexivity|].
  destruct s as [|b s]; [discriminate|]. cbn [String.prefix].
  destruct (ascii_dec a b) as [->|]; [|discriminate].
  intros H. f_equal. now apply IH.
Qed.

Lemma length_app (a b : string) :
  String.length (a ++ b) = String.length a + String.length b.
Proof. induction a; cbn; congruence. Qed.

Lemma prefix_head_ne (a c : ascii) (p r : string) :
  a <> c -> String.prefix (String a p) (String c r) = false.
Proof.
  intros H. cbn [String.prefix]. destruct (ascii_dec a c); [contradiction|reflexivity].
Qed.

Lemma prefix_empty (s : string) : String.prefix "" s = true.
Proof. destruct s; reflexivity. Qed.

Lemma chars_app (a b : string) :
  list_ascii_of_string (a ++ b) = list_ascii_of_string a ++ list_ascii_of_string b.
Proof. induction a as [|c a IH]; cbn; [reflexivity|now rewrite IH]. Qed.

Lemma replaceAll_from_skip (pat rep : string) (s : string) :
  forall k, replaceAll_from pat rep k s = replaceAll pat rep (substring_from k s).
Proof.
  induction s as [|c r IH]; intros k.
  - destruct k; reflexivity.
  - destruct k as [|k]; [reflexivity|]. cbn [replaceAll_from substring_from].
    apply IH.
Qed.

Lemma replaceAll_match (pat rep s : string) :
  pat <> EmptyString -> String.prefix pat s = true ->
  replaceAll pat rep s
  = (rep ++ replaceAll pat rep (substring_from (String.length pat) s))%string.
Proof.
  intros Hpat Hpre. destruct s as [|c r].
  - destruct pat; [contradiction|discriminate].
  - unfold replaceAll at 1. cbn [replaceAll_from]. rewrite Hpre.
    rewrite replaceAll_from_skip. destruct pat as [|a pat]; [contradiction|].
    replace (String.length (String a pat) - 1) with (String.length pat)
      by (cbn [String.length]; lia).
    reflexivity.
Qed.

Lemma replaceAll_no_match (pat rep : string) (c : ascii) (r : string) :
  String.prefix pat (String c r) = false ->
  replaceAll pat rep (String c r) = String c (replaceAll pat rep r).
Proof.
  intros Hpre. unfold replaceAll. cbn [replaceAll_from]. now rewrite Hpre.
Qed.

Lemma filter_none {A} (f : A -> bool) (l : list A) :
  (forall x, In x l -> f x = true -> False) -> filter f l = [].
Proof.
  induction l as [|a l IH]; cbn; [reflexivity|].
  intros H. destruct (f a) eqn:Ha.
  - exfalso. apply (H a); auto.
  - apply IH. intros x Hx. apply H. now right.
Qed.

Lemma filter_all {A} (f : A -> bool) (l : list A) :
  (forall x, In x l -> f x = true) -> filter f l = l.
Proof.
  induction l as [|a l IH]; cbn; [reflexivity|].
  intros H. rewrite (H a) by now left. f_equal. apply IH. auto.
Qed.

Lemma filter_disjoint_app {A} (p q : A -> bool) (l : list A) :
  (forall x, p x = true -> q x = true -> False) ->
  Permutation (filter p l ++ filter q l) (filter (fun x => p x || q x)%bool l).
Proof.
  intros Hd. induction l as [|a l IH]; cbn; [constructor|].
  destruct (p a) eqn:Hp, (q a) eqn:Hq; cbn.
  - destruct (Hd a Hp Hq).
  - now constructor.
  - rewrite <- Permutation_middle. now constructor.
  - exact IH.
Qed.

Lemma existsb_eqb_in (k : string) (l : list string) :
  existsb (String.eqb k) l = true <-> In k l.
Proof.
  rewrite existsb_exists. split.
  - intros (x & Hx & He). apply String.eqb_eq in He. now subst.
  - intros H. exists k. split; [assumption|apply String.eqb_refl].
Qed.

End JsFacts.

(** ** The CLI gateway *)

Module CliFacts.
Import Js Cli CliProps JsFacts.

Lemma throws_discard (r : result ExecResult) : throws (discard r) = throws r.
Proof. destruct r; reflexivity. Qed.

Section Gateway.
Variable spawn : string -> list string -> option string -> ChildRun.
Variable JSON_parse : string -> option json.
Variable cfg : Settings.

Let bin := getBinaryPath cfg.
Let base := buildBaseArgs cfg.

Lemma execFile_code (b : string) (args : list string) (cwd : option string) :
  code (execFile spawn b args cwd)
  = match closeCode (spawn b args cwd) with Some c => c | None => 0%Z end.
Proof. reflexivity. Qed.

Lemma checked_spec (b : string) (args : list string) (cwd : option string) :
  exitCodeChecked (discard (checked spawn b args cwd)) (spawn b args cwd)
                  (execFile spawn b args cwd).
Proof.
  unfold exitCodeChecked, checked. rewrite execFile_code.
  destruct (closeCode (spawn b args cwd)) as [c|] eqn:Hc;
    [destruct (Z.eqb_spec c 0) as [->|Hne]|]; cbn.
  - split; [split|split].
    + discriminate.
    + intros (n & Hn & Hnz). injection Hn as <-. contradiction.
    + discriminate.
    + reflexivity.
  - split; [split|split].
    + intros _. exists c. split; [reflexivity|assumption].
    + reflexivity.
    + intros m Hm. injection Hm as <-. apply or_str_spec.
    + intros H0. injection H0 as ->. contradiction.
  - split; [split|split].
    + discriminate.
    + intros (n & Hn & _). discriminate.
    + discriminate.
    + discriminate.
Qed.

(** C8: each of [runAccept], [runReject], [runSync], [runStop] and
    [runDelete] throws exactly when the child it spawned closed with a
    non-zero exit code; the message thrown is the captured stderr when
    that is not empty and the captured stdout otherwise; on exit code 0
    the call returns, whatever was written. *)
Theorem mutating_calls_check_exit_code
    (patterns : list string) (cwd : option string) :
  exitCodeChecked (runAccept spawn cfg patterns cwd)
    (spawn bin (base ++ "accept" :: patterns) cwd)
    (execFile spawn bin (base ++ "accept" :: patterns) cwd)
  /\ exitCodeChecked (runReject spawn cfg patterns cwd)
       (spawn bin (base ++ "reject" :: patterns) cwd)
       (execFile spawn bin (base ++ "reject" :: patterns) cwd)
  /\ exitCodeChecked (runSync spawn cfg cwd)
       (spawn bin (base ++ ["sync"]) cwd)
       (execFile spawn bin (base ++ ["sync"]) cwd)
  /\ exitCodeChecked (runStop spawn cfg cwd)
       (spawn bin (base ++ ["stop"]) cwd)
       (execFile spawn bin (base ++ ["stop"]) cwd)
  /\ exitCodeChecked (runDelete spawn cfg cwd)
       (spawn bin (base ++ ["delete"; "-y"]) cwd)
       (execFile spawn bin (base ++ ["delete"; "-y"]) cwd).
Proof.
  unfold runAccept, runReject, runSync, runStop, runDelete.
  repeat split; apply checked_spec.
Qed.

Lemma checked_null_code (b : string) (args : list string) (cwd : option string) :
  closeCode (spawn b args cwd) = None ->
  checked spawn b args cwd = Ok (execFile spawn b args cwd).
Proof.
  intros H. unfold checked. rewrite execFile_code, H. reflexivity.
Qed.

(** C9: when the [close] event of the child carries [null] instead of an
    exit code, [execFile] reports code 0, so [runAccept], [runReject],
    [runDiff], [runSync], [runStop] and [runDelete] return without
    throwing, and [spawnDiffStream] ends by calling its close handler
    with 0. *)
Theorem null_exit_code_counts_as_success
    (patterns : list string) (h : Handlers) (cwd : option string)
    (Hnull : forall args, closeCode (spawn bin (base ++ args) cwd) = None) :
  (forall args, code (execFile spawn bin (base ++ args) cwd) = 0%Z)
  /\ runAccept spawn cfg patterns cwd = Ok tt
  /\ runReject spawn cfg patterns cwd = Ok tt
  /\ runDiff spawn cfg patterns cwd
     = Ok (stdout (execFile spawn bin (base ++ "diff" :: patterns) cwd))
  /\ runSync spawn cfg cwd = Ok tt
  /\ runStop spawn cfg cwd = Ok tt
  /\ runDelete spawn cfg cwd = Ok tt
  /\ (onClose h = true ->
      spawnDiffStream spawn cfg patterns h cwd
      = flat_map (onEvent h) (events (spawn bin (base ++ "diff" :: patterns) cwd))
        ++ [OnClose 0%Z]).
Proof.
  unfold runAccept, runReject, runDiff, runSync, runStop, runDelete.
  fold bin base.
  repeat split.
  - intros args. rewrite execFile_code, Hnull. reflexivity.
  - now rewrite checked_null_code.
  - now rewrite checked_null_code.
  - now rewrite checked_null_code.
  - now rewrite checked_null_code.
  - now rewrite checked_null_code.
  - now rewrite checked_null_code.
  - intros Hc. unfold spawnDiffStream. fold bin base.
    rewrite Hc, Hnull. reflexivity.
Qed.

Lemma getProp_throws (v : json) (k : string) :
  getProp v k = None <-> v = JNull.
Proof.
  destruct v; cbn; split; intros H; try discriminate; reflexivity.
Qed.

Lemma fetchStatus_cases (cwd : option string) :
  let res := execFile spawn bin (base ++ ["status"; "--json"]) cwd in
  fetchStatus spawn JSON_parse cfg cwd
  = match JSON_parse (stdout res) with
    | None | Some JNull =>
        Throw ("Failed to parse sandbox status JSON: "
               ++ (if (stderr res =? "")%string then stdout res else stderr res))%string
    | Some v =>
        match getProp v "changes" with
        | Some (Some ch) => Ok (match ch with JNull => JArr [] | _ => ch end)
        | _ => Ok (JArr [])
        end
    end.
Proof.
  cbv zeta. unfold fetchStatus. fold bin base. rewrite or_str_spec.
  destruct (JSON_parse _) as [v|]; [|reflexivity].
  destruct v; try reflexivity.
  cbn. destruct (map_get "changes" members) as [[]|]; reflexivity.
Qed.

Lemma fetchConfig_cases (cwd : option string) :
  let res := execFile spawn bin
               (base ++ ["config"; "--json"; "name"; "storage_dir";
                         "upper_cwd"; "overlay_cwd"]) cwd in
  fetchConfig spawn JSON_parse cfg cwd
  = match JSON_parse (stdout res) with
    | None | Some JNull =>
        Throw ("Failed to parse sandbox config JSON: "
               ++ (if (stderr res =? "")%string then stdout res else stderr res))%string
    | Some (JObj members) =>
        Ok {| cfg_name := map_get "name" members;
              cfg_storage_dir := map_get "storage_dir" members;
              cfg_upper_cwd := map_get "upper_cwd" members;
              cfg_overlay_cwd := map_get "overlay_cwd" members |}
    | Some _ =>
        Ok {| cfg_name := None; cfg_storage_dir := None;
              cfg_upper_cwd := None; cfg_overlay_cwd := None |}
    end.
Proof.
  cbv zeta. unfold fetchConfig. fold bin base. rewrite or_str_spec.
  destruct (JSON_parse _) as [v|]; [|reflexivity].
  destruct v; reflexivity.
Qed.

(** C7, amended: [fetchStatus] and [fetchConfig] throw exactly when the
    captured stdout is not valid JSON or is the JSON text of [null]; the
    message ends with the captured stderr, or with stdout when stderr is
    empty; the exit code of the child plays no role.  [fetchStatus]
    returns the empty list when the parsed value (not [null]) has no
    [changes] member or a [null] one, and returns any other [changes]
    member as it is. *)
Theorem fetch_calls_check_only_the_parse (cwd : option string) :
  let resS := execFile spawn bin (base ++ ["status"; "--json"]) cwd in
  let resC := execFile spawn bin
                (base ++ ["config"; "--json"; "name"; "storage_dir";
                          "upper_cwd"; "overlay_cwd"]) cwd in
  (throws (fetchStatus spawn JSON_parse cfg cwd) = true
   <-> JSON_parse (stdout resS) = None \/ JSON_parse (stdout resS) = Some JNull)
  /\ (throws (fetchConfig spawn JSON_parse cfg cwd) = true
      <-> JSON_parse (stdout resC) = None \/ JSON_parse (stdout resC) = Some JNull)
  /\ (forall m, fetchStatus spawn JSON_parse cfg cwd = Throw m ->
        m = ("Failed to parse sandbox status JSON: "
             ++ (if (stderr resS =? "")%string then stdout resS else stderr resS))%string)
  /\ (forall m, fetchConfig spawn JSON_parse cfg cwd = Throw m ->
        m = ("Failed to parse sandbox config JSON: "
             ++ (if (stderr resC =? "")%string then stdout resC else stderr resC))%string)
  /\ (forall c,
        fetchStatus (closingWith c spawn) JSON_parse cfg cwd
        = fetchStatus spawn JSON_parse cfg cwd
        /\ fetchConfig (closingWith c spawn) JSON_parse cfg cwd
           = fetchConfig spawn JSON_parse cfg cwd)
  /\ (forall v, JSON_parse (stdout resS) = Some v -> v <> JNull ->
        getProp v "changes" = Some None \/ getProp v "changes" = Some (Some JNull) ->
        fetchStatus spawn JSON_parse cfg cwd = Ok (JArr []))
  /\ (forall v ch, JSON_parse (stdout resS) = Some v ->
        getProp v "changes" = Some (Some ch) -> ch <> JNull ->
        fetchStatus spawn JSON_parse cfg cwd = Ok ch).
Proof.
  cbv zeta.
  pose proof (fetchStatus_cases cwd) as HS.
  pose proof (fetchConfig_cases cwd) as HC.
  cbv zeta in HS, HC.
  repeat apply conj.
  - rewrite HS; clear HS HC. destruct (JSON_parse _) as [v|]; [|intuition].
    destruct v; cbn; try (destruct (map_get _ _) as [[]|]); cbn;
      intuition discriminate.
  - rewrite HS; clear HS HC. destruct (JSON_parse _) as [v|]; [|intuition].
    destruct v; cbn; try (destruct (map_get _ _) as [[]|]); cbn;
      intuition discriminate.
  - rewrite HC; clear HS HC. destruct (JSON_parse _) as [v|]; [|intuition].
    destruct v; cbn; intuition discriminate.
  - rewrite HC; clear HS HC. destruct (JSON_parse _) as [v|]; [|intuition].
    destruct v; cbn; intuition discriminate.
  - intros m. rewrite HS; clear HS HC. destruct (JSON_parse _) as [v|].
    + destruct v; cbn; try (destruct (map_get _ _) as [[]|]);
        try discriminate; intros [= <-]; reflexivity.
    + intros [= <-]; reflexivity.
  - intros m. rewrite HC; clear HS HC. destruct (JSON_parse _) as [v|].
    + destruct v; try discriminate; intros [= <-]; reflexivity.
    + intros [= <-]; reflexivity.
  - intros c. split; reflexivity.
  - intros v Hv Hn Hch. rewrite HS, Hv.
    destruct v; try contradiction; try reflexivity;
      destruct Hch as [Hch | Hch]; try discriminate; rewrite Hch; reflexivity.
  - intros v ch Hv Hch Hn. rewrite HS, Hv.
    destruct v; try discriminate. rewrite Hch.
    destruct ch; try contradiction; reflexivity.
Qed.

End Gateway.

Lemma null_exit_code_witness :
  runAccept killedBySignal defaultSettings ["x.txt"] (Some "/w") = Ok tt
  /\ runDiff killedBySignal defaultSettings ["x.txt"] (Some "/w") = Ok "partial"
  /\ spawnDiffStream killedBySignal defaultSettings ["x.txt"] allHandlers (Some "/w")
     = [OnStdout "partial"; OnStderr "Terminated"; OnClose 0%Z].
Proof.
  pose proof (null_exit_code_counts_as_success killedBySignal defaultSettings
                ["x.txt"] allHandlers (Some "/w") (fun _ => eq_refl))
    as (_ & Ha & _ & Hd & _ & _ & _ & Hs).
  split; [exact Ha|]. split; [exact Hd|]. apply Hs. reflexivity.
Defined.

(** C7 as stated fails: the text [null] is valid JSON and both calls throw
    on it, and a [changes] member that is not an array is returned, not
    replaced by the empty list. *)
Lemma fetch_throws_on_json_null :
  parsesTo "null" JNull "null" = Some JNull
  /\ fetchStatus (printing "null" 0) (parsesTo "null" JNull) defaultSettings None
     = Throw "Failed to parse sandbox status JSON: null"
  /\ fetchConfig (printing "null" 0) (parsesTo "null" JNull) defaultSettings None
     = Throw "Failed to parse sandbox config JSON: null"
  /\ fetchStatus (printing changesFiveText 0)
       (parsesTo changesFiveText (JObj [("changes", JNum "5")])) defaultSettings None
     = Ok (JNum "5").
Proof. repeat split. Qed.

End CliFacts.

(** ** [Map] as an association list *)

Module MapFacts.
Import Js JsFacts.

Section Maps.
Context {V : Type}.
Implicit Types (m : Map V) (k : string) (v : V).

Lemma map_has_in k m : map_has k m = true <-> In k (map fst m).
Proof.
  induction m as [|[k' v'] m IH]; cbn.
  - split; [discriminate|tauto].
  - destruct (String.eqb_spec k' k) as [->|Hne].
    + split; auto.
    + rewrite IH. split; [auto|]. intros [H|H]; [contradiction|assumption].
Qed.

Lemma map_has_get k m : map_has k m = false <-> map_get k m = None.
Proof.
  induction m as [|[k' v'] m IH]; cbn.
  - tauto.
  - destruct (k' =? k)%string; [split; discriminate|exact IH].
Qed.

Lemma map_set_absent k v m : map_has k m = false -> map_set k v m = m ++ [(k, v)].
Proof.
  induction m as [|[k' v'] m IH]; cbn; [reflexivity|].
  destruct (k' =? k)%string; [discriminate|].
  intros H. now rewrite IH.
Qed.

Lemma map_get_set k v m : map_get k (map_set k v m) = Some v.
Proof.
  induction m as [|[k' v'] m IH]; cbn.
  - now rewrite String.eqb_refl.
  - destruct (String.eqb_spec k' k) as [->|Hne]; cbn.
    + now rewrite String.eqb_refl.
    + destruct (String.eqb_spec k' k); [contradiction|exact IH].
Qed.

Lemma map_get_set_other k k' v m :
  k' <> k -> map_get k' (map_set k v m) = map_get k' m.
Proof.
  intros Hne. induction m as [|[k0 v0] m IH]; cbn.
  - destruct (String.eqb_spec k k'); [congruence|reflexivity].
  - destruct (String.eqb_spec k0 k) as [->|Hk]; cbn.
    + destruct (String.eqb_spec k k'); [congruence|reflexivity].
    + destruct (k0 =? k')%string; [reflexivity|exact IH].
Qed.

Lemma map_set_keys k v m :
  map fst (map_set k v m)
  = if map_has k m then map fst m else map fst m ++ [k].
Proof.
  induction m as [|[k' v'] m IH]; cbn; [reflexivity|].
  destruct (String.eqb_spec k' k) as [->|Hne]; cbn; [reflexivity|].
  rewrite IH. destruct (map_has k m); reflexivity.
Qed.

Lemma in_map_set k v m e :
  In e (map_set k v m) -> e = (k, v) \/ (In e m /\ (NoDup (map fst m) -> fst e <> k)).
Proof.
  induction m as [|[k' v'] m IH]; cbn.
  - intros [<-|[]]. now left.
  - destruct (String.eqb_spec k' k) as [->|Hne]; cbn.
    + intros [<-|H]; [now left|]. right. split; [now right|].
      intros Hnd <-. inversion Hnd as [|? ? Hni _]; subst.
      apply Hni. now apply in_map.
    + intros [<-|H].
      * right. split; [now left|]. intros _. exact Hne.
      * destruct (IH H) as [->|[Hin Hk]]; [now left|].
        right. split; [now right|]. intros Hnd. apply Hk.
        now inversion Hnd.
Qed.

Lemma map_get_in k v m : map_get k m = Some v -> In (k, v) m.
Proof.
  induction m as [|[k' v'] m IH]; cbn; [discriminate|].
  destruct (String.eqb_spec k' k) as [->|Hne].
  - intros [= ->]. now left.
  - intros H. right. auto.
Qed.

Lemma in_map_get k v m : NoDup (map fst m) -> In (k, v) m -> map_get k m = Some v.
Proof.
  induction m as [|[k' v'] m IH]; cbn; [tauto|].
  intros Hnd [[= -> ->]|Hin].
  - now rewrite String.eqb_refl.
  - inversion Hnd as [|? ? Hni Hnd']; subst.
    destruct (String.eqb_spec k' k) as [->|Hne]; [|auto].
    exfalso. apply Hni. change k with (fst (k, v)). now apply in_map.
Qed.

Lemma map_set_NoDup k v m : NoDup (map fst m) -> NoDup (map fst (map_set k v m)).
Proof.
  intros Hnd. rewrite map_set_keys.
  destruct (map_has k m) eqn:Hh; [assumption|].
  apply NoDup_app; [assumption|repeat constructor; intros []|].
  intros x Hx [<-|[]]. apply map_has_in in Hx. congruence.
Qed.

End Maps.

End MapFacts.

(** ** Grouping by operation *)

Module GroupFacts.
Import Js Cli Tree TreeProps JsFacts MapFacts.

Lemma firstSeen_in (k : string) (l : list string) : In k (firstSeen l) <-> In k l.
Proof.
  induction l as [|x r IH]; cbn; [tauto|].
  rewrite filter_In, IH.
  destruct (String.eqb_spec k x) as [->|Hne]; cbn.
  - split; auto.
  - split; [intros [H|[H _]]; auto|intros [H|H]; auto].
Qed.

Lemma firstSeen_NoDup (l : list string) : NoDup (firstSeen l).
Proof.
  induction l as [|x r IH]; cbn; constructor.
  - rewrite filter_In. intros [_ H]. now rewrite String.eqb_refl in H.
  - now apply NoDup_filter.
Qed.

Lemma firstSeen_snoc (l : list string) (k : string) :
  firstSeen (l ++ [k])
  = if existsb (String.eqb k) l then firstSeen l else firstSeen l ++ [k].
Proof.
  induction l as [|x r IH]; cbn; [reflexivity|].
  rewrite IH. destruct (String.eqb_spec k x) as [->|Hne]; cbn.
  - destruct (existsb (String.eqb x) r); [reflexivity|].
    rewrite filter_app. cbn. rewrite String.eqb_refl. cbn.
    now rewrite app_nil_r.
  - destruct (existsb (String.eqb k) r); [reflexivity|].
    rewrite filter_app. cbn.
    destruct (String.eqb_spec k x); [contradiction|reflexivity].
Qed.

Section Keyed.
Context {V : Type} (g : string -> V).

Let keyed (ks : list string) : Map V := map (fun k => (k, g k)) ks.

Lemma keyed_keys (ks : list string) : map fst (keyed ks) = ks.
Proof.
  unfold keyed. rewrite map_map. cbn. apply map_id.
Qed.

Lemma keyed_get (k : string) (ks : list string) :
  In k ks -> map_get k (keyed ks) = Some (g k).
Proof.
  induction ks as [|x r IH]; cbn; [tauto|].
  destruct (String.eqb_spec x k) as [->|Hne]; [reflexivity|].
  intros [H|H]; [contradiction|auto].
Qed.

Lemma keyed_set (k : string) (v : V) (ks : list string) :
  NoDup ks -> In k ks ->
  map_set k v (keyed ks)
  = map (fun k' => (k', if (k' =? k)%string then v else g k')) ks.
Proof.
  induction ks as [|x r IH]; cbn; [tauto|].
  intros Hnd Hin. inversion Hnd as [|? ? Hni Hnd']; subst.
  destruct (String.eqb_spec x k) as [->|Hne].
  - f_equal. apply map_ext_in. intros a Ha.
    destruct (String.eqb_spec a k) as [->|]; [contradiction|reflexivity].
  - f_equal. destruct Hin as [H|H]; [contradiction|]. now apply IH.
Qed.

End Keyed.

Lemma groupStep_groupsOf (cs : list SandboxChangeEntry) (c : SandboxChangeEntry) :
  groupStep (groupsOf cs) c = groupsOf (cs ++ [c]).
Proof.
  unfold groupStep, groupsOf.
  pose (g := fun key => filter (hasOperation key) cs).
  set (ks := firstSeen (map operation cs)).
  change (map (fun key => (key, filter (hasOperation key) cs)) ks)
    with (map (fun key => (key, g key)) ks).
  rewrite map_app. cbn [map]. rewrite firstSeen_snoc. fold ks.
  assert (Hks : forall k, In k ks <-> In k (map operation cs))
    by (intros k; apply firstSeen_in).
  assert (Hstep : forall k, filter (hasOperation k) (cs ++ [c])
                            = g k ++ (if (operation c =? k)%string then [c] else [])).
  { intros k. rewrite filter_app. cbn. unfold hasOperation at 2.
    destruct (operation c =? k)%string; reflexivity. }
  destruct (map_has (operation c) (map (fun key => (key, g key)) ks)) eqn:Hh.
  - pose proof Hh as Hin. apply map_has_in in Hin. rewrite keyed_keys in Hin.
    rewrite keyed_get by assumption.
    rewrite keyed_set by (first [apply firstSeen_NoDup | assumption]).
    replace (existsb (String.eqb (operation c)) (map operation cs)) with true
      by (symmetry; apply existsb_eqb_in, Hks, Hin).
    apply map_ext. intros k. rewrite Hstep. f_equal.
    rewrite String.eqb_sym.
    destruct (String.eqb_spec (operation c) k) as [<-|Hne]; [reflexivity|].
    now rewrite app_nil_r.
  - assert (Hni : ~ In (operation c) ks).
    { intros Hin. rewrite <- (keyed_keys g ks) in Hin.
      apply map_has_in in Hin. congruence. }
    rewrite map_set_absent by assumption.
    rewrite map_has_get in Hh.
    assert (Hg : map_get (operation c)
                   (map (fun key => (key, g key)) ks ++ [(operation c, [])])
                 = Some []).
    { rewrite <- (map_set_absent (operation c) [])
        by (now apply map_has_get).
      apply map_get_set. }
    rewrite Hg.
    replace (existsb (String.eqb (operation c)) (map operation cs)) with false.
    2:{ symmetry. apply not_true_is_false. rewrite existsb_eqb_in, <- Hks.
        exact Hni. }
    rewrite <- (map_set_absent (operation c) []) by (now apply map_has_get).
    assert (Hset : forall (m : Map (list SandboxChangeEntry)) k v w,
               map_set k w (map_set k v m) = map_set k w m).
    { intros m k v w. induction m as [|[k' v'] m IH]; cbn.
      - now rewrite String.eqb_refl.
      - destruct (String.eqb_spec k' k) as [->|Hne]; cbn.
        + now rewrite String.eqb_refl.
        + destruct (String.eqb_spec k' k); [contradiction|now rewrite IH]. }
    rewrite Hset, map_set_absent by (now apply map_has_get).
    rewrite map_app. cbn. f_equal.
    + apply map_ext_in. intros k Hk. rewrite Hstep.
      destruct (String.eqb_spec (operation c) k) as [<-|Hne]; [contradiction|].
      now rewrite app_nil_r.
    + rewrite Hstep, String.eqb_refl. f_equal. f_equal.
      unfold g. rewrite filter_none; [reflexivity|].
      intros x Hx Hop. apply Hni, Hks. apply String.eqb_eq in Hop.
      rewrite <- Hop. now apply in_map.
Qed.

Lemma groupByOperation_groupsOf (changes : list SandboxChangeEntry) :
  groupByOperation changes = groupsOf changes.
Proof.
  unfold groupByOperation.
  induction changes as [|c cs IH] using rev_ind; [reflexivity|].
  rewrite fold_left_app. cbn. rewrite IH. apply groupStep_groupsOf.
Qed.

Lemma groups_concat (cs : list SandboxChangeEntry) (ks : list string) :
  NoDup ks ->
  Permutation (concat (map (fun k => filter (hasOperation k) cs) ks))
              (filter (fun c => existsb (String.eqb (operation c)) ks) cs).
Proof.
  induction 1 as [|k r Hni Hnd IH]; cbn.
  - rewrite filter_none; [constructor|]. discriminate.
  - rewrite IH.
    rewrite (filter_ext (fun c => (operation c =? k)%string
                                  || existsb (String.eqb (operation c)) r)%bool
                        (fun c => hasOperation k c
                                  || existsb (String.eqb (operation c)) r)%bool)
      by reflexivity.
    apply filter_disjoint_app.
    intros x Hp Hq. apply String.eqb_eq in Hp. apply existsb_eqb_in in Hq.
    rewrite Hp in Hq. contradiction.
Qed.

(** C3: in the map made by [groupByOperation] every entry stored under a
    key has that key as its operation; the groups together hold the
    entries of the input, none dropped or repeated; each group keeps the
    input order (it is the sublist of the entries of its operation); the
    keys are the operation strings in first-seen order, whatever the
    strings are, so every entry is found under its own operation. *)
Theorem groupByOperation_partitions (changes : list SandboxChangeEntry) :
  let groups := groupByOperation changes in
  (forall key entries c,
      In (key, entries) groups -> In c entries -> operation c = key)
  /\ Permutation (concat (map snd groups)) changes
  /\ (forall key entries,
        In (key, entries) groups ->
        entries = filter (fun c => (operation c =? key)%string) changes)
  /\ map fst groups = firstSeen (map operation changes)
  /\ NoDup (map fst groups)
  /\ (forall c, In c changes ->
        exists entries,
          map_get (operation c) groups = Some entries /\ In c entries).
Proof.
  cbv zeta. rewrite groupByOperation_groupsOf.
  assert (Hkeys : map fst (groupsOf changes) = firstSeen (map operation changes)).
  { unfold groupsOf. rewrite map_map. cbn. apply map_id. }
  assert (Hin : forall key entries,
             In (key, entries) (groupsOf changes) ->
             entries = filter (hasOperation key) changes).
  { unfold groupsOf. intros key entries H. apply in_map_iff in H.
    destruct H as (k & [= -> <-] & _). reflexivity. }
  repeat apply conj.
  - intros key entries c H Hc. rewrite (Hin _ _ H) in Hc.
    apply filter_In in Hc. destruct Hc as [_ Hc]. now apply String.eqb_eq.
  - unfold groupsOf. rewrite map_map. cbn [snd].
    rewrite groups_concat by apply firstSeen_NoDup.
    rewrite filter_all; [reflexivity|].
    intros c Hc. apply existsb_eqb_in, firstSeen_in. now apply in_map.
  - exact Hin.
  - exact Hkeys.
  - rewrite Hkeys. apply firstSeen_NoDup.
  - intros c Hc. exists (filter (hasOperation (operation c)) changes). split.
    + unfold groupsOf.
      apply (keyed_get (fun key => filter (hasOperation key) changes)).
      apply firstSeen_in. now apply in_map.
    + apply filter_In. split; [assumption|]. apply String.eqb_refl.
Qed.

End GroupFacts.

(** ** The directory hierarchy *)

Module HierarchyFacts.
Import Js Cli Tree TreeProps JsFacts MapFacts.

Lemma leafAt_nil (path : list string) (c : SandboxChangeEntry) : ~ leafAt path c [].
Proof. intros H. inversion H; subst; contradiction. Qed.

Lemma leafAt_map_set (k : string) (t : DirTree) (m : Map DirTree)
    (path : list string) (c : SandboxChangeEntry) :
  leafAt path c (map_set k t m) ->
  (path = [k] /\ t = Leaf c)
  \/ (exists sub rest, t = Dir sub /\ path = k :: rest /\ leafAt rest c sub)
  \/ leafAt path c m.
Proof.
  intros H. inversion H as [name c0 m0 Hin|name sub rest c0 m0 Hin Hsub]; subst.
  - apply in_map_set in Hin. destruct Hin as [[= -> <-]|[Hin _]].
    + left. split; reflexivity.
    + right; right. now constructor.
  - apply in_map_set in Hin. destruct Hin as [[= -> <-]|[Hin _]].
    + right; left. exists sub, rest. repeat split. assumption.
    + right; right. econstructor; eassumption.
Qed.

Lemma leafAt_ensured (part : string) (m : Map DirTree)
    (path : list string) (c : SandboxChangeEntry) :
  leafAt path c (ensured part m) -> leafAt path c m.
Proof.
  unfold ensured. destruct (map_has part m); [tauto|].
  intros H. apply leafAt_map_set in H.
  destruct H as [[_ [=]]|[(sub & rest & [= <-] & _ & H)|H]].
  - now apply leafAt_nil in H.
  - assumption.
Qed.

Lemma insertParts_last (part : string) (c : SandboxChangeEntry)
    (cursor : Map DirTree) :
  insertParts [part] c cursor = map_set part (Leaf c) (ensured part cursor).
Proof. reflexivity. Qed.

Lemma insertParts_more (part : string) (rest : list string)
    (c : SandboxChangeEntry) (cursor : Map DirTree) :
  rest <> [] ->
  insertParts (part :: rest) c cursor
  = map_set part
      (Dir (insertParts rest c
              match map_get part (ensured part cursor) with
              | Some (Dir next) => next
              | _ => []
              end))
      (ensured part cursor).
Proof.
  destruct rest as [|r0 rs]; [contradiction|]. intros _.
  change (insertParts (part :: r0 :: rs) c cursor)
    with (match map_get part (ensured part cursor) with
          | Some (Dir next) =>
              map_set part (Dir (insertParts (r0 :: rs) c next)) (ensured part cursor)
          | _ => map_set part (Dir (insertParts (r0 :: rs) c [])) (ensured part cursor)
          end).
  destruct (map_get part (ensured part cursor)) as [[|]|]; reflexivity.
Qed.

(** A leaf of the map after one insertion is the inserted one, at the
    inserted path, or was there before. *)
Lemma insertParts_leafAt (parts : list string) (c : SandboxChangeEntry) :
  forall (m : Map DirTree) (path : list string) (c' : SandboxChangeEntry),
    leafAt path c' (insertParts parts c m) ->
    (path = parts /\ c' = c) \/ leafAt path c' m.
Proof.
  induction parts as [|part rest IH]; intros m path c' H; [now right|].
  destruct (list_eq_dec string_dec rest []) as [->|Hne].
  - rewrite insertParts_last in H. apply leafAt_map_set in H.
    destruct H as [[-> [= ->]]|[(sub & rest & [=] & _)|H]].
    + now left.
    + right. eapply leafAt_ensured; eassumption.
  - rewrite insertParts_more in H by assumption.
    apply leafAt_map_set in H.
    destruct H as [[_ [=]]|[(sub & path' & Hsub & -> & H)|H]].
    + injection Hsub as <-. apply IH in H. destruct H as [[-> ->]|H].
      * now left.
      * right. destruct (map_get part (ensured part m)) as [[c0|next]|] eqn:Hget;
          try (now apply leafAt_nil in H).
        apply leafAt_ensured with (part := part).
        econstructor; [|eassumption]. now apply map_get_in.
    + right. eapply leafAt_ensured; eassumption.
Qed.

Lemma buildRoot_leafAt (cwd : option string) (changes : list SandboxChangeEntry) :
  forall (m : Map DirTree) (path : list string) (c : SandboxChangeEntry),
    leafAt path c
      (fold_left (fun root c => insertParts (pathParts cwd c) c root) changes m) ->
    (In c changes /\ path = pathParts cwd c) \/ leafAt path c m.
Proof.
  induction changes as [|c0 cs IH]; intros m path c H; cbn in H; [now right|].
  apply IH in H. destruct H as [[Hin ->]|H].
  - left. split; [now right|reflexivity].
  - apply insertParts_leafAt in H. destruct H as [[-> ->]|H].
    + left. split; [now left|reflexivity].
    + now right.
Qed.

Lemma uniqueKeys_nil : uniqueKeys [].
Proof. constructor; [constructor|]. intros ? ? []. Qed.

Lemma uniqueKeys_map_set (k : string) (t : DirTree) (m : Map DirTree) :
  uniqueKeys m ->
  (forall sub, t = Dir sub -> uniqueKeys sub) ->
  uniqueKeys (map_set k t m).
Proof.
  intros [m' Hnd Hsub] Ht. constructor.
  - now apply map_set_NoDup.
  - intros name sub Hin. apply in_map_set in Hin.
    destruct Hin as [[= -> <-]|[Hin _]]; [now apply Ht|eauto].
Qed.

Lemma uniqueKeys_ensured (part : string) (m : Map DirTree) :
  uniqueKeys m -> uniqueKeys (ensured part m).
Proof.
  intros H. unfold ensured. destruct (map_has part m); [assumption|].
  apply uniqueKeys_map_set; [assumption|].
  intros sub [= <-]. apply uniqueKeys_nil.
Qed.

Lemma insertParts_uniqueKeys (parts : list string) (c : SandboxChangeEntry) :
  forall m : Map DirTree, uniqueKeys m -> uniqueKeys (insertParts parts c m).
Proof.
  induction parts as [|part rest IH]; intros m Hm; [assumption|].
  destruct (list_eq_dec string_dec rest []) as [->|Hne].
  - rewrite insertParts_last.
    apply uniqueKeys_map_set; [now apply uniqueKeys_ensured|discriminate].
  - rewrite insertParts_more by assumption.
    pose proof (uniqueKeys_ensured part m Hm) as He.
    apply uniqueKeys_map_set; [assumption|].
    intros sub [= <-]. apply IH.
    destruct (map_get part (ensured part m)) as [[c0|next]|] eqn:Hget;
      try apply uniqueKeys_nil.
    destruct He as [m' _ Hsub]. eapply Hsub. apply map_get_in. eassumption.
Qed.

Lemma buildRoot_uniqueKeys (changes : list SandboxChangeEntry) (cwd : option string) :
  uniqueKeys (buildRoot changes cwd).
Proof.
  unfold buildRoot. generalize uniqueKeys_nil. generalize (@nil (string * DirTree)).
  induction changes as [|c cs IH]; intros m Hm; cbn; [assumption|].
  apply IH. now apply insertParts_uniqueKeys.
Qed.

Lemma leafAt_unique (m : Map DirTree) (path : list string)
    (c c' : SandboxChangeEntry) :
  uniqueKeys m -> leafAt path c m -> leafAt path c' m -> c = c'.
Proof.
  intros Hu H. revert c' Hu.
  induction H as [name c m Hin|name sub path c m Hin Hsub IH]; intros c' Hu H';
    destruct Hu as [m Hnd Hu].
  - inversion H' as [? ? ? Hin'|? ? ? ? ? _ Hsub']; subst.
    + apply (in_map_get _ _ _ Hnd) in Hin. apply (in_map_get _ _ _ Hnd) in Hin'.
      congruence.
    + inversion Hsub'.
  - inversion H' as [? ? ? Hin'|? sub' ? ? ? Hin' Hsub']; subst.
    + inversion Hsub.
    + apply (in_map_get _ _ _ Hnd) in Hin. apply (in_map_get _ _ _ Hnd) in Hin'.
      assert (sub' = sub) as -> by congruence.
      apply IH; [eapply Hu; apply map_get_in; eassumption|assumption].
Qed.

(** The path shown for a change. *)

Lemma nonEmpty_true (s : string) : nonEmpty s = true <-> s <> EmptyString.
Proof.
  unfold nonEmpty. destruct s; cbn; split; congruence.
Qed.

(** [relPath] is the destination without [cwd + '/'] in front. *)
Lemma relPath_stripped (w rest : string) (c : SandboxChangeEntry) :
  w <> EmptyString -> destination c = (w ++ "/" ++ rest)%string ->
  relPath (Some w) c = rest.
Proof.
  intros Hw Hd. unfold relPath, startsWith.
  apply truthy_true in Hw. rewrite Hw. cbn [andb].
  assert (Hd' : destination c = ((w ++ "/") ++ rest)%string).
  { rewrite Hd. clear. induction w as [|a w IH]; [reflexivity|].
    cbn [String.append]. f_equal. exact IH. }
  rewrite Hd', prefix_app.
  replace (String.length w + 1) with (String.length (w ++ "/"))
    by (rewrite length_app; reflexivity).
  apply substring_from_app.
Qed.

Lemma relPath_kept (cwd : option string) (c : SandboxChangeEntry) :
  (forall w, cwd = Some w ->
             w = EmptyString \/ startsWith (destination c) (w ++ "/") = false) ->
  relPath cwd c = destination c.
Proof.
  intros H. unfold relPath. destruct cwd as [w|]; [|reflexivity].
  destruct (H w eq_refl) as [-> | ->]; [reflexivity|].
  now rewrite andb_false_r.
Qed.

(** C1 as stated fails: a destination outside [cwd] keeps its leading
    slash, and a doubled slash stays in the stripped path, but the empty
    segments are not keys, so the joined keys differ from the path. *)
Lemma joined_keys_drop_empty_segments :
  leafAt ["x"; "a.txt"] (entryFor "/x/a.txt" "modify")
    (buildRoot [entryFor "/x/a.txt" "modify"] (Some "/w"))
  /\ relPath (Some "/w") (entryFor "/x/a.txt" "modify") = "/x/a.txt"
  /\ join "/" ["x"; "a.txt"] = "x/a.txt"
  /\ join "/" ["x"; "a.txt"] <> relPath (Some "/w") (entryFor "/x/a.txt" "modify")
  /\ leafAt ["a"; "b"] (entryFor "/w/a//b" "modify")
       (buildRoot [entryFor "/w/a//b" "modify"] (Some "/w"))
  /\ relPath (Some "/w") (entryFor "/w/a//b" "modify") = "a//b"
  /\ join "/" ["a"; "b"] <> relPath (Some "/w") (entryFor "/w/a//b" "modify").
Proof.
  repeat apply conj; try reflexivity; try discriminate.
  - apply leafBelow with (sub := [("a.txt", Leaf (entryFor "/x/a.txt" "modify"))]).
    + left; reflexivity.
    + apply leafHere. left; reflexivity.
  - apply leafBelow with (sub := [("b", Leaf (entryFor "/w/a//b" "modify"))]).
    + left; reflexivity.
    + apply leafHere. left; reflexivity.
Qed.

(** Collisions between a leaf and an interior node. *)

Lemma map_get_has {V} (k : string) (v : V) (m : Map V) :
  map_get k m = Some v -> map_has k m = true.
Proof.
  intros H. destruct (map_has k m) eqn:Hh; [reflexivity|].
  apply map_has_get in Hh. congruence.
Qed.

Lemma ensured_present (part : string) (t : DirTree) (m : Map DirTree) :
  map_get part m = Some t -> ensured part m = m.
Proof.
  intros H. unfold ensured. now rewrite (map_get_has _ _ _ H).
Qed.

Lemma subtreeAt_last (name : string) (m : Map DirTree) :
  subtreeAt [name] m = map_get name m.
Proof. reflexivity. Qed.

Lemma subtreeAt_more (name : string) (rest : list string) (m : Map DirTree) :
  rest <> [] ->
  subtreeAt (name :: rest) m
  = match map_get name m with
    | Some (Dir sub) => subtreeAt rest sub
    | _ => None
    end.
Proof. destruct rest; [contradiction|reflexivity]. Qed.

(** After an insertion the inserted path ends at the inserted leaf,
    whatever was there. *)
Lemma subtreeAt_inserted (parts : list string) (c : SandboxChangeEntry) :
  forall m : Map DirTree,
    parts <> [] -> subtreeAt parts (insertParts parts c m) = Some (Leaf c).
Proof.
  induction parts as [|part rest IH]; intros m Hne; [contradiction|].
  destruct (list_eq_dec string_dec rest []) as [->|Hrest].
  - rewrite insertParts_last, subtreeAt_last. apply map_get_set.
  - rewrite insertParts_more, subtreeAt_more by assumption.
    rewrite map_get_set. now apply IH.
Qed.

(** An insertion that goes through a leaf puts a fresh interior node in
    its place. *)
Lemma subtreeAt_through_leaf (path rest : list string)
    (c c0 : SandboxChangeEntry) :
  forall m : Map DirTree,
    subtreeAt path m = Some (Leaf c0) -> rest <> [] ->
    subtreeAt path (insertParts (path ++ rest) c m)
    = Some (Dir (insertParts rest c [])).
Proof.
  induction path as [|part more IH]; intros m Hat Hrest; [discriminate|].
  destruct (list_eq_dec string_dec more []) as [->|Hmore].
  - rewrite subtreeAt_last in Hat. cbn [app].
    rewrite insertParts_more, subtreeAt_last by assumption.
    rewrite (ensured_present _ _ _ Hat), Hat. apply map_get_set.
  - rewrite subtreeAt_more in Hat by assumption.
    destruct (map_get part m) as [[c1|sub]|] eqn:Hget; try discriminate.
    assert (Hne : more ++ rest <> []) by (destruct more; [contradiction|discriminate]).
    change ((part :: more) ++ rest) with (part :: (more ++ rest)).
    rewrite insertParts_more, subtreeAt_more by assumption.
    rewrite (ensured_present _ _ _ Hget), Hget, map_get_set. now apply IH.
Qed.

Lemma leafAt_below_interior (path q : list string) (c : SandboxChangeEntry) :
  forall m : Map DirTree,
    uniqueKeys m -> path <> [] -> q <> [] -> leafAt (path ++ q) c m ->
    exists sub, subtreeAt path m = Some (Dir sub).
Proof.
  induction path as [|part more IH]; intros m Hu Hp Hq H; [contradiction|].
  destruct Hu as [m Hnd Hu].
  cbn [app] in H.
  inversion H as [? ? ? Hin Hpath|? sub ? ? ? Hin Hsub]; subst.
  - match goal with E : [] = more ++ q |- _ =>
      symmetry in E; apply app_eq_nil in E; destruct E
    end. contradiction.
  - apply (in_map_get _ _ _ Hnd) in Hin.
    destruct (list_eq_dec string_dec more []) as [->|Hmore].
    + exists sub. now rewrite subtreeAt_last.
    + rewrite subtreeAt_more, Hin by assumption.
      apply IH; try assumption. eapply Hu. apply map_get_in. eassumption.
Qed.

Lemma buildRoot_snoc (changes : list SandboxChangeEntry) (c : SandboxChangeEntry)
    (cwd : option string) :
  buildRoot (changes ++ [c]) cwd
  = insertParts (pathParts cwd c) c (buildRoot changes cwd).
Proof. unfold buildRoot. now rewrite fold_left_app. Qed.

(** C5: in [buildDirectoryHierarchy] the later insertion wins.  Where an
    interior node stands at the full path of a later entry, that entry's
    leaf takes its place and nothing is left below it; where a leaf stands
    on the way of a later entry, a fresh interior node takes its place,
    holding the later entry alone. *)
Theorem later_insertion_wins
    (changes : list SandboxChangeEntry) (cwd : option string)
    (c : SandboxChangeEntry) :
  let root := buildRoot changes cwd in
  let root' := buildRoot (changes ++ [c]) cwd in
  (forall path sub,
      subtreeAt path root = Some (Dir sub) -> pathParts cwd c = path ->
      subtreeAt path root' = Some (Leaf c)
      /\ (forall q c', q <> [] -> ~ leafAt (path ++ q) c' root'))
  /\ (forall path rest c0,
        subtreeAt path root = Some (Leaf c0) -> rest <> [] ->
        pathParts cwd c = path ++ rest ->
        subtreeAt path root' = Some (Dir (insertParts rest c []))
        /\ (forall q c', leafAt q c' (insertParts rest c []) -> q = rest /\ c' = c)).
Proof.
  cbv zeta. rewrite buildRoot_snoc. split.
  - intros path sub Hat Hparts. rewrite Hparts.
    assert (Hne : path <> []) by (destruct path; [discriminate Hat|discriminate]).
    pose proof (subtreeAt_inserted path c (buildRoot changes cwd) Hne) as Hnew.
    split; [exact Hnew|].
    intros q c' Hq Hleaf.
    apply leafAt_below_interior in Hleaf; try assumption.
    + destruct Hleaf as (sub' & Hsub'). congruence.
    + apply insertParts_uniqueKeys, buildRoot_uniqueKeys.
  - intros path rest c0 Hat Hrest Hparts. rewrite Hparts. split.
    + now apply subtreeAt_through_leaf with (c0 := c0).
    + intros q c' Hleaf. apply insertParts_leafAt in Hleaf.
      destruct Hleaf as [H|H]; [exact H|now apply leafAt_nil in H].
Qed.

Lemma later_insertion_wins_witness :
  subtreeAt ["b"]
    (buildRoot ([entryFor "/w/b/c.txt" "create"] ++ [entryFor "/w/b" "modify"])
               (Some "/w"))
  = Some (Leaf (entryFor "/w/b" "modify"))
  /\ subtreeAt ["b"]
       (buildRoot ([entryFor "/w/b" "modify"] ++ [entryFor "/w/b/c.txt" "create"])
                  (Some "/w"))
     = Some (Dir (insertParts ["c.txt"] (entryFor "/w/b/c.txt" "create") [])).
Proof.
  split.
  - apply (proj1 (later_insertion_wins [entryFor "/w/b/c.txt" "create"]
                    (Some "/w") (entryFor "/w/b" "modify")) ["b"]
                 [("c.txt", Leaf (entryFor "/w/b/c.txt" "create"))]);
      reflexivity.
  - apply (proj2 (later_insertion_wins [entryFor "/w/b" "modify"]
                    (Some "/w") (entryFor "/w/b/c.txt" "create")) ["b"] ["c.txt"]
                 (entryFor "/w/b" "modify"));
      [reflexivity|discriminate|reflexivity].
Defined.

(** Names of the hierarchy. *)

Lemma nameIn_nil (name : string) : ~ nameIn name [].
Proof. intros H. inversion H; subst; contradiction. Qed.

Lemma nameIn_map_set (k : string) (t : DirTree) (m : Map DirTree) (name : string) :
  nameIn name (map_set k t m) ->
  name = k \/ (exists sub, t = Dir sub /\ nameIn name sub) \/ nameIn name m.
Proof.
  intros H. inversion H as [? t0 ? Hin|key sub ? ? Hin Hsub]; subst.
  - apply in_map_set in Hin. destruct Hin as [[= -> _]|[Hin _]].
    + now left.
    + right; right. econstructor; eassumption.
  - apply in_map_set in Hin. destruct Hin as [[= -> <-]|[Hin _]].
    + right; left. now exists sub.
    + right; right. eapply nameBelow; eassumption.
Qed.

Lemma nameIn_ensured (part : string) (m : Map DirTree) (name : string) :
  nameIn name (ensured part m) -> name = part \/ nameIn name m.
Proof.
  unfold ensured. destruct (map_has part m); [now right|].
  intros H. apply nameIn_map_set in H.
  destruct H as [->|[(sub & [= <-] & H)|H]]; [now left| |now right].
  now apply nameIn_nil in H.
Qed.

Lemma insertParts_nameIn (parts : list string) (c : SandboxChangeEntry) :
  forall (m : Map DirTree) (name : string),
    nameIn name (insertParts parts c m) -> In name parts \/ nameIn name m.
Proof.
  induction parts as [|part rest IH]; intros m name H; [now right|].
  destruct (list_eq_dec string_dec rest []) as [->|Hne].
  - rewrite insertParts_last in H. apply nameIn_map_set in H.
    destruct H as [->|[(sub & [=] & _)|H]]; [left; now left|].
    apply nameIn_ensured in H. destruct H as [->|H]; [left; now left|now right].
  - rewrite insertParts_more in H by assumption. apply nameIn_map_set in H.
    destruct H as [->|[(sub & [= <-] & H)|H]]; [left; now left| |].
    + apply IH in H. destruct H as [H|H]; [left; now right|].
      destruct (map_get part (ensured part m)) as [[c0|next]|] eqn:Hget;
        try (now apply nameIn_nil in H).
      assert (Hin : nameIn name (ensured part m)).
      { eapply nameBelow; [apply map_get_in; eassumption|assumption]. }
      apply nameIn_ensured in Hin. destruct Hin as [->|Hin]; [left; now left|now right].
    + apply nameIn_ensured in H. destruct H as [->|H]; [left; now left|now right].
Qed.

Lemma buildRoot_nameIn (cwd : option string) (changes : list SandboxChangeEntry) :
  forall (m : Map DirTree) (name : string),
    nameIn name
      (fold_left (fun root c => insertParts (pathParts cwd c) c root) changes m) ->
    (exists c, In c changes /\ In name (pathParts cwd c)) \/ nameIn name m.
Proof.
  induction changes as [|c0 cs IH]; intros m name H; cbn in H; [now right|].
  apply IH in H. destruct H as [(c & Hin & Hname)|H].
  - left. exists c. split; [now right|assumption].
  - apply insertParts_nameIn in H. destruct H as [H|H]; [|now right].
    left. exists c0. split; [now left|assumption].
Qed.

Lemma leafAt_path_not_nil (path : list string) (c : SandboxChangeEntry)
    (m : Map DirTree) : leafAt path c m -> path <> [].
Proof. intros H. inversion H; discriminate. Qed.

Lemma pathParts_empty_destination (cwd : option string) (c : SandboxChangeEntry) :
  destination c = EmptyString -> pathParts cwd c = [].
Proof.
  intros Hd. unfold pathParts, relPath, startsWith. rewrite Hd.
  destruct cwd as [w|]; [|reflexivity].
  replace (String.prefix (w ++ "/") "") with false
    by (destruct w; reflexivity).
  rewrite andb_false_r. reflexivity.
Qed.

Lemma buildRoot_leaf_destination (changes : list SandboxChangeEntry)
    (cwd : option string) (path : list string) (c : SandboxChangeEntry) :
  leafAt path c (buildRoot changes cwd) -> destination c <> EmptyString.
Proof.
  intros H Hd. pose proof (leafAt_path_not_nil _ _ _ H) as Hne.
  apply buildRoot_leafAt in H.
  destruct H as [[_ Hpath]|H]; [|now apply leafAt_nil in H].
  rewrite Hpath, pathParts_empty_destination in Hne by assumption.
  now apply Hne.
Qed.

Lemma buildRoot_names (changes : list SandboxChangeEntry)
    (cwd : option string) (name : string) :
  nameIn name (buildRoot changes cwd) -> name <> EmptyString.
Proof.
  intros H. apply buildRoot_nameIn in H.
  destruct H as [(c & _ & Hname)|H]; [|now apply nameIn_nil in H].
  unfold pathParts in Hname. apply filter_In in Hname.
  now apply nonEmpty_true.
Qed.

End HierarchyFacts.

(** ** The rendered tree *)

Module RenderFacts.
Import Js Cli Tree TreeProps JsFacts MapFacts GroupFacts HierarchyFacts.

Section Render.
Variable localeCompare : string -> string -> Z.

Lemma insertEntry_perm {V} (x : string * V) (l : list (string * V)) :
  Permutation (insertEntry localeCompare x l) (x :: l).
Proof.
  induction l as [|y r IH]; cbn; [reflexivity|].
  destruct (localeCompare (fst x) (fst y) <=? 0)%Z; [reflexivity|].
  rewrite IH. apply perm_swap.
Qed.

Lemma sortEntries_perm {V} (l : list (string * V)) :
  Permutation (sortEntries localeCompare l) l.
Proof.
  induction l as [|x r IH]; cbn; [constructor|].
  rewrite insertEntry_perm. now constructor.
Qed.

Lemma insertEntry_values {V W} (f : string -> V -> W) (x : string * V)
    (l : list (string * V)) :
  insertEntry localeCompare (fst x, f (fst x) (snd x))
    (map (fun e => (fst e, f (fst e) (snd e))) l)
  = map (fun e => (fst e, f (fst e) (snd e))) (insertEntry localeCompare x l).
Proof.
  induction l as [|y l IH]; [reflexivity|].
  cbn [map insertEntry fst].
  destruct (localeCompare (fst x) (fst y) <=? 0)%Z; [reflexivity|].
  cbn [map]. now rewrite IH.
Qed.

(** The order depends on the keys alone: sorting commutes with any
    change of the values. *)
Lemma sortEntries_values {V W} (f : string -> V -> W) (l : list (string * V)) :
  sortEntries localeCompare (map (fun e => (fst e, f (fst e) (snd e))) l)
  = map (fun e => (fst e, f (fst e) (snd e))) (sortEntries localeCompare l).
Proof.
  unfold sortEntries.
  induction l as [|x r IH]; [reflexivity|].
  cbn [map fold_right]. rewrite IH. apply insertEntry_values.
Qed.

(** [toNodes] as the source has it: sort the entries of the map by name,
    then make the node of each. *)
Lemma toNodes_eq (tree : Map DirTree) (prefix : string) :
  toNodes localeCompare tree prefix
  = map (fun e => renderEntry localeCompare prefix (fst e) (snd e))
        (sortEntries localeCompare tree).
Proof.
  unfold toNodes.
  rewrite (sortEntries_values (renderEntry localeCompare prefix)), map_map.
  reflexivity.
Qed.

Lemma renderEntry_dir (prefix name : string) (sub : Map DirTree) :
  renderEntry localeCompare prefix name (Dir sub)
  = folderNode name (folderPathOf prefix name)
      (toNodes localeCompare sub (folderPathOf prefix name)).
Proof. reflexivity. Qed.

Lemma in_toNodes (n : SandboxNode) (tree : Map DirTree) (prefix : string) :
  In n (toNodes localeCompare tree prefix) ->
  exists name value,
    In (name, value) tree /\ n = renderEntry localeCompare prefix name value.
Proof.
  rewrite toNodes_eq. intros H. apply in_map_iff in H.
  destruct H as ([name value] & <- & Hin).
  exists name, value. split; [|reflexivity].
  eapply Permutation_in; [apply sortEntries_perm|exact Hin].
Qed.

Section Ordered.
(** A comparator that orders: any two names compare one way or the
    other, and transitively. *)
Hypothesis localeCompare_total :
  forall a b, (localeCompare a b <= 0)%Z \/ (localeCompare b a <= 0)%Z.
Hypothesis localeCompare_trans :
  forall a b c, (localeCompare a b <= 0)%Z -> (localeCompare b c <= 0)%Z ->
                (localeCompare a c <= 0)%Z.

Lemma insertEntry_sorted {V} (x : string * V) (l : list (string * V)) :
  StronglySorted (byName localeCompare) l ->
StronglySorted (byName localeCompare) (insertEntry localeCompare x l).
Proof.
  induction 1 as [|y r Hr IH Hy]; cbn; [repeat constructor|].
  destruct (Z.leb_spec (localeCompare (fst x) (fst y)) 0) as [Hle|Hgt].
  - constructor; [now constructor|]. constructor; [exact Hle|].
    eapply Forall_impl; [|exact Hy]. intros z Hz.
    unfold byName in *. eauto.
  - constructor; [exact IH|].
    eapply Permutation_Forall; [symmetry; apply insertEntry_perm|].
    constructor; [|exact Hy].
    unfold byName. destruct (localeCompare_total (fst x) (fst y)); [lia|assumption].
Qed.

Lemma sortEntries_sorted {V} (l : list (string * V)) :
  StronglySorted (byName localeCompare) (sortEntries localeCompare l).
Proof.
  induction l as [|x r IH]; cbn; [constructor|].
  now apply insertEntry_sorted.
Qed.

End Ordered.

End Render.

Lemma unitCompare_total (a b : string) :
  (unitCompare a b <= 0)%Z \/ (unitCompare b a <= 0)%Z.
Proof.
  unfold unitCompare.
  rewrite (OrderedTypeEx.String_as_OT.cmp_antisym b a).
  destruct (OrderedTypeEx.String_as_OT.cmp a b); cbn; lia.
Qed.

Lemma unitCompare_le (a b : string) :
  (unitCompare a b <= 0)%Z <-> a = b \/ OrderedTypeEx.String_as_OT.lt a b.
Proof.
  unfold unitCompare.
  destruct (OrderedTypeEx.String_as_OT.cmp a b) eqn:E.
  - apply OrderedTypeEx.String_as_OT.cmp_eq in E. split; [now left|lia].
  - apply OrderedTypeEx.String_as_OT.cmp_lt in E. split; [now right|lia].
  - split; [lia|]. intros [H|H].
    + apply OrderedTypeEx.String_as_OT.cmp_eq in H. congruence.
    + apply OrderedTypeEx.String_as_OT.cmp_lt in H. congruence.
Qed.

Lemma unitCompare_trans (a b c : string) :
  (unitCompare a b <= 0)%Z -> (unitCompare b c <= 0)%Z -> (unitCompare a c <= 0)%Z.
Proof.
  rewrite !unitCompare_le. intros [->|Hab] [->|Hbc]; auto.
  right. eapply OrderedTypeEx.String_as_OT.lt_trans; eassumption.
Qed.

Lemma changeLabel_not_empty (c : SandboxChangeEntry) :
  destination c <> EmptyString -> changeLabel c <> EmptyString.
Proof.
  intros Hd. unfold changeLabel.
  destruct ((operation c =? "rename")%string && truthy_opt (source c))%bool eqn:E;
    [|exact Hd].
  apply andb_prop in E. destruct E as [_ E].
  destruct (source c) as [s|]; [|discriminate]. cbn in E.
  apply truthy_true in E. destruct s; [contradiction|discriminate].
Qed.

Lemma rendered_labels (localeCompare : string -> string -> Z)
    (n : SandboxNode) (ns : list SandboxNode) :
  nodeIn n ns ->
  forall (tree : Map DirTree) (prefix : string),
    ns = toNodes localeCompare tree prefix ->
    (forall name, nameIn name tree -> name <> EmptyString) ->
    (forall path c, leafAt path c tree -> destination c <> EmptyString) ->
    label n <> EmptyString.
Proof.
  induction 1 as [n ns Hin|f kids n ns Hin Hkids Hn IH];
    intros tree prefix -> Hnames Hleaves;
    apply in_toNodes in Hin; destruct Hin as (name & value & Hin & ->).
  - destruct value as [c|sub].
    + apply changeLabel_not_empty. apply (Hleaves [name]). now constructor.
    + apply Hnames. econstructor; eassumption.
  - destruct value as [c|sub]; [discriminate Hkids|].
    rewrite renderEntry_dir in Hkids. injection Hkids as <-.
    eapply IH; [reflexivity| |].
    + intros name' H'. apply Hnames. eapply nameBelow; eassumption.
    + intros path c H'. apply (Hleaves (name :: path)).
      eapply leafBelow; eassumption.
Qed.

Lemma rendered_leaves (localeCompare : string -> string -> Z)
    (folders : list string) (n : SandboxNode) (ns : list SandboxNode) :
  nodeAt folders n ns ->
  forall (tree : Map DirTree) (prefix : string),
    ns = toNodes localeCompare tree prefix ->
    children n = None ->
    exists name c, leafAt (folders ++ [name]) c tree /\ n = nodeFromChange c.
Proof.
  induction 1 as [n ns Hin|f kids folders n ns Hin Hkids Hn IH];
    intros tree prefix -> Hnone;
    apply in_toNodes in Hin; destruct Hin as (name & value & Hin & ->).
  - destruct value as [c|sub]; [|discriminate Hnone].
    exists name, c. split; [now constructor|reflexivity].
  - destruct value as [c|sub]; [discriminate Hkids|].
    rewrite renderEntry_dir in Hkids. injection Hkids as <-.
    destruct (IH sub _ eq_refl Hnone) as (name' & c & Hleaf & ->).
    exists name', c. split; [|reflexivity].
    cbn [label renderEntry folderNode withChildren withCommand withIcon
         newSandboxNode app].
    eapply leafBelow; eassumption.
Qed.

(** C1, amended: every leaf of the hierarchy built by
    [buildDirectoryHierarchy] holds an entry of the input, and only one;
    the keys on the way from the root to the leaf are the non-empty
    segments of the entry's destination split at ['/'], the [cwd + '/']
    prefix taken off first when [cwd] is non-empty and the destination
    starts with it; joined with ['/'] they give that path back whenever
    none of its segments is empty.  In the nodes returned, a node without
    children is the node of such a leaf, under the folders labelled with
    the keys before the last. *)
Theorem leaves_are_input_entries
    (localeCompare : string -> string -> Z)
    (changes : list SandboxChangeEntry) (cwd : option string) :
  (forall path c,
      leafAt path c (buildRoot changes cwd) ->
      In c changes
      /\ path = filter nonEmpty (split "/" (relPath cwd c))
      /\ (forall c', leafAt path c' (buildRoot changes cwd) -> c' = c)
      /\ ((forall seg, In seg (split "/" (relPath cwd c)) -> seg <> EmptyString) ->
          join "/" path = relPath cwd c)
      /\ (forall w rest, cwd = Some w -> w <> EmptyString ->
            destination c = (w ++ "/" ++ rest)%string -> relPath cwd c = rest)
      /\ ((forall w, cwd = Some w ->
             w = EmptyString \/ startsWith (destination c) (w ++ "/") = false) ->
          relPath cwd c = destination c))
  /\ (forall folders n,
        nodeAt folders n (buildDirectoryHierarchy localeCompare changes cwd) ->
        children n = None ->
        exists name c,
          leafAt (folders ++ [name]) c (buildRoot changes cwd)
          /\ n = nodeFromChange c).
Proof.
  split.
  - intros path c Hleaf.
    pose proof Hleaf as H. apply buildRoot_leafAt in H.
    destruct H as [[Hin Hpath]|H]; [|now apply leafAt_nil in H].
    repeat apply conj.
    + exact Hin.
    + exact Hpath.
    + intros c' Hc'. eapply leafAt_unique; eauto using buildRoot_uniqueKeys.
    + intros Hseg. rewrite Hpath. unfold pathParts.
      rewrite filter_all; [apply join_split|].
      intros seg Hs. apply nonEmpty_true. auto.
    + intros w rest -> Hw Hd. now apply relPath_stripped.
    + apply relPath_kept.
  - intros folders n Hn Hnone.
    eapply rendered_leaves; [exact Hn|reflexivity|exact Hnone].
Qed.

Lemma leaves_sample :
  leafAt ["b"; "c.txt"] (entryFor "/w/b/c.txt" "create")
    (buildRoot [entryFor "/w/a.txt" "modify"; entryFor "/w/b/c.txt" "create"]
               (Some "/w")).
Proof.
  apply leafBelow with (sub := [("c.txt", Leaf (entryFor "/w/b/c.txt" "create"))]).
  - right; left; reflexivity.
  - apply leafHere. left; reflexivity.
Qed.

Lemma nodes_sample :
  nodeAt ["b"] (nodeFromChange (entryFor "/w/b/c.txt" "create"))
    (buildDirectoryHierarchy unitCompare
       [entryFor "/w/a.txt" "modify"; entryFor "/w/b/c.txt" "create"] (Some "/w")).
Proof.
  change ["b"] with
    (label (folderNode "b" "b" [nodeFromChange (entryFor "/w/b/c.txt" "create")])
     :: []).
  eapply nodeAtBelow.
  - right; left; reflexivity.
  - reflexivity.
  - apply nodeAtTop. left; reflexivity.
Qed.

Lemma leaves_are_input_entries_witness :
  In (entryFor "/w/b/c.txt" "create")
     [entryFor "/w/a.txt" "modify"; entryFor "/w/b/c.txt" "create"]
  /\ join "/" ["b"; "c.txt"] = "b/c.txt"
  /\ exists name c,
       leafAt (["b"] ++ [name]) c
         (buildRoot [entryFor "/w/a.txt" "modify"; entryFor "/w/b/c.txt" "create"]
                    (Some "/w"))
       /\ nodeFromChange (entryFor "/w/b/c.txt" "create") = nodeFromChange c.
Proof.
  destruct (leaves_are_input_entries unitCompare
              [entryFor "/w/a.txt" "modify"; entryFor "/w/b/c.txt" "create"]
              (Some "/w")) as [Hmap Hnodes].
  destruct (Hmap _ _ leaves_sample) as (Hin & _ & _ & Hjoin & _).
  split; [exact Hin|]. split.
  - rewrite Hjoin; [reflexivity|].
    intros seg Hseg. vm_compute in Hseg.
    destruct Hseg as [<-|[<-|[]]]; discriminate.
  - apply (Hnodes _ _ nodes_sample). reflexivity.
Defined.

(** C10: [buildDirectoryHierarchy] keeps only the non-empty segments of a
    path, so no key of the nested maps it builds is empty and no node it
    returns, at any depth, has an empty label, whatever slashes the
    destinations start with or repeat. *)
Theorem hierarchy_has_no_empty_name
    (localeCompare : string -> string -> Z)
    (changes : list SandboxChangeEntry) (cwd : option string) :
  (forall c, Forall (fun part => part <> EmptyString) (pathParts cwd c))
  /\ (forall name, nameIn name (buildRoot changes cwd) -> name <> EmptyString)
  /\ (forall n, nodeIn n (buildDirectoryHierarchy localeCompare changes cwd) ->
                label n <> EmptyString).
Proof.
  repeat apply conj.
  - intros c. apply Forall_forall. intros part H.
    unfold pathParts in H. apply filter_In in H. now apply nonEmpty_true.
  - intros name. apply buildRoot_names.
  - intros n H. eapply rendered_labels; [exact H|reflexivity| |].
    + intros name. apply buildRoot_names.
    + intros path c. apply buildRoot_leaf_destination.
Qed.

(** The order of the operation groups. *)


Lemma groupsOf_keys (changes : list SandboxChangeEntry) :
  map fst (groupByOperation changes) = firstSeen (map operation changes).
Proof.
  rewrite groupByOperation_groupsOf. unfold groupsOf.
  rewrite map_map. apply map_id.
Qed.







End RenderFacts.

(** ** The diff resolver and the pattern matcher *)

Module ExtensionFacts.
Import Js Cli Extension TreeProps ExtensionProps JsFacts.









(** *** Patterns as globs *)

Lemma written_cons (text : GlobToken -> string) (t : GlobToken) (ts : list GlobToken) :
  written text (t :: ts) = (text t ++ written text ts)%string.
Proof. reflexivity. Qed.

Lemma escapeSpecials_head (c : ascii) (r : string) :
  escapeSpecials (String c r) = (escapedChar c ++ escapeSpecials r)%string.
Proof.
  cbn [escapeSpecials]. unfold escapedChar. destruct (isEscaped c); reflexivity.
Qed.

Lemma escapedChar_no_star (c : ascii) (rest : string) :
  c <> "*"%char ->
  replaceAll "**" "::DOUBLE_STAR::" (escapedChar c ++ rest)
  = (escapedChar c ++ replaceAll "**" "::DOUBLE_STAR::" rest)%string.
Proof.
  intros Hc. unfold escapedChar.
  assert (Hpre : forall r, String.prefix "**" (String c r) = false)
    by (intros r; apply prefix_head_ne; congruence).
  destruct (isEscaped c); cbn [String.append].
  - rewrite replaceAll_no_match by (apply prefix_head_ne; discriminate).
    now rewrite replaceAll_no_match by apply Hpre.
  - now rewrite replaceAll_no_match by apply Hpre.
Qed.

Lemma first_pass_aux (n : nat) :
  forall glob, String.length glob <= n ->
    replaceAll "**" "::DOUBLE_STAR::" (escapeSpecials glob)
    = written afterDoubleStars (tokenize glob).
Proof.
  induction n as [|n IH]; intros glob Hlen.
  - destruct glob; [reflexivity|cbn in Hlen; lia].
  - destruct glob as [|c r]; [reflexivity|]. cbn [String.length] in Hlen.
    cbn [tokenize]. destruct (Ascii.eqb_spec c "*") as [->|Hc].
    + destruct r as [|c2 r2].
      * reflexivity.
      * destruct (Ascii.eqb_spec c2 "*") as [->|Hc2].
        -- rewrite written_cons, <- IH by (cbn [String.length] in Hlen; lia).
           change (escapeSpecials (String "*" (String "*" r2)))
             with ("**" ++ escapeSpecials r2)%string.
           rewrite replaceAll_match; [|discriminate|apply prefix_app].
           change (String.length "**") with 2.
           reflexivity.
        -- rewrite written_cons, <- IH by lia.
           change (escapeSpecials (String "*" (String c2 r2)))
             with (String "*" (escapeSpecials (String c2 r2))).
           rewrite replaceAll_no_match; [reflexivity|].
           rewrite escapeSpecials_head. unfold escapedChar.
           cbn [String.prefix]. destruct (ascii_dec "*" "*"); [|contradiction].
           destruct (isEscaped c2); cbn [String.append];
             apply prefix_head_ne; congruence.
    + rewrite written_cons, <- IH by lia.
      rewrite escapeSpecials_head. now apply escapedChar_no_star.
Qed.

Lemma first_pass (glob : string) :
  replaceAll "**" "::DOUBLE_STAR::" (escapeSpecials glob)
  = written afterDoubleStars (tokenize glob).
Proof. apply (first_pass_aux (String.length glob)). lia. Qed.

Lemma tokenize_literals_aux (P : ascii -> Prop) (n : nat) :
  forall glob, String.length glob <= n ->
    Forall P (list_ascii_of_string glob) ->
    literalsAre (fun c => P c /\ c <> "*"%char) (tokenize glob).
Proof.
  induction n as [|n IH]; intros glob Hlen Hall.
  - destruct glob; [constructor|cbn in Hlen; lia].
  - destruct glob as [|c r]; [constructor|]. cbn [String.length] in Hlen.
    cbn [list_ascii_of_string] in Hall. inversion Hall as [|? ? Hc Hr]; subst.
    cbn [tokenize]. destruct (Ascii.eqb_spec c "*") as [->|Hne].
    + destruct r as [|c2 r2].
      * repeat constructor.
      * destruct (Ascii.eqb_spec c2 "*") as [->|Hc2].
        -- constructor; [exact I|]. apply IH; [cbn [String.length] in Hlen; lia|].
           cbn [list_ascii_of_string] in Hr. now inversion Hr.
        -- constructor; [exact I|]. apply IH; [lia|assumption].
    + constructor; [now split|]. apply IH; [lia|assumption].
Qed.

Lemma tokenize_literals (P : ascii -> Prop) (glob : string) :
  Forall P (list_ascii_of_string glob) ->
  literalsAre (fun c => P c /\ c <> "*"%char) (tokenize glob).
Proof. apply (tokenize_literals_aux P (String.length glob)). lia. Qed.

Lemma replace_star_app (a b : string) :
  replaceAll "*" "[^/]*" (a ++ b)
  = (replaceAll "*" "[^/]*" a ++ replaceAll "*" "[^/]*" b)%string.
Proof.
  unfold replaceAll. induction a as [|c a IH]; [reflexivity|].
  cbn [String.append replaceAll_from String.prefix].
  destruct (ascii_dec "*" c).
  - rewrite !prefix_empty. change (String.length "*" - 1) with 0.
    rewrite IH. reflexivity.
  - now rewrite IH.
Qed.

Lemma escapedChar_keeps_star_free (c : ascii) :
  c <> "*"%char -> replaceAll "*" "[^/]*" (escapedChar c) = escapedChar c.
Proof.
  intros Hc. unfold escapedChar.
  destruct (isEscaped c).
  - rewrite replaceAll_no_match by (apply prefix_head_ne; discriminate).
    rewrite replaceAll_no_match by (apply prefix_head_ne; congruence).
    reflexivity.
  - rewrite replaceAll_no_match by (apply prefix_head_ne; congruence).
    reflexivity.
Qed.

Lemma second_pass (ts : list GlobToken) :
  literalsAre (fun c => c <> "*"%char) ts ->
  replaceAll "*" "[^/]*" (written afterDoubleStars ts) = written afterStars ts.
Proof.
  induction 1 as [|t ts Ht Hts IH]; [reflexivity|].
  rewrite !written_cons, replace_star_app, IH. f_equal.
  destruct t as [c| |]; cbn [afterDoubleStars afterStars].
  - now apply escapedChar_keeps_star_free.
  - reflexivity.
  - reflexivity.
Qed.

Lemma no_colon_chunk (chunk rest : string) :
  Forall (fun c => c <> ":"%char) (list_ascii_of_string chunk) ->
  replaceAll "::DOUBLE_STAR::" ".*" (chunk ++ rest)
  = (chunk ++ replaceAll "::DOUBLE_STAR::" ".*" rest)%string.
Proof.
  induction chunk as [|c chunk IH]; intros H; [reflexivity|].
  cbn [list_ascii_of_string] in H. inversion H as [|? ? Hc Hr]; subst.
  cbn [String.append].
  rewrite replaceAll_no_match by (apply prefix_head_ne; congruence).
  now rewrite IH.
Qed.

Lemma third_pass (ts : list GlobToken) :
  literalsAre (fun c => c <> ":"%char) ts ->
  replaceAll "::DOUBLE_STAR::" ".*" (written afterStars ts)
  = written afterPlaceholders ts.
Proof.
  induction 1 as [|t ts Ht Hts IH]; [reflexivity|].
  rewrite !written_cons.
  destruct t as [c| |]; cbn [afterStars afterPlaceholders].
  - rewrite no_colon_chunk, IH; [reflexivity|].
    unfold escapedChar. destruct (isEscaped c); repeat constructor;
      try assumption; discriminate.
  - rewrite no_colon_chunk, IH; [reflexivity|].
    repeat constructor; discriminate.
  - rewrite replaceAll_match; [|discriminate|apply prefix_app].
    rewrite substring_from_app, IH. reflexivity.
Qed.

Lemma literalsAre_impl (P Q : ascii -> Prop) (ts : list GlobToken) :
  (forall c, P c -> Q c) -> literalsAre P ts -> literalsAre Q ts.
Proof.
  intros H. unfold literalsAre. apply Forall_impl. intros [c| |]; auto.
Qed.

Lemma globSource_written (glob : string) :
  plainGlob glob ->
  globSource glob = ("^" ++ written afterPlaceholders (tokenize glob) ++ "$")%string.
Proof.
  intros Hplain. unfold globSource.
  pose proof (tokenize_literals _ glob Hplain) as Hlit.
  rewrite first_pass, second_pass, third_pass; [reflexivity| |].
  - eapply literalsAre_impl; [|exact Hlit]. cbn. tauto.
  - eapply literalsAre_impl; [|exact Hlit]. cbn. tauto.
Qed.

Lemma isEscaped_isSyntaxChar (c : ascii) : isEscaped c = true -> isSyntaxChar c = true.
Proof.
  unfold isEscaped, isSyntaxChar. intros H.
  change ["."; "+"; "^"; "$"; "{"; "}"; "("; ")"; "|"; "["; "]"; "\"; "*"; "?"]%char
    with (["."; "+"; "^"; "$"; "{"; "}"; "("; ")"; "|"; "["; "]"; "\"]%char
          ++ ["*"; "?"]%char).
  rewrite existsb_app, H. reflexivity.
Qed.

Lemma read_plain_char (c : ascii) (acc : list Term) (q : Suffix) :
  isEscaped c = false -> c <> "*"%char -> c <> "?"%char ->
  readUnit (Some (acc, InBody q)) c = Some ((Literal c, Once) :: acc, InBody AfterAtom).
Proof.
  intros He Hs Hq.
  apply Ascii.eqb_neq in Hs. apply Ascii.eqb_neq in Hq.
  assert (Hsyn : isSyntaxChar c = false).
  { unfold isSyntaxChar.
    change ["."; "+"; "^"; "$"; "{"; "}"; "("; ")"; "|"; "["; "]"; "\"; "*"; "?"]%char
      with (["."; "+"; "^"; "$"; "{"; "}"; "("; ")"; "|"; "["; "]"; "\"]%char
            ++ ["*"; "?"]%char).
    rewrite existsb_app. fold (isEscaped c). rewrite He. cbn. now rewrite Hs, Hq. }
  unfold isEscaped in He. cbn [existsb] in He.
  repeat (apply orb_false_elim in He; destruct He as [? He]).
  unfold readUnit. rewrite Hs, Hq, Hsyn.
  repeat match goal with H : Ascii.eqb c _ = false |- _ => rewrite H; clear H end.
  reflexivity.
Qed.

Lemma read_token (t : GlobToken) (acc : list Term) (q : Suffix) :
  match t with TLit c => c <> "*"%char /\ c <> "?"%char | _ => True end ->
  exists q',
    fold_left readUnit (list_ascii_of_string (afterPlaceholders t))
              (Some (acc, InBody q))
    = Some (termOf t :: acc, InBody q').
Proof.
  destruct t as [c| |]; intros Ht.
  - destruct Ht as [Hs Hq]. exists AfterAtom.
    cbn [afterPlaceholders termOf]. unfold escapedChar.
    destruct (isEscaped c) eqn:He.
    + cbn [list_ascii_of_string fold_left].
      replace (readUnit (Some (acc, InBody q)) "\"%char)
        with (Some (acc, AfterBackslash)) by (destruct q; reflexivity).
      cbn [readUnit]. now rewrite (isEscaped_isSyntaxChar c He).
    + cbn [list_ascii_of_string fold_left]. now apply read_plain_char.
  - exists AfterQuant. destruct q; reflexivity.
  - exists AfterQuant. destruct q; reflexivity.
Qed.

Lemma read_tokens (ts : list GlobToken) :
  literalsAre (fun c => c <> "*"%char /\ c <> "?"%char) ts ->
  forall acc q,
    exists q',
      fold_left readUnit (list_ascii_of_string (written afterPlaceholders ts))
                (Some (acc, InBody q))
      = Some (rev (map termOf ts) ++ acc, InBody q').
Proof.
  induction 1 as [|t ts Ht Hts IH]; intros acc q.
  - exists q. reflexivity.
  - rewrite written_cons, chars_app, fold_left_app.
    destruct (read_token t acc q Ht) as (q1 & ->).
    destruct (IH (termOf t :: acc) q1) as (q2 & ->).
    exists q2. cbn [map rev]. now rewrite <- app_assoc.
Qed.

Lemma compile_written (ts : list GlobToken) :
  literalsAre (fun c => c <> "*"%char /\ c <> "?"%char) ts ->
  compile ("^" ++ written afterPlaceholders ts ++ "$") = Some (map termOf ts).
Proof.
  intros H. unfold compile.
  cbn [String.append list_ascii_of_string fold_left].
  change (readUnit (Some ([], AtStart)) "^"%char) with (Some (@nil Term, InBody NoSuffix)).
  rewrite chars_app, fold_left_app.
  destruct (read_tokens ts H [] NoSuffix) as (q & ->).
  cbn [list_ascii_of_string fold_left].
  replace (readUnit (Some (rev (map termOf ts) ++ [], InBody q)) "$"%char)
    with (Some (rev (map termOf ts) ++ [], AtEnd)) by (destruct q; reflexivity).
  now rewrite app_nil_r, rev_involutive.
Qed.

Lemma globToRegex_plain (glob : string) :
  plainGlob glob -> globToRegex glob = Some (map termOf (tokenize glob)).
Proof.
  intros Hplain. unfold globToRegex. rewrite globSource_written by assumption.
  apply compile_written.
  eapply literalsAre_impl; [|exact (tokenize_literals _ glob Hplain)].
  cbn. tauto.
Qed.

Lemma matchTerms_star_nil (cs : CharSet) (r : RegExp) :
  matchTerms ((cs, Star) :: r) [] = (matchTerms r [] || false)%bool.
Proof. reflexivity. Qed.

Lemma matchTerms_star_cons (cs : CharSet) (r : RegExp) (c : ascii) (s : list ascii) :
  matchTerms ((cs, Star) :: r) (c :: s)
  = (matchTerms r (c :: s) || (inSet cs c && matchTerms ((cs, Star) :: r) s))%bool.
Proof. reflexivity. Qed.

Lemma matchTerms_star (cs : CharSet) (r : RegExp) (s : list ascii) :
  matchTerms ((cs, Star) :: r) s = true
  <-> exists run rest,
        s = run ++ rest /\ Forall (fun c => inSet cs c = true) run
        /\ matchTerms r rest = true.
Proof.
  induction s as [|c s IH].
  - rewrite matchTerms_star_nil, orb_false_r. split.
    + intros H. exists [], []. repeat split; [constructor|assumption].
    + intros (run & rest & Heq & _ & H). symmetry in Heq.
      apply app_eq_nil in Heq. destruct Heq as [_ ->]. exact H.
  - rewrite matchTerms_star_cons, orb_true_iff, andb_true_iff, IH. split.
    + intros [H|[Hc (run & rest & -> & Hrun & H)]].
      * exists [], (c :: s). repeat split; [constructor|assumption].
      * exists (c :: run), rest. repeat split; [now constructor|assumption].
    + intros (run & rest & Heq & Hrun & H). destruct run as [|c' run].
      * left. cbn in Heq. now rewrite Heq.
      * right. cbn in Heq. injection Heq as -> ->.
        inversion Hrun as [|? ? Hc Hrun']; subst. split; [assumption|].
        exists run, rest. repeat split; assumption.
Qed.

Lemma inSet_NotSlash (c : ascii) : inSet NotSlash c = true <-> c <> "/"%char.
Proof.
  cbn. destruct (Ascii.eqb_spec c "/"); cbn; split; congruence.
Qed.

Lemma inSet_AnyChar (c : ascii) : inSet AnyChar c = true <-> isLineTerminator c = false.
Proof. cbn. destruct (isLineTerminator c); cbn; split; congruence. Qed.

Lemma matchTerms_globMatches (ts : list GlobToken) :
  forall s, matchTerms (map termOf ts) s = true <-> globMatches ts s.
Proof.
  induction ts as [|t ts IH]; intros s.
  - cbn. destruct s; split; intros H; try discriminate; try constructor.
    inversion H.
  - destruct t as [c| |]; cbn [map termOf].
    + destruct s as [|c' s]; cbn [matchTerms inSet].
      * split; [discriminate|]. intros H. inversion H.
      * rewrite andb_true_iff, IH. split.
        -- intros [Hc H]. apply Ascii.eqb_eq in Hc. subst. now constructor.
        -- intros H. inversion H; subst. split; [apply Ascii.eqb_refl|assumption].
    + rewrite matchTerms_star. split.
      * intros (run & rest & -> & Hrun & H). constructor; [|now apply IH].
        eapply Forall_impl; [|exact Hrun]. intros c. apply inSet_NotSlash.
      * intros H. inversion H as [| |run ? rest Hrun Hrest|]; subst.
        exists run, rest. repeat split; [|now apply IH].
        eapply Forall_impl; [|exact Hrun]. intros c. apply inSet_NotSlash.
    + rewrite matchTerms_star. split.
      * intros (run & rest & -> & Hrun & H). constructor; [|now apply IH].
        eapply Forall_impl; [|exact Hrun]. intros c. apply inSet_AnyChar.
      * intros H. inversion H as [| | |run ? rest Hrun Hrest]; subst.
        exists run, rest. repeat split; [|now apply IH].
        eapply Forall_impl; [|exact Hrun]. intros c. apply inSet_AnyChar.
Qed.

(** On a pattern without [?] and [:], [globToRegex] gives the matcher of
    the restricted glob. *)
Lemma plain_glob_matcher (glob : string) :
  plainGlob glob ->
  exists r,
    globToRegex glob = Some r
    /\ forall dest, test r dest = true
                    <-> globMatches (tokenize glob) (list_ascii_of_string dest).
Proof.
  intros H. exists (map termOf (tokenize glob)). split.
  - now apply globToRegex_plain.
  - intros dest. apply matchTerms_globMatches.
Qed.

Lemma compileAll_plain (patterns : list string) :
  Forall plainGlob patterns ->
  compileAll patterns = Some (map (fun p => map termOf (tokenize p)) patterns).
Proof.
  induction 1 as [|p ps Hp Hps IH]; [reflexivity|].
  cbn [compileAll map]. now rewrite (globToRegex_plain p Hp), IH.
Qed.

(** An entry is selected when at least one of the patterns matches its
    destination; the selection keeps the order of the entries. *)
Lemma plain_patterns_filter (changes : list SandboxChangeEntry)
    (patterns : list string) :
  Forall plainGlob patterns ->
  exists keep,
    filterChangesByPatterns changes patterns = Some (filter keep changes)
    /\ forall c, keep c = true
                 <-> exists p, In p patterns
                               /\ globMatches (tokenize p)
                                    (list_ascii_of_string (destination c)).
Proof.
  intros H.
  exists (fun c => existsb (fun r => test r (destination c))
                     (map (fun p => map termOf (tokenize p)) patterns)).
  split.
  - unfold filterChangesByPatterns. now rewrite compileAll_plain.
  - intros c. rewrite existsb_exists. split.
    + intros (r & Hr & Ht). apply in_map_iff in Hr. destruct Hr as (p & <- & Hp).
      exists p. split; [assumption|]. now apply matchTerms_globMatches.
    + intros (p & Hp & Hm). exists (map termOf (tokenize p)). split.
      * apply in_map_iff. now exists p.
      * now apply matchTerms_globMatches.
Qed.

(** The patterns of the specification, on the matcher as written. *)
Lemma glob_examples :
  globSource "a/*.ts" = "^a/[^/]*\.ts$"
  /\ globSource "a/**" = "^a/.*$"
  /\ option_map (fun r => (test r "a/b.ts", test r "a/b/c.ts")) (globToRegex "a/*.ts")
     = Some (true, false)
  /\ option_map (fun r => (test r "a/b/c.ts", test r "a/x")) (globToRegex "a/**")
     = Some (true, true)
  /\ option_map (fun r => (test r "lit.txt", test r "litxtxt", test r "lit.txt2"))
       (globToRegex "lit.txt")
     = Some (true, false, false)
  /\ filterChangesByPatterns
       [modified "a/b.ts"; modified "a/b/c.ts"; modified "lit.txt"]
       ["a/*.ts"; "lit.txt"]
     = Some [modified "a/b.ts"; modified "lit.txt"].
Proof. repeat split. Qed.

(** C4, where the code departs from it: [?] is not among the characters
    [globToRegex] escapes, so in a pattern it is the optional quantifier of
    the regular expression and not a literal character.  The pattern
    [a?.ts] does not select the destination [a?.ts] and selects [a.ts] and
    [.ts]; the path of a file with [?] in its name, given as pattern (what
    a click on the file's node gives), does not select that file; the
    pattern [?] makes [new RegExp] throw. *)
Theorem question_mark_is_not_literal :
  globSource "a?.ts" = "^a?\.ts$"
  /\ globToRegex "a?.ts"
     = Some [(Literal "a", Optional); (Literal ".", Once);
             (Literal "t", Once); (Literal "s", Once)]
  /\ filterChangesByPatterns
       [modified "a?.ts"; modified "a.ts"; modified ".ts"] ["a?.ts"]
     = Some [modified "a.ts"; modified ".ts"]
  /\ filterChangesByPatterns [modified "/w/what?.txt"] ["/w/what?.txt"] = Some []
  /\ globToRegex "?" = None
  /\ filterChangesByPatterns [modified "?"] ["?"] = None.
Proof. repeat split. Qed.

End ExtensionFacts.

(** * More of the code

    Properties of the code beside those above. *)

(** ** Texts, lists and maps *)
Module HelperFacts.
Import Js Cli CliProps JsFacts.

Lemma chars_trimStart (s : string) :
  list_ascii_of_string (trimStart s) = dropWhite (list_ascii_of_string s).
Proof.
  induction s as [|c r IH]; [reflexivity|]. cbn [trimStart list_ascii_of_string dropWhite].
  destruct (isWhite c); [exact IH|reflexivity].
Qed.

Lemma chars_reverse (s : string) :
  list_ascii_of_string (reverse s) = rev (list_ascii_of_string s).
Proof. unfold reverse. apply list_ascii_of_string_of_list_ascii. Qed.

Lemma chars_trim (s : string) :
  list_ascii_of_string (trim s)
  = rev (dropWhite (rev (dropWhite (list_ascii_of_string s)))).
Proof.
  unfold trim. now rewrite chars_reverse, chars_trimStart, chars_reverse, chars_trimStart.
Qed.

Lemma chars_inj (a b : string) :
  list_ascii_of_string a = list_ascii_of_string b -> a = b.
Proof.
  intros H. rewrite <- (string_of_list_ascii_of_string a),
    <- (string_of_list_ascii_of_string b). now rewrite H.
Qed.

Lemma dropWhite_nil (l : list ascii) : dropWhite l = [] <-> forallb isWhite l = true.
Proof.
  induction l as [|c r IH]; cbn; [tauto|].
  destruct (isWhite c); cbn; [exact IH|]. split; discriminate.
Qed.

Lemma dropWhite_head (l : list ascii) :
  match dropWhite l with
  | [] => True
  | c :: _ => isWhite c = false
  end.
Proof.
  induction l as [|c r IH]; cbn; [exact I|].
  destruct (isWhite c) eqn:E; [exact IH|exact E].
Qed.

Lemma dropWhite_id (c : ascii) (r : list ascii) :
  isWhite c = false -> dropWhite (c :: r) = c :: r.
Proof. intros H. cbn. now rewrite H. Qed.

Lemma forallb_rev {A} (f : A -> bool) (l : list A) :
  forallb f (rev l) = forallb f l.
Proof.
  induction l as [|a l IH]; [reflexivity|].
  cbn. rewrite forallb_app, IH. cbn. rewrite andb_true_r. apply andb_comm.
Qed.

Lemma trim_empty (s : string) : trim s = EmptyString <-> isBlank s = true.
Proof.
  unfold isBlank. split.
  - intros H. apply (f_equal list_ascii_of_string) in H. rewrite chars_trim in H.
    cbn in H. apply (f_equal (@rev ascii)) in H. rewrite rev_involutive in H.
    cbn in H. apply dropWhite_nil in H. rewrite forallb_rev in H.
    pose proof (dropWhite_head (list_ascii_of_string s)) as Hh.
    destruct (dropWhite (list_ascii_of_string s)) as [|c r] eqn:E.
    + now apply dropWhite_nil.
    + cbn in H. rewrite Hh in H. discriminate.
  - intros H. apply chars_inj. rewrite chars_trim.
    apply dropWhite_nil in H. rewrite H. reflexivity.
Qed.

Lemma append_assoc (a b c : string) : ((a ++ b) ++ c = a ++ (b ++ c))%string.
Proof. induction a as [|x a IH]; [reflexivity|]. cbn. now rewrite IH. Qed.

Lemma append_nil_r (a : string) : (a ++ "")%string = a.
Proof. induction a as [|x a IH]; [reflexivity|]. cbn. now rewrite IH. Qed.


Lemma length_split (sep : ascii) (s : string) :
  length (split sep s) = S (countChar sep s).
Proof.
  induction s as [|c r IH]; [reflexivity|]. cbn [split countChar].
  pose proof (split_not_nil sep r) as Hne.
  destruct (Ascii.eqb c sep); cbn [length]; [now rewrite IH|].
  destruct (split sep r) as [|h t]; [contradiction|]. cbn in *. lia.
Qed.

Lemma countChar_app (sep : ascii) (a b : string) :
  countChar sep (a ++ b) = countChar sep a + countChar sep b.
Proof.
  induction a as [|c a IH]; [reflexivity|]. cbn. rewrite IH. lia.
Qed.

Lemma split_whole (sep : ascii) (a : string) :
  countChar sep a = 0 -> split sep a = [a].
Proof.
  induction a as [|c a IH]; [reflexivity|]. cbn [countChar split].
  destruct (Ascii.eqb c sep); [discriminate|]. cbn. intros H. now rewrite IH.
Qed.

Lemma split_first (sep : ascii) (a rest : string) :
  countChar sep a = 0 ->
  split sep (a ++ String sep rest) = a :: split sep rest.
Proof.
  induction a as [|c a IH]; cbn [countChar split String.append].
  - intros _. now rewrite Ascii.eqb_refl.
  - destruct (Ascii.eqb c sep); [discriminate|]. cbn. intros H. now rewrite IH.
Qed.

Lemma join_cons (sep : string) (x y : string) (r : list string) :
  join sep (x :: y :: r) = (x ++ sep ++ join sep (y :: r))%string.
Proof. reflexivity. Qed.

Lemma countChar_join (sep : ascii) (l : list string) :
  l <> [] ->
  countChar sep (join (String sep "") l) = countIn sep l + (length l - 1).
Proof.
  unfold countIn. induction l as [|x l IH]; [contradiction|]. intros _.
  destruct l as [|y r].
  - cbn. lia.
  - rewrite join_cons, countChar_app. cbn [String.append countChar].
    rewrite Ascii.eqb_refl, IH by discriminate.
    unfold list_sum. cbn [map fold_right length]. lia.
Qed.

Lemma split_join (sep : ascii) (l : list string) :
  l <> [] -> countIn sep l = 0 -> split sep (join (String sep "") l) = l.
Proof.
  unfold countIn, list_sum. induction l as [|x l IH]; [contradiction|]. intros _ H.
  cbn [map fold_right] in H. destruct l as [|y r].
  - cbn. apply split_whole. lia.
  - rewrite join_cons. cbn [String.append].
    rewrite split_first by lia. f_equal. apply IH; [discriminate|lia].
Qed.

Lemma fold_onData (es : list ChildEvent) :
  forall out err,
    fold_left onData es (out, err)
    = ((out ++ concatAll (stdoutChunks es))%string,
       (err ++ concatAll (stderrChunks es))%string).
Proof.
  induction es as [|e es IH]; intros out err.
  - cbn. now rewrite !append_nil_r.
  - cbn [fold_left]. destruct e as [d|d]; cbn [onData fst snd]; rewrite IH;
      cbn [stdoutChunks stderrChunks flat_map app concatAll fold_right];
      now rewrite append_assoc.
Qed.

End HelperFacts.

(** ** More of the CLI gateway *)
Module CliExtras.
Import Js Cli CliProps JsFacts CliFacts HelperFacts.

Lemma kept_iff_notBlank (b : string) :
  (truthy b && truthy (trim b))%bool = notBlank b.
Proof.
  unfold notBlank. destruct (isBlank b) eqn:E.
  - apply trim_empty in E. rewrite E. cbn. apply andb_false_r.
  - assert (Ht : trim b <> EmptyString)
      by (intros H; apply trim_empty in H; congruence).
    apply truthy_true in Ht. rewrite Ht.
    assert (Hb : b <> EmptyString) by (intros ->; discriminate E).
    apply truthy_true in Hb. now rewrite Hb.
Qed.

Lemma pushFlagged_filter (flag : string) (items : list string) :
  pushFlagged flag items
  = flat_map (fun b => [flag; b]) (filter notBlank items).
Proof.
  unfold pushFlagged. induction items as [|b r IH]; [reflexivity|].
  cbn [flat_map filter]. rewrite IH, kept_iff_notBlank.
  destruct (notBlank b); reflexivity.
Qed.

(** X1: the arguments put before every subcommand.  A name, a bind or a
    mask that is empty or made of white space is left out; any other is
    passed as it is, not trimmed, after its flag, binds before masks and in
    the order of the settings. *)
Theorem base_args_leave_out_blank_values (cfg : Settings) :
  buildBaseArgs cfg
  = (match set_name cfg with
     | Some name => if notBlank name then ["--name"; name] else []
     | None => []
     end)
    ++ (match set_net cfg with
        | Some net => if (net =? "host")%string then ["--net=host"] else []
        | None => []
        end)
    ++ (if set_noDefaultBinds cfg then ["--no-default-binds"] else [])
    ++ flat_map (fun b => ["--bind"; b])
         (filter notBlank (match set_bind cfg with Some l => l | None => [] end))
    ++ flat_map (fun m => ["--mask"; m])
         (filter notBlank (match set_mask cfg with Some l => l | None => [] end))
    ++ (if set_ignored cfg then ["--ignored"] else []).
Proof.
  unfold buildBaseArgs. rewrite !pushFlagged_filter.
  f_equal. destruct (set_name cfg) as [name|]; [|reflexivity].
  rewrite <- kept_iff_notBlank.
  replace (0 <? String.length (trim name))%nat with (truthy (trim name));
    [reflexivity|].
  unfold truthy. destruct (trim name); reflexivity.
Qed.

(** X2: [execFile] captures each stream whole: its [stdout] is what the
    child wrote on stdout, chunk after chunk, and its [stderr] what it
    wrote on stderr, however the chunks of the two were interleaved. *)
Theorem execFile_captures_each_stream
    (spawn : string -> list string -> option string -> ChildRun)
    (bin : string) (args : list string) (cwd : option string) :
  stdout (execFile spawn bin args cwd)
  = concatAll (stdoutChunks (events (spawn bin args cwd)))
  /\ stderr (execFile spawn bin args cwd)
     = concatAll (stderrChunks (events (spawn bin args cwd))).
Proof.
  unfold execFile. cbn [stdout stderr]. rewrite fold_onData. split; reflexivity.
Qed.


Lemma stdoutCalls_onEvent (h : Handlers) (es : list ChildEvent) :
  stdoutCalls (flat_map (onEvent h) es)
  = if onStdout h then stdoutChunks es else [].
Proof.
  induction es as [|e es IH]; [now destruct (onStdout h)|].
  cbn [flat_map]. unfold stdoutCalls in *. rewrite flat_map_app, IH.
  destruct e as [d|d]; cbn [onEvent]; destruct (onStdout h), (onStderr h); reflexivity.
Qed.

Lemma stderrCalls_onEvent (h : Handlers) (es : list ChildEvent) :
  stderrCalls (flat_map (onEvent h) es)
  = if onStderr h then stderrChunks es else [].
Proof.
  induction es as [|e es IH]; [now destruct (onStderr h)|].
  cbn [flat_map]. unfold stderrCalls in *. rewrite flat_map_app, IH.
  destruct e as [d|d]; cbn [onEvent]; destruct (onStdout h), (onStderr h); reflexivity.
Qed.

Lemma closeCalls_onEvent (h : Handlers) (es : list ChildEvent) :
  closeCalls (flat_map (onEvent h) es) = [].
Proof.
  induction es as [|e es IH]; [reflexivity|].
  cbn [flat_map]. unfold closeCalls in *. rewrite flat_map_app, IH.
  destruct e as [d|d]; cbn [onEvent]; destruct (onStdout h), (onStderr h); reflexivity.
Qed.

(** X4: [spawnDiffStream] hands each handler it was given the chunks of
    its stream, in order, so that together they are what [execFile]
    would have captured for the same child; a handler that was not given
    is never called; the close handler is called once, after all chunks,
    with the code [execFile] would have reported. *)
Theorem spawnDiffStream_streams_what_execFile_captures
    (spawn : string -> list string -> option string -> ChildRun)
    (cfg : Settings) (patterns : list string) (h : Handlers) (cwd : option string) :
  let calls := spawnDiffStream spawn cfg patterns h cwd in
  let res := execFile spawn (getBinaryPath cfg)
               (buildBaseArgs cfg ++ "diff" :: patterns) cwd in
  concatAll (stdoutCalls calls) = (if onStdout h then stdout res else EmptyString)
  /\ concatAll (stderrCalls calls) = (if onStderr h then stderr res else EmptyString)
  /\ closeCalls calls = (if onClose h then [code res] else [])
  /\ (exists data, calls = data ++ map OnClose (closeCalls calls)
                   /\ closeCalls data = []).
Proof.
  cbv zeta.
  destruct (execFile_captures_each_stream spawn (getBinaryPath cfg)
              (buildBaseArgs cfg ++ "diff" :: patterns) cwd) as [Hout Herr].
  rewrite Hout, Herr, CliFacts.execFile_code. unfold spawnDiffStream.
  set (child := spawn (getBinaryPath cfg) (buildBaseArgs cfg ++ "diff" :: patterns) cwd).
  set (close := if onClose h
                then [OnClose match closeCode child with Some c => c | None => 0%Z end]
                else []).
  assert (Hc1 : stdoutCalls close = []) by (subst close; destruct (onClose h); reflexivity).
  assert (Hc2 : stderrCalls close = []) by (subst close; destruct (onClose h); reflexivity).
  assert (Hc3 : closeCalls close
                = if onClose h
                  then [match closeCode child with Some c => c | None => 0%Z end]
                  else [])
    by (subst close; destruct (onClose h); reflexivity).
  repeat apply conj.
  - unfold stdoutCalls in *. rewrite flat_map_app, Hc1, app_nil_r.
    fold (stdoutCalls (flat_map (onEvent h) (events child))).
    rewrite stdoutCalls_onEvent. destruct (onStdout h); reflexivity.
  - unfold stderrCalls in *. rewrite flat_map_app, Hc2, app_nil_r.
    fold (stderrCalls (flat_map (onEvent h) (events child))).
    rewrite stderrCalls_onEvent. destruct (onStderr h); reflexivity.
  - unfold closeCalls in *. rewrite flat_map_app, Hc3.
    fold (closeCalls (flat_map (onEvent h) (events child))).
    now rewrite closeCalls_onEvent.
  - exists (flat_map (onEvent h) (events child)). split.
    + f_equal. unfold closeCalls in *. rewrite flat_map_app, Hc3.
      fold (closeCalls (flat_map (onEvent h) (events child))).
      rewrite closeCalls_onEvent. subst close. destruct (onClose h); reflexivity.
    + apply closeCalls_onEvent.
Qed.

(** X5: the command line [openSandboxTerminal] types into the terminal is
    the binary, the base arguments and the shell, separated by single
    spaces and not quoted: split at the spaces it has one word more for
    every space inside a setting, and it gives back exactly the binary, the
    arguments and the shell when none of them holds a space. *)
Theorem terminal_command_is_not_quoted (cfg : Settings) (SHELL : option string) :
  let words := getBinaryPath cfg :: buildBaseArgs cfg ++ [or_else SHELL "sh"] in
  length (split " " (openSandboxTerminal cfg SHELL))
  = length words + countIn " " words
  /\ (countIn " " words = 0 ->
      split " " (openSandboxTerminal cfg SHELL) = words).
Proof.
  cbv zeta. unfold openSandboxTerminal, getBinaryPath. split.
  - rewrite length_split, countChar_join by discriminate. cbn [length]. lia.
  - intros H. apply split_join; [discriminate|exact H].
Qed.

End CliExtras.

(** ** More of the change tree *)
Module TreeExtras.
Import Js Cli Tree TreeProps JsFacts MapFacts GroupFacts HierarchyFacts RenderFacts HelperFacts.

Lemma map_set_set {V} (k : string) (v w : V) (m : Map V) :
  map_set k w (map_set k v m) = map_set k w m.
Proof.
  induction m as [|[k' v'] m IH]; cbn.
  - now rewrite String.eqb_refl.
  - destruct (String.eqb_spec k' k) as [->|Hne]; cbn.
    + now rewrite String.eqb_refl.
    + destruct (String.eqb_spec k' k); [contradiction|now rewrite IH].
Qed.

Lemma map_set_ensured (part : string) (t : DirTree) (m : Map DirTree) :
  map_set part t (ensured part m) = map_set part t m.
Proof.
  unfold ensured. destruct (map_has part m); [reflexivity|apply map_set_set].
Qed.

Lemma subOf_ensured (part : string) (m : Map DirTree) :
  subOf part (ensured part m) = subOf part m.
Proof.
  unfold ensured, subOf. destruct (map_has part m) eqn:E; [reflexivity|].
  rewrite map_get_set. apply map_has_get in E. now rewrite E.
Qed.

(** The loop body, in one step: whatever stands under [part] is replaced
    by the leaf, or by the interior node the rest is inserted into. *)
Lemma insertParts_step (part : string) (rest : list string)
    (c : SandboxChangeEntry) (m : Map DirTree) :
  insertParts (part :: rest) c m
  = map_set part
      (match rest with
       | [] => Leaf c
       | _ :: _ => Dir (insertParts rest c (subOf part m))
       end) m.
Proof.
  destruct rest as [|r0 rs].
  - rewrite insertParts_last. apply map_set_ensured.
  - rewrite insertParts_more by discriminate.
    fold (subOf part (ensured part m)). rewrite subOf_ensured.
    apply map_set_ensured.
Qed.

Lemma in_map_set_self {V} (k : string) (v : V) (m : Map V) :
  In (k, v) (map_set k v m).
Proof.
  induction m as [|[k' v'] m IH]; cbn; [now left|].
  destruct (k' =? k)%string; [now left|now right].
Qed.

Lemma in_map_set_other {V} (k k' : string) (v v' : V) (m : Map V) :
  k' <> k -> In (k', v') m -> In (k', v') (map_set k v m).
Proof.
  intros Hne. induction m as [|[k0 v0] m IH]; cbn; [tauto|].
  destruct (String.eqb_spec k0 k) as [->|H0].
  - intros [[= -> ->]|H]; [contradiction|now right].
  - intros [H|H]; [now left|right; auto].
Qed.

Lemma map_set_not_nil {V} (k : string) (v : V) (m : Map V) : map_set k v m <> [].
Proof. destruct m as [|[k' v'] m]; cbn; [discriminate|]. destruct (k' =? k)%string; discriminate. Qed.

Lemma insertParts_not_nil (parts : list string) (c : SandboxChangeEntry)
    (m : Map DirTree) : parts <> [] -> insertParts parts c m <> [].
Proof.
  destruct parts as [|part rest]; [contradiction|]. intros _.
  rewrite insertParts_step. apply map_set_not_nil.
Qed.

(** The inserted entry is a leaf at the inserted path. *)
Lemma insertParts_inserted (parts : list string) (c : SandboxChangeEntry) :
  forall m : Map DirTree, parts <> [] -> leafAt parts c (insertParts parts c m).
Proof.
  induction parts as [|part rest IH]; intros m Hne; [contradiction|].
  rewrite insertParts_step. destruct rest as [|r0 rs].
  - constructor. apply in_map_set_self.
  - eapply leafBelow; [apply in_map_set_self|]. apply IH. discriminate.
Qed.

Lemma startsLike_cons (a : string) (p q : list string) :
  startsLike (a :: p) (a :: q) <-> startsLike p q.
Proof.
  unfold startsLike. split; intros (r & H); exists r.
  - now injection H.
  - cbn. now rewrite H.
Qed.

Lemma startsLike_nil (q : list string) : startsLike [] q.
Proof. now exists q. Qed.

(** A leaf stays where it is when an insertion does not collide with it. *)
Lemma insertParts_keeps (q : list string) (c' : SandboxChangeEntry) :
  forall (m : Map DirTree) (p : list string) (c : SandboxChangeEntry),
    uniqueKeys m -> leafAt p c m -> ~ collides p q ->
    leafAt p c (insertParts q c' m).
Proof.
  induction q as [|k rest IH]; intros m p c Hu Hleaf Hfree; [exact Hleaf|].
  rewrite insertParts_step. destruct Hu as [m Hnd Hu].
  inversion Hleaf as [name c0 m0 Hin|name sub path c0 m0 Hin Hsub]; subst.
  - (* the leaf is an entry of this map *)
    destruct (String.eqb_spec name k) as [->|Hne].
    + exfalso. apply Hfree. split; [discriminate|split; [discriminate|]]. left.
      apply startsLike_cons, startsLike_nil.
    + constructor. now apply in_map_set_other.
  - destruct (String.eqb_spec name k) as [->|Hne].
    + destruct rest as [|r0 rs].
      * exfalso. apply Hfree. split; [discriminate|split; [discriminate|]]. right.
        apply startsLike_cons, startsLike_nil.
      * eapply leafBelow; [apply in_map_set_self|].
        assert (Hget : map_get k m = Some (Dir sub)) by now apply in_map_get.
        unfold subOf. rewrite Hget. apply IH; [eauto|assumption|].
        intros (_ & _ & Hc). apply Hfree. split; [discriminate|split; [discriminate|]].
        destruct Hc as [Hc|Hc]; [left|right]; now apply startsLike_cons.
    + eapply leafBelow; [|exact Hsub]. now apply in_map_set_other.
Qed.

Lemma buildRoot_keeps (cwd : option string) (post : list SandboxChangeEntry) :
  forall (m : Map DirTree) (p : list string) (c : SandboxChangeEntry),
    uniqueKeys m -> leafAt p c m ->
    (forall c', In c' post -> ~ collides p (pathParts cwd c')) ->
    leafAt p c (fold_left (fun root c => insertParts (pathParts cwd c) c root) post m).
Proof.
  induction post as [|c0 post IH]; intros m p c Hu Hleaf Hfree; [exact Hleaf|].
  cbn [fold_left]. apply IH.
  - now apply insertParts_uniqueKeys.
  - apply insertParts_keeps; [assumption|assumption|]. apply Hfree. now left.
  - intros c' Hc'. apply Hfree. now right.
Qed.

(** From a leaf of the map to its node in the listing. *)
Lemma leaf_is_rendered (localeCompare : string -> string -> Z)
    (path : list string) (c : SandboxChangeEntry) (tree : Map DirTree) :
  leafAt path c tree ->
  forall prefix,
    nodeAt (removelast path) (nodeFromChange c) (toNodes localeCompare tree prefix).
Proof.
  induction 1 as [name c m Hin|name sub path c m Hin Hsub IH]; intros prefix.
  - cbn [removelast]. constructor. rewrite toNodes_eq.
    apply in_map_iff. exists (name, Leaf c). split; [reflexivity|].
    eapply Permutation_in; [symmetry; apply sortEntries_perm|exact Hin].
  - assert (Hp : path <> []) by (eapply leafAt_path_not_nil; eassumption).
    replace (removelast (name :: path)) with (name :: removelast path)
      by (destruct path; [contradiction|reflexivity]).
    change name with (label (renderEntry localeCompare prefix name (Dir sub))) at 1.
    eapply nodeAtBelow.
    + rewrite toNodes_eq. apply in_map_iff. exists (name, Dir sub).
      split; [reflexivity|].
      eapply Permutation_in; [symmetry; apply sortEntries_perm|exact Hin].
    + rewrite renderEntry_dir. reflexivity.
    + apply IH.
Qed.

(** X6: a change is shown unless a later one collides with it.  When the
    path of a change has a segment and no later change has a path that
    begins with it, or that it begins with, the hierarchy has the leaf of
    the change at its path, and the listing has its node under the folders
    named by the segments before the last. *)
Theorem change_without_collision_is_shown
    (localeCompare : string -> string -> Z)
    (pre post : list SandboxChangeEntry) (c : SandboxChangeEntry)
    (cwd : option string)
    (Hparts : pathParts cwd c <> [])
    (Hfree : forall c', In c' post -> ~ collides (pathParts cwd c) (pathParts cwd c')) :
  leafAt (pathParts cwd c) c (buildRoot (pre ++ c :: post) cwd)
  /\ nodeAt (removelast (pathParts cwd c)) (nodeFromChange c)
       (buildDirectoryHierarchy localeCompare (pre ++ c :: post) cwd).
Proof.
  assert (Hleaf : leafAt (pathParts cwd c) c (buildRoot (pre ++ c :: post) cwd)).
  { unfold buildRoot. rewrite fold_left_app. cbn [fold_left].
    apply buildRoot_keeps; [| |exact Hfree].
    - apply insertParts_uniqueKeys. apply (buildRoot_uniqueKeys pre cwd).
    - now apply insertParts_inserted. }
  split; [exact Hleaf|]. now apply leaf_is_rendered.
Qed.

Lemma change_without_collision_witness :
  nodeAt ["b"] (nodeFromChange (entryFor "/w/b/c.txt" "create"))
    (buildDirectoryHierarchy unitCompare
       ([entryFor "/w/a.txt" "modify"]
        ++ entryFor "/w/b/c.txt" "create" :: [entryFor "/w/b/d.txt" "create"])
       (Some "/w")).
Proof.
  apply (change_without_collision_is_shown unitCompare
           [entryFor "/w/a.txt" "modify"] [entryFor "/w/b/d.txt" "create"]
           (entryFor "/w/b/c.txt" "create") (Some "/w")).
  - discriminate.
  - intros c' [<-|[]] (_ & _ & [(r & H)|(r & H)]); vm_compute in H; discriminate.
Defined.

(** The segments of a path are all empty exactly when the path is made
    of slashes. *)
Lemma parts_nil_iff (s : string) :
  filter nonEmpty (split "/" s) = [] <-> onlySlashes s = true.
Proof.
  unfold onlySlashes. induction s as [|c r IH]; [cbn; tauto|].
  cbn [split list_ascii_of_string forallb].
  rewrite (Ascii.eqb_sym "/"%char c).
  destruct (Ascii.eqb c "/"); cbn [andb].
  - cbn [filter nonEmpty String.length Nat.ltb Nat.leb]. exact IH.
  - pose proof (split_not_nil "/" r) as Hne.
    destruct (split "/" r) as [|h t]; [contradiction|].
    cbn. split; discriminate.
Qed.

Lemma fold_insert_filter (cwd : option string) (changes : list SandboxChangeEntry) :
  forall root,
    fold_left (fun root c => insertParts (pathParts cwd c) c root) changes root
    = fold_left (fun root c => insertParts (pathParts cwd c) c root)
        (filter (hasSegment cwd) changes) root.
Proof.
  induction changes as [|c changes IH]; intros root; [reflexivity|].
  cbn [fold_left filter]. unfold hasSegment at 1.
  destruct (onlySlashes (relPath cwd c)) eqn:E; cbn [negb fold_left].
  - apply parts_nil_iff in E.
    assert (Hp : pathParts cwd c = []) by exact E. rewrite Hp. apply IH.
  - apply IH.
Qed.

(** X7: a change whose path, after the workspace folder is taken off, is
    empty or made of slashes only has no segment and is not shown: the
    hierarchy is that of the other changes. *)
Theorem changes_without_segment_are_not_shown
    (localeCompare : string -> string -> Z)
    (changes : list SandboxChangeEntry) (cwd : option string) :
  buildDirectoryHierarchy localeCompare changes cwd
  = buildDirectoryHierarchy localeCompare (filter (hasSegment cwd) changes) cwd
  /\ forall c, hasSegment cwd c = false <-> pathParts cwd c = [].
Proof.
  split.
  - unfold buildDirectoryHierarchy, buildRoot. now rewrite fold_insert_filter.
  - intros c. unfold hasSegment, pathParts. rewrite parts_nil_iff.
    destruct (onlySlashes (relPath cwd c)); cbn; split; congruence.
Qed.

Lemma foldersFilled_nil : foldersFilled [].
Proof. constructor. intros name sub []. Qed.

Lemma foldersFilled_sub (part : string) (m : Map DirTree) :
  foldersFilled m -> foldersFilled (subOf part m).
Proof.
  intros [m0 H]. unfold subOf. destruct (map_get part m0) as [[c|next]|] eqn:E;
    try apply foldersFilled_nil.
  apply map_get_in in E. now apply H in E.
Qed.

Lemma insertParts_filled (parts : list string) (c : SandboxChangeEntry) :
  forall m, foldersFilled m -> foldersFilled (insertParts parts c m).
Proof.
  induction parts as [|part rest IH]; intros m Hm; [exact Hm|].
  rewrite insertParts_step. constructor. intros name sub Hin.
  apply in_map_set in Hin. destruct Hin as [Heq|[Hin _]].
  - destruct rest as [|r0 rs]; [discriminate|].
    assert (Hs : sub = insertParts (r0 :: rs) c (subOf part m)) by congruence.
    rewrite Hs. split.
    + apply insertParts_not_nil. discriminate.
    + apply IH, foldersFilled_sub, Hm.
  - destruct Hm as [m0 H]. exact (H _ _ Hin).
Qed.

Lemma buildRoot_filled (changes : list SandboxChangeEntry) (cwd : option string) :
  foldersFilled (buildRoot changes cwd).
Proof.
  unfold buildRoot.
  assert (H : forall root, foldersFilled root ->
            foldersFilled (fold_left
              (fun root c => insertParts (pathParts cwd c) c root) changes root)).
  { induction changes as [|c changes IH]; intros root Hr; [exact Hr|].
    cbn [fold_left]. apply IH. now apply insertParts_filled. }
  apply H, foldersFilled_nil.
Qed.

Lemma toNodes_not_nil (localeCompare : string -> string -> Z)
    (tree : Map DirTree) (prefix : string) :
  tree <> [] -> toNodes localeCompare tree prefix <> [].
Proof.
  intros Hne Hnil. rewrite toNodes_eq in Hnil.
  apply map_eq_nil in Hnil.
  pose proof (sortEntries_perm localeCompare tree) as Hp. rewrite Hnil in Hp.
  apply Permutation_nil in Hp. contradiction.
Qed.

Lemma pathBelow_truthy (names : list string) :
  forall prefix, prefix <> EmptyString ->
    pathBelow prefix names = join "/" (prefix :: names).
Proof.
  unfold pathBelow.
  induction names as [|n names IH]; intros prefix Hp; [reflexivity|].
  cbn [fold_left]. unfold folderPathOf at 2, truthy.
  destruct (String.eqb_spec prefix "") as [->|_]; [contradiction|]. cbn [negb].
  rewrite IH by (destruct prefix; [contradiction|discriminate]).
  destruct names as [|n' names']; [reflexivity|].
  rewrite !join_cons, !append_assoc. reflexivity.
Qed.

Lemma pathBelow_top (names : list string) :
  Forall (fun n => n <> EmptyString) names ->
  pathBelow "" names = join "/" names.
Proof.
  destruct names as [|n names]; [reflexivity|]. intros H.
  unfold pathBelow. cbn [fold_left]. change (folderPathOf "" n) with n.
  apply (pathBelow_truthy names n). now inversion H.
Qed.

(** A folder node of the listing of [tree] under [prefix], reached
    through [folders]: it is the node [toNodes] makes for the path it
    has reached, and it has children. *)
Lemma rendered_folders (localeCompare : string -> string -> Z)
    (folders : list string) :
  forall (f : SandboxNode) (kids : list SandboxNode) (tree : Map DirTree)
         (prefix : string),
    nodeAt folders f (toNodes localeCompare tree prefix) ->
    children f = Some kids ->
    foldersFilled tree ->
    f = folderNode (label f) (pathBelow prefix (folders ++ [label f])) kids
    /\ kids <> []
    /\ Forall (fun n => nameIn n tree) (folders ++ [label f]).
Proof.
  induction folders as [|g folders IH]; intros f kids tree prefix Hat Hkids Hfill.
  - inversion Hat as [n ns Hin|]; subst.
    apply in_toNodes in Hin. destruct Hin as (name & value & Hin & ->).
    destruct value as [c|sub]; [discriminate|].
    rewrite renderEntry_dir in *. cbn in Hkids. injection Hkids as <-.
    destruct Hfill as [m Hfill]. destruct (Hfill _ _ Hin) as [Hne _].
    cbn [label folderNode withChildren withCommand withIcon newSandboxNode app].
    repeat split.
    + now apply toNodes_not_nil.
    + constructor; [|constructor]. eapply nameHere; eassumption.
  - inversion Hat as [|f0 kids0 folders0 n ns Hin Hk0 Hbelow]; subst.
    apply in_toNodes in Hin. destruct Hin as (name & value & Hin & ->).
    destruct value as [c|sub]; [discriminate|].
    rewrite renderEntry_dir in *. cbn in Hk0. injection Hk0 as <-.
    destruct Hfill as [m Hfill]. destruct (Hfill _ _ Hin) as [_ Hsub].
    destruct (IH _ _ _ _ Hbelow Hkids Hsub) as (Hf & Hne & Hnames).
    cbn [label folderNode withChildren withCommand withIcon newSandboxNode app].
    repeat split.
    + exact Hf.
    + exact Hne.
    + constructor; [eapply nameHere; eassumption|].
      eapply Forall_impl; [|exact Hnames]. intros a Ha.
      eapply nameBelow; eassumption.
Qed.

(** X8: the folder nodes of the hierarchy.  A node with children, reached
    by opening the folders [folders], is a collapsed folder that is not
    empty; its path is the names of the folders down to its own, joined
    with slashes, and a click on it runs [sandbox.diff] on that path
    followed by [/**]. *)
Theorem folder_nodes_carry_their_path
    (localeCompare : string -> string -> Z)
    (changes : list SandboxChangeEntry) (cwd : option string)
    (folders : list string) (f : SandboxNode) (kids : list SandboxNode)
    (Hat : nodeAt folders f (buildDirectoryHierarchy localeCompare changes cwd))
    (Hkids : children f = Some kids) :
  let folderPath := join "/" (folders ++ [label f]) in
  kids <> []
  /\ targetPath f = Some folderPath
  /\ command f = Some (diffOn (folderPath ++ "/**"))
  /\ contextValue f = "folder"
  /\ collapsibleState f = Collapsed
  /\ iconPath f = Some "folder".
Proof.
  cbv zeta.
  destruct (rendered_folders localeCompare folders f kids
              (buildRoot changes cwd) "" Hat Hkids (buildRoot_filled changes cwd))
    as (Hf & Hne & Hnames).
  rewrite pathBelow_top in Hf.
  - split; [exact Hne|]. rewrite Hf. cbn. repeat split.
  - eapply Forall_impl; [|exact Hnames]. intros a Ha.
    exact (buildRoot_names changes cwd a Ha).
Qed.

Lemma folder_nodes_witness :
  targetPath (folderNode "m" "m" [nodeFromChange (entryFor "/w/m/x" "create")])
  = Some "m"
  /\ command (folderNode "m" "m" [nodeFromChange (entryFor "/w/m/x" "create")])
     = Some (diffOn "m/**").
Proof.
  pose proof (folder_nodes_carry_their_path unitCompare sampleChanges (Some "/w") []
                (folderNode "m" "m" [nodeFromChange (entryFor "/w/m/x" "create")])
                [nodeFromChange (entryFor "/w/m/x" "create")]) as H.
  cbv zeta in H.
  destruct H as (_ & Ht & Hc & _).
  - constructor. vm_compute. right. right. left. reflexivity.
  - reflexivity.
  - split; [exact Ht|exact Hc].
Defined.

Lemma nodeIn_cases (n : SandboxNode) (ns : list SandboxNode) :
  nodeIn n ns ->
  exists f, In f ns
            /\ (n = f \/ exists kids, children f = Some kids /\ nodeIn n kids).
Proof.
  intros H. inversion H as [n0 ns0 Hin|f kids n0 ns0 Hin Hk Hbelow]; subst.
  - exists n. split; [exact Hin|now left].
  - exists f. split; [exact Hin|right]. now exists kids.
Qed.

(** The nodes of a rendered hierarchy are change nodes and folder
    nodes. *)
Lemma listing_nodes (localeCompare : string -> string -> Z)
    (n : SandboxNode) (ns : list SandboxNode) :
  nodeIn n ns ->
  forall (tree : Map DirTree) (prefix : string),
    ns = toNodes localeCompare tree prefix ->
    (exists c, n = nodeFromChange c)
    \/ (exists name folderPath kids, n = folderNode name folderPath kids).
Proof.
  induction 1 as [n ns Hin|f kids n ns Hin Hk Hbelow IH]; intros tree prefix ->.
  - apply in_toNodes in Hin. destruct Hin as (name & [c|sub] & _ & ->).
    + left. now exists c.
    + right. rewrite renderEntry_dir. eauto.
  - apply in_toNodes in Hin. destruct Hin as (name & [c|sub] & _ & ->).
    + discriminate.
    + rewrite renderEntry_dir in Hk. cbn in Hk. injection Hk as <-.
      eapply IH. reflexivity.
Qed.

Lemma in_groupNodes (localeCompare : string -> string -> Z)
    (changes : list SandboxChangeEntry) (cwd : string) (f : SandboxNode) :
  In f (groupNodes localeCompare changes cwd) ->
  exists op list, f = groupNode localeCompare op list cwd.
Proof.
  unfold groupNodes, orderedGroupNodes, otherGroupNodes.
  rewrite in_app_iff, !in_flat_map. intros [(o & _ & H)|([o l] & _ & H)].
  - destruct (map_get o (groupByOperation changes)) as [l|]; [|contradiction].
    destruct (length l =? 0)%nat; [contradiction|].
    destruct H as [<-|[]]. eauto.
  - cbn [fst snd] in H. destruct (isOneOf o order); [contradiction|].
    destruct H as [<-|[]]. eauto.
Qed.

(** X9: expanding a node of the listing never runs the CLI.  Every node
    of the listing of a folder that can be expanded (the Actions group,
    an operation group, a folder of the hierarchy) holds its children,
    and [getChildren] on it returns them, whatever the provider, the
    workspace folders and the status call are. *)
Theorem expanding_a_listed_node_returns_its_children
    (localeCompare : string -> string -> Z)
    (inOverlay hasOriginal : bool) (cwd : string)
    (status : result (list SandboxChangeEntry)) (n : SandboxNode)
    (Hin : nodeIn n (folderChildren localeCompare inOverlay hasOriginal cwd status))
    (Hexp : collapsibleState n <> StateNone) :
  exists kids,
    children n = Some kids
    /\ forall this folders fetch,
         getChildren localeCompare this folders fetch (Some n) = kids.
Proof.
  assert (Hfolder : forall name folderPath kids,
            exists kids',
              children (folderNode name folderPath kids) = Some kids'
              /\ forall this folders fetch,
                   getChildren localeCompare this folders fetch
                     (Some (folderNode name folderPath kids)) = kids').
  { intros name fp kids. exists kids. split; reflexivity. }
  assert (Hgroup : forall o l,
            exists kids',
              children (groupNode localeCompare o l cwd) = Some kids'
              /\ forall this folders fetch,
                   getChildren localeCompare this folders fetch
                     (Some (groupNode localeCompare o l cwd)) = kids').
  { intros o l. eexists. split; reflexivity. }
  assert (Hbelow : forall tree prefix,
            nodeIn n (toNodes localeCompare tree prefix) ->
            exists kids,
              children n = Some kids
              /\ forall this folders fetch,
                   getChildren localeCompare this folders fetch (Some n) = kids).
  { intros tree prefix H.
    destruct (listing_nodes localeCompare n _ H tree prefix eq_refl)
      as [(c & ->)|(name & fp & kids & ->)].
    - exfalso. apply Hexp. reflexivity.
    - apply Hfolder. }
  apply nodeIn_cases in Hin. destruct Hin as (f & Hf & Hn).
  unfold folderChildren in Hf. destruct status as [changes|message].
  - rewrite !in_app_iff in Hf. destruct Hf as [Hf|[Hf|Hf]].
    + (* the overlay indicator *)
      destruct inOverlay; [|contradiction]. destruct Hf as [<-|[]].
      destruct Hn as [->|(kids & Hk & _)]; [|discriminate].
      exfalso. apply Hexp. reflexivity.
    + (* the Actions group and its actions *)
      destruct Hf as [<-|[]]. destruct Hn as [->|(kids & Hk & Hunder)].
      * unfold buildActionsGroupNode. destruct inOverlay.
        -- eexists. split; reflexivity.
        -- eexists. split; reflexivity.
      * exfalso. apply Hexp.
        apply nodeIn_cases in Hunder. destruct Hunder as (a & Ha & Hna).
        assert (Haction : exists l c i, a = makeAction l c i).
        { unfold buildActionsGroupNode in Hk.
          destruct inOverlay; cbn in Hk; injection Hk as <-.
          - destruct hasOriginal; cbn in Ha;
              repeat (destruct Ha as [<-|Ha]; [eauto|]); contradiction.
          - cbn in Ha.
            repeat (destruct Ha as [<-|Ha]; [eauto|]); contradiction. }
        destruct Haction as (l & c & i & ->).
        destruct Hna as [->|(kids' & Hk' & _)]; [reflexivity|discriminate].
    + (* an operation group and the hierarchy below it *)
      apply in_groupNodes in Hf. destruct Hf as (o & l & ->).
      destruct Hn as [->|(kids & Hk & Hunder)]; [apply Hgroup|].
      cbn in Hk. injection Hk as <-. eapply Hbelow. exact Hunder.
  - destruct Hf as [<-|[]].
    destruct Hn as [->|(kids & Hk & _)]; [|discriminate].
    exfalso. apply Hexp. reflexivity.
Qed.

Lemma expanding_a_listed_node_witness :
  exists kids,
    children (groupNode unitCompare "create" [entryFor "/w/a.txt" "create"] "/w")
    = Some kids
    /\ forall this folders fetch,
         getChildren unitCompare this folders fetch
           (Some (groupNode unitCompare "create" [entryFor "/w/a.txt" "create"] "/w"))
         = kids.
Proof.
  apply (expanding_a_listed_node_returns_its_children unitCompare false false "/w"
           (Ok [entryFor "/w/a.txt" "create"])).
  - constructor. vm_compute. right. left. reflexivity.
  - discriminate.
Defined.

(** X10: several workspace folders.  With more than one folder the root
    lists one node per folder, in order; expanding the node of a folder
    with a path gives what a provider made for that folder alone lists at
    its root, which is the single error node when the status call
    fails. *)
Theorem workspace_node_expands_like_a_single_root
    (localeCompare : string -> string -> Z)
    (this : Provider) (folders : list WorkspaceFolder)
    (fetch : string -> result (list SandboxChangeEntry))
    (f : WorkspaceFolder) (Hpath : fsPath f <> EmptyString) :
  let alone := {| workspaceFolder := Some f;
                  inOverlayRoot := inOverlayRoot this;
                  hasOriginalWorkspace := hasOriginalWorkspace this |} in
  (1 < length folders ->
   getChildren localeCompare this folders fetch None = map workspaceNode folders)
  /\ getChildren localeCompare this folders fetch (Some (workspaceNode f))
     = getChildren localeCompare alone [] fetch None
  /\ (forall message, fetch (fsPath f) = Throw message ->
        getChildren localeCompare this folders fetch (Some (workspaceNode f))
        = [errorNode message]).
Proof.
  cbv zeta.
  assert (Ht : truthy (fsPath f) = true).
  { unfold truthy. now destruct (String.eqb_spec (fsPath f) ""). }
  assert (Hexp : getChildren localeCompare this folders fetch (Some (workspaceNode f))
                 = folderChildren localeCompare (inOverlayRoot this)
                     (hasOriginalWorkspace this) (fsPath f) (fetch (fsPath f))).
  { unfold getChildren. cbn [op targetPath workspaceNode withIcon newSandboxNode].
    rewrite Ht. reflexivity. }
  split; [|split].
  - intros Hlen. unfold getChildren.
    destruct (Nat.leb_spec (length folders) 1); [lia|reflexivity].
  - rewrite Hexp. unfold getChildren. cbn. now rewrite Ht.
  - intros message Hm. rewrite Hexp, Hm. reflexivity.
Qed.

Lemma workspace_node_witness :
  getChildren unitCompare
    {| workspaceFolder := None; inOverlayRoot := false; hasOriginalWorkspace := false |}
    [{| folder_name := "a"; fsPath := "/a" |}; {| folder_name := "b"; fsPath := "/b" |}]
    (fun _ => Throw "no sandbox")
    (Some (workspaceNode {| folder_name := "b"; fsPath := "/b" |}))
  = [errorNode "no sandbox"].
Proof.
  refine (proj2 (proj2 (workspace_node_expands_like_a_single_root unitCompare _ _ _
                          {| folder_name := "b"; fsPath := "/b" |} _)) "no sandbox" eq_refl).
  discriminate.
Defined.

(** *** The listing does not depend on the order of the report *)

Lemma unitCompare_antisym (a b : string) :
  (unitCompare a b <= 0)%Z -> (unitCompare b a <= 0)%Z -> a = b.
Proof.
  unfold unitCompare. rewrite (OrderedTypeEx.String_as_OT.cmp_antisym b a).
  destruct (OrderedTypeEx.String_as_OT.cmp a b) eqn:E; cbn; try lia.
  intros _ _. now apply OrderedTypeEx.String_as_OT.cmp_eq.
Qed.

Section Canonical.
Variable localeCompare : string -> string -> Z.
Hypothesis localeCompare_total :
  forall a b, (localeCompare a b <= 0)%Z \/ (localeCompare b a <= 0)%Z.
Hypothesis localeCompare_trans :
  forall a b c, (localeCompare a b <= 0)%Z -> (localeCompare b c <= 0)%Z ->
                (localeCompare a c <= 0)%Z.
(** No two different names compare as equal. *)
Hypothesis localeCompare_antisym :
  forall a b, (localeCompare a b <= 0)%Z -> (localeCompare b a <= 0)%Z -> a = b.

(** With keys that differ, a list has one sorted arrangement. *)
Lemma sorted_arrangement_unique {V} (l1 : list (string * V)) :
  forall l2,
    StronglySorted (byName localeCompare) l1 ->
    StronglySorted (byName localeCompare) l2 ->
    Permutation l1 l2 -> NoDup (map fst l1) -> l1 = l2.
Proof.
  induction l1 as [|x r1 IH]; intros l2 H1 H2 Hp Hnd.
  - apply Permutation_nil in Hp. now subst.
  - destruct l2 as [|y r2]; [apply Permutation_sym, Permutation_nil in Hp; discriminate|].
    apply StronglySorted_inv in H1. destruct H1 as [Hs1 Hx].
    apply StronglySorted_inv in H2. destruct H2 as [Hs2 Hy].
    rewrite Forall_forall in Hx, Hy.
    assert (Hxy : x = y).
    { assert (Hyin : In y (x :: r1))
        by (eapply Permutation_in; [symmetry; exact Hp|now left]).
      assert (Hxin : In x (y :: r2))
        by (eapply Permutation_in; [exact Hp|now left]).
      destruct Hyin as [Hyx|Hyin]; [exact Hyx|].
      destruct Hxin as [Hxy|Hxin]; [now symmetry|].
      exfalso. inversion Hnd as [|k ks Hnotin _]; subst.
      apply Hnotin.
      rewrite (localeCompare_antisym (fst x) (fst y) (Hx _ Hyin) (Hy _ Hxin)).
      now apply in_map. }
    subst y. f_equal. apply IH; try assumption.
    + eapply Permutation_cons_inv. exact Hp.
    + now inversion Hnd.
Qed.

Lemma sortEntries_canonical {V} (l1 l2 : list (string * V)) :
  Permutation l1 l2 -> NoDup (map fst l1) ->
  sortEntries localeCompare l1 = sortEntries localeCompare l2.
Proof.
  intros Hp Hnd. apply sorted_arrangement_unique.
  - now apply sortEntries_sorted.
  - now apply sortEntries_sorted.
  - rewrite (sortEntries_perm localeCompare l1), Hp.
    symmetry. apply sortEntries_perm.
  - eapply Permutation_NoDup; [|exact Hnd].
    apply Permutation_map. symmetry. apply sortEntries_perm.
Qed.

Lemma height_entry (k : string) (sub : Map DirTree) (m : Map DirTree) :
  In (k, Dir sub) m -> mapHeight sub < mapHeight m.
Proof.
  unfold mapHeight. induction m as [|[k' t] m IH]; [contradiction|].
  intros [[= -> ->]|Hin]; cbn [map fold_right snd height].
  - fold (mapHeight sub). unfold mapHeight. lia.
  - specialize (IH Hin). lia.
Qed.

Lemma foldersFilled_inv (m : Map DirTree) (k : string) (sub : Map DirTree) :
  foldersFilled m -> In (k, Dir sub) m -> sub <> [] /\ foldersFilled sub.
Proof. intros [m0 H]. apply H. Qed.

Lemma uniqueKeys_NoDup (m : Map DirTree) : uniqueKeys m -> NoDup (map fst m).
Proof. now intros [m0 H _]. Qed.

Lemma uniqueKeys_sub (m : Map DirTree) (k : string) (sub : Map DirTree) :
  uniqueKeys m -> In (k, Dir sub) m -> uniqueKeys sub.
Proof. intros [m0 _ H]. apply H. Qed.

(** A map that is not empty, with no empty folder in it, has a leaf. *)
Lemma filled_has_leaf (n : nat) :
  forall m, mapHeight m < n -> foldersFilled m -> m <> [] ->
            exists path c, leafAt path c m.
Proof.
  induction n as [|n IH]; intros m Hh Hfill Hne; [lia|].
  destruct m as [|[k [c|sub]] m]; [contradiction| |].
  - exists [k], c. constructor. now left.
  - assert (Hin : In (k, Dir sub) ((k, Dir sub) :: m)) by now left.
    destruct (foldersFilled_inv _ _ _ Hfill Hin) as [Hsub Hfsub].
    apply height_entry in Hin.
    destruct (IH sub ltac:(lia) Hfsub Hsub) as (path & c & Hleaf).
    exists (k :: path), c. eapply leafBelow; [now left|exact Hleaf].
Qed.

Lemma leafAt_through (k : string) (sub : Map DirTree) (m : Map DirTree)
    (path : list string) (c : SandboxChangeEntry) :
  uniqueKeys m -> In (k, Dir sub) m -> path <> [] ->
  (leafAt (k :: path) c m <-> leafAt path c sub).
Proof.
  intros Hu Hin Hp. apply uniqueKeys_NoDup in Hu. split.
  - intros H. inversion H as [|k0 sub0 path0 c0 m1 Hin0 Hsub]; subst.
    + contradiction.
    + assert (Hget : map_get k m = Some (Dir sub)) by now apply in_map_get.
      assert (Hget0 : map_get k m = Some (Dir sub0)) by now apply in_map_get.
      rewrite Hget in Hget0. now injection Hget0 as ->.
  - intros H. eapply leafBelow; eassumption.
Qed.

(** An entry of one map has its like in a map with the same leaves. *)
Lemma sameLeaves_entry (m m' : Map DirTree) (k : string) (t : DirTree) :
  uniqueKeys m -> uniqueKeys m' -> foldersFilled m -> sameLeaves m m' ->
  In (k, t) m ->
  match t with
  | Leaf c => In (k, Leaf c) m'
  | Dir sub =>
      exists sub', In (k, Dir sub') m' /\ sameLeaves sub sub'
  end.
Proof.
  intros Hu Hu' Hfill Hsame Hin. destruct t as [c|sub].
  - assert (H : leafAt [k] c m') by (apply Hsame; now constructor).
    inversion H as [|k0 sub0 path0 c0 m1 Hin0 Hsub]; subst; [assumption|].
    now apply leafAt_path_not_nil in Hsub.
  - destruct (foldersFilled_inv _ _ _ Hfill Hin) as [Hne Hfsub].
    destruct (filled_has_leaf (S (mapHeight sub)) sub (le_n _) Hfsub Hne)
      as (path & c & Hleaf).
    assert (H : leafAt (k :: path) c m')
      by (apply Hsame; eapply leafBelow; eassumption).
    inversion H as [|k0 sub' path0 c0 m1 Hin' Hsub']; subst.
    + now apply leafAt_path_not_nil in Hleaf.
    + exists sub'. split; [exact Hin'|]. intros q d.
      destruct (list_eq_dec string_dec q []) as [->|Hq].
      * split; intros Hq; now apply leafAt_path_not_nil in Hq.
      * rewrite <- (leafAt_through k sub m q d Hu Hin Hq).
        rewrite <- (leafAt_through k sub' m' q d Hu' Hin' Hq).
        apply Hsame.
Qed.

Lemma sameLeaves_sym (m m' : Map DirTree) : sameLeaves m m' -> sameLeaves m' m.
Proof. intros H path c. symmetry. apply H. Qed.

(** Maps with the same leaves are listed the same way. *)
Lemma sameLeaves_toNodes (n : nat) :
  forall m m' prefix,
    mapHeight m < n ->
    uniqueKeys m -> uniqueKeys m' -> foldersFilled m -> foldersFilled m' ->
    sameLeaves m m' ->
    toNodes localeCompare m prefix = toNodes localeCompare m' prefix.
Proof.
  induction n as [|n IH]; intros m m' prefix Hh Hu Hu' Hf Hf' Hsame; [lia|].
  assert (Hrender : forall a b,
            uniqueKeys a -> uniqueKeys b -> foldersFilled a -> foldersFilled b ->
            sameLeaves a b ->
            (mapHeight a < S n \/ mapHeight b < S n) ->
            forall e, In e a ->
              In (fst e, renderEntry localeCompare prefix (fst e) (snd e))
                 (map (fun e => (fst e, renderEntry localeCompare prefix (fst e) (snd e))) b)).
  { intros a b Ha Hb Hfa Hfb Hab Hha [k t] Hin. cbn [fst snd].
    pose proof (sameLeaves_entry a b k t Ha Hb Hfa Hab Hin) as H.
    destruct t as [c|sub].
    - apply in_map_iff. exists (k, Leaf c). split; [reflexivity|exact H].
    - destruct H as (sub' & Hin' & Hsub).
      apply in_map_iff. exists (k, Dir sub'). split; [|exact Hin'].
      cbn [fst snd]. f_equal. rewrite !renderEntry_dir. f_equal.
      pose proof (uniqueKeys_sub _ _ _ Ha Hin) as Hus.
      pose proof (uniqueKeys_sub _ _ _ Hb Hin') as Hus'.
      pose proof (proj2 (foldersFilled_inv _ _ _ Hfa Hin)) as Hfs.
      pose proof (proj2 (foldersFilled_inv _ _ _ Hfb Hin')) as Hfs'.
      destruct Hha as [Hha|Hhb].
      + symmetry. apply IH; try assumption.
        apply height_entry in Hin. lia.
      + apply IH; try assumption.
        * apply height_entry in Hin'. lia.
        * now apply sameLeaves_sym. }
  unfold toNodes. f_equal. apply sortEntries_canonical.
  - apply NoDup_Permutation.
    + apply (NoDup_map_inv fst). rewrite map_map. cbn [fst].
      now apply uniqueKeys_NoDup.
    + apply (NoDup_map_inv fst). rewrite map_map. cbn [fst].
      now apply uniqueKeys_NoDup.
    + intros x. split; intros Hx; apply in_map_iff in Hx;
        destruct Hx as (e & <- & He).
      * apply Hrender with (a := m); auto.
      * apply Hrender with (a := m'); auto. now apply sameLeaves_sym.
  - rewrite map_map. cbn [fst]. now apply uniqueKeys_NoDup.
Qed.

End Canonical.

Lemma collides_sym (p q : list string) : collides p q -> collides q p.
Proof. intros (Hp & Hq & H). repeat split; try assumption. tauto. Qed.

Lemma collisionFree_perm (cwd : option string)
    (changes changes' : list SandboxChangeEntry) :
  Permutation changes changes' ->
  collisionFree cwd changes -> collisionFree cwd changes'.
Proof.
  unfold collisionFree.
  induction 1 as [|x l l' Hp IH|x y l|l l' l'' _ IH1 _ IH2]; intros H.
  - exact H.
  - inversion H as [|a r Hx Hl]; subst. constructor; [|now apply IH].
    eapply Permutation_Forall; eassumption.
  - inversion H as [|a r Hy Hl]; subst.
    inversion Hl as [|b r' Hx Hl']; subst.
    inversion Hy as [|b r' Hyx Hy']; subst.
    constructor; [|now constructor]. constructor; [|exact Hx].
    intros Hc. apply Hyx. now apply collides_sym.
  - auto.
Qed.

Lemma collisionFree_later (cwd : option string)
    (pre post : list SandboxChangeEntry) (c : SandboxChangeEntry) :
  collisionFree cwd (pre ++ c :: post) ->
  forall c', In c' post -> ~ collides (pathParts cwd c) (pathParts cwd c').
Proof.
  unfold collisionFree. induction pre as [|a pre IH]; cbn [app]; intros H.
  - inversion H as [|a r Hc _]; subst. now rewrite Forall_forall in Hc.
  - inversion H; subst. auto.
Qed.

(** The leaves of the hierarchy of changes that do not collide: one for
    each change with a segment, at its path. *)
Lemma collisionFree_leaves (cwd : option string)
    (changes : list SandboxChangeEntry) (path : list string)
    (c : SandboxChangeEntry) :
  collisionFree cwd changes ->
  (leafAt path c (buildRoot changes cwd)
   <-> In c changes /\ path = pathParts cwd c /\ path <> []).
Proof.
  intros Hfree. split.
  - intros H. pose proof (leafAt_path_not_nil _ _ _ H) as Hne.
    apply buildRoot_leafAt in H. destruct H as [[Hin Hp]|H]; [tauto|].
    inversion H as [? ? ? Hnone|? ? ? ? ? Hnone]; destruct Hnone.
  - intros (Hin & -> & Hne). apply in_split in Hin.
    destruct Hin as (pre & post & ->).
    unfold buildRoot. rewrite fold_left_app. cbn [fold_left].
    apply buildRoot_keeps.
    + apply insertParts_uniqueKeys. apply (buildRoot_uniqueKeys pre cwd).
    + now apply insertParts_inserted.
    + now apply collisionFree_later with (pre := pre).
Qed.

(** X11: the hierarchy does not depend on the order in which the changes
    are reported, when no path of a change is the beginning of the path of
    another and the comparison of names puts any two different names in
    one order. *)
Theorem hierarchy_ignores_the_order_of_the_report
    (localeCompare : string -> string -> Z)
    (Htotal : forall a b, (localeCompare a b <= 0)%Z \/ (localeCompare b a <= 0)%Z)
    (Htrans : forall a b c, (localeCompare a b <= 0)%Z -> (localeCompare b c <= 0)%Z ->
                            (localeCompare a c <= 0)%Z)
    (Hantisym : forall a b, (localeCompare a b <= 0)%Z -> (localeCompare b a <= 0)%Z ->
                            a = b)
    (changes changes' : list SandboxChangeEntry) (cwd : option string)
    (Hperm : Permutation changes changes')
    (Hfree : collisionFree cwd changes) :
  buildDirectoryHierarchy localeCompare changes cwd
  = buildDirectoryHierarchy localeCompare changes' cwd.
Proof.
  unfold buildDirectoryHierarchy.
  apply (sameLeaves_toNodes localeCompare Htotal Htrans Hantisym
           (S (mapHeight (buildRoot changes cwd)))).
  - apply le_n.
  - apply buildRoot_uniqueKeys.
  - apply buildRoot_uniqueKeys.
  - apply buildRoot_filled.
  - apply buildRoot_filled.
  - intros path c.
    rewrite (collisionFree_leaves cwd changes path c Hfree).
    rewrite (collisionFree_leaves cwd changes' path c
               (collisionFree_perm cwd _ _ Hperm Hfree)).
    split; intros (Hin & Hrest); (split; [|exact Hrest]).
    + eapply Permutation_in; eassumption.
    + eapply Permutation_in; [symmetry|]; eassumption.
Qed.

Lemma hierarchy_order_witness :
  buildDirectoryHierarchy unitCompare
    [entryFor "/w/b/c.txt" "create"; entryFor "/w/a.txt" "modify";
     entryFor "/w/b/d.txt" "create"] (Some "/w")
  = buildDirectoryHierarchy unitCompare
      [entryFor "/w/a.txt" "modify"; entryFor "/w/b/d.txt" "create";
       entryFor "/w/b/c.txt" "create"] (Some "/w").
Proof.
  apply (hierarchy_ignores_the_order_of_the_report unitCompare
           unitCompare_total unitCompare_trans unitCompare_antisym).
  - apply (Permutation_cons_app
             [entryFor "/w/a.txt" "modify"; entryFor "/w/b/d.txt" "create"] []).
    rewrite app_nil_r. apply Permutation_refl.
  - unfold collisionFree.
    repeat (constructor;
            [repeat (constructor;
                     [intros (_ & _ & [(r & H)|(r & H)]); vm_compute in H; discriminate|]);
             constructor|]).
    constructor.
Defined.
End TreeExtras.

(** ** More of the commands and the diff helpers *)
Module ExtensionExtras.
Import Js Cli Tree Extension CliProps TreeProps ExtensionProps.
Import JsFacts CliFacts MapFacts HierarchyFacts RenderFacts ExtensionFacts HelperFacts.
Import TreeExtras.

(** *** [ensurePatterns] *)

Lemma countChar_chars (sep : ascii) (s : string) :
  countChar sep s = 0 <-> Forall (fun c => c <> sep) (list_ascii_of_string s).
Proof.
  induction s as [|c r IH]; cbn [countChar list_ascii_of_string].
  - split; [constructor|reflexivity].
  - destruct (Ascii.eqb_spec c sep) as [->|Hne].
    + split; [discriminate|]. intros H. inversion H. congruence.
    + cbn. rewrite IH. split; [now constructor|now inversion 1].
Qed.

Lemma split_pieces (sep : ascii) (s : string) :
  Forall (fun x => countChar sep x = 0) (split sep s).
Proof.
  induction s as [|c r IH]; cbn [split]; [repeat constructor|].
  destruct (Ascii.eqb c sep) eqn:E; [now constructor|].
  destruct (split sep r) as [|h t]; [repeat constructor; cbn; now rewrite E|].
  inversion IH; subst. constructor; [|assumption]. cbn. now rewrite E.
Qed.

Lemma dropWhite_Forall (P : ascii -> Prop) (l : list ascii) :
  Forall P l -> Forall P (dropWhite l).
Proof.
  induction 1 as [|c r Hc Hr IH]; cbn; [constructor|].
  destruct (isWhite c); [exact IH|now constructor].
Qed.

Lemma trim_keeps_free (sep : ascii) (s : string) :
  countChar sep s = 0 -> countChar sep (trim s) = 0.
Proof.
  rewrite !countChar_chars, chars_trim. intros H.
  apply Forall_rev, dropWhite_Forall, Forall_rev, dropWhite_Forall, H.
Qed.

Lemma dropWhite_last (l : list ascii) (d : ascii) :
  dropWhite l <> [] -> last (dropWhite l) d = last l d.
Proof.
  induction l as [|c r IH]; [reflexivity|]. cbn [dropWhite].
  destruct (isWhite c); [|reflexivity]. intros H. rewrite (IH H).
  destruct r; [now contradiction H|reflexivity].
Qed.

Lemma last_rev (l : list ascii) (c d : ascii) : last (rev (c :: l)) d = c.
Proof. cbn. apply last_last. Qed.

Lemma last_cons (c d : ascii) (r : list ascii) : last (c :: r) d = last r c.
Proof.
  revert c d. induction r as [|a r IH]; intros c d; [reflexivity|].
  change (last (c :: a :: r) d) with (last (a :: r) d).
  now rewrite (IH a d), (IH a c).
Qed.

Lemma hd_rev_last (l : list ascii) (d : ascii) :
  l <> [] -> hd d (rev l) = last l d.
Proof.
  induction l as [|a l IH]; [contradiction|]. intros _.
  destruct l as [|b l]; [reflexivity|].
  change (rev (a :: b :: l)) with (rev (b :: l) ++ [a]).
  change (last (a :: b :: l) d) with (last (b :: l) d).
  rewrite <- IH by discriminate.
  destruct (rev (b :: l)) eqn:E; [|reflexivity].
  apply (f_equal (@length ascii)) in E. rewrite length_rev in E. discriminate.
Qed.

(** The reverse of a list begins with the last element of the list. *)
Lemma hd_rev (c : ascii) (r : list ascii) :
  exists t, rev (c :: r) = last r c :: t /\ last t (last r c) = c.
Proof.
  pose proof (hd_rev_last (c :: r) c ltac:(discriminate)) as Hh.
  pose proof (last_rev r c c) as Hl.
  rewrite last_cons in Hh.
  destruct (rev (c :: r)) as [|x t] eqn:E.
  - apply (f_equal (@length ascii)) in E. rewrite length_rev in E. discriminate.
  - cbn [hd] in Hh. subst x. exists t. split; [reflexivity|].
    now rewrite last_cons in Hl.
Qed.

(** What [trim] gives has no white space at either end. *)
Lemma trim_edges (s : string) : edgesNotWhite (trim s) = true.
Proof.
  unfold edgesNotWhite. rewrite chars_trim.
  pose proof (dropWhite_head (list_ascii_of_string s)) as H1.
  destruct (dropWhite (list_ascii_of_string s)) as [|c1 r1] eqn:E1; [reflexivity|].
  pose proof (dropWhite_head (rev (c1 :: r1))) as H2.
  assert (Hne : dropWhite (rev (c1 :: r1)) <> []).
  { intros H. apply dropWhite_nil in H. rewrite forallb_rev in H.
    cbn in H. rewrite H1 in H. discriminate. }
  pose proof (dropWhite_last (rev (c1 :: r1)) c1 Hne) as Hl.
  rewrite last_rev in Hl.
  destruct (dropWhite (rev (c1 :: r1))) as [|c2 r2] eqn:E2; [contradiction|].
  destruct (hd_rev c2 r2) as (t & Ht & Hlast). rewrite Ht, Hlast.
  rewrite last_cons in Hl. rewrite Hl, H1, H2. reflexivity.
Qed.

(** [trim] leaves a text alone that has no white space at either end. *)
Lemma trim_id (s : string) : edgesNotWhite s = true -> trim s = s.
Proof.
  unfold edgesNotWhite. intros H. apply chars_inj. rewrite chars_trim.
  destruct (list_ascii_of_string s) as [|c r]; [reflexivity|].
  apply andb_prop in H. destruct H as [Hc Hl].
  apply negb_true_iff in Hc, Hl.
  rewrite (dropWhite_id c r Hc).
  destruct (hd_rev c r) as (t & Ht & _). rewrite Ht.
  rewrite (dropWhite_id _ t Hl), <- Ht. apply rev_involutive.
Qed.

Lemma nonEmpty_length (s : string) :
  (0 <? String.length s)%nat = true <-> s <> EmptyString.
Proof. destruct s; cbn; split; congruence. Qed.

(** X12: what [ensurePatterns] hands on.  An array of strings given as
    argument is handed on as it is, without the input box.  Otherwise
    there is nothing to hand on exactly when the box is dismissed or left
    empty; the patterns typed are not empty, have no white space around
    them and no comma in them; and a text of white space and commas only
    gives the empty list of patterns, not nothing. *)
Theorem ensurePatterns_hands_on_clean_patterns
    (arg : option (list string)) (input : option string) :
  (forall patterns, arg = Some patterns ->
     ensurePatterns arg input = Some patterns)
  /\ (arg = None ->
      (ensurePatterns arg input = None
       <-> input = None \/ input = Some EmptyString)
      /\ (forall patterns, ensurePatterns arg input = Some patterns ->
            Forall cleanPattern patterns)
      /\ (forall text, input = Some text -> text <> EmptyString ->
            onlySeparators text = true ->
            ensurePatterns arg input = Some [])).
Proof.
  split; [now intros patterns ->|]. intros ->. unfold ensurePatterns.
  split; [|split].
  - destruct input as [text|]; [|tauto]. unfold truthy.
    destruct (String.eqb_spec text ""); cbn [negb].
    + subst. tauto.
    + split; [discriminate|]. intros [H|H]; congruence.
  - intros patterns H. destruct input as [text|]; [|discriminate].
    destruct (truthy text); [|discriminate]. injection H as <-.
    apply Forall_forall. intros p Hp. apply filter_In in Hp.
    destruct Hp as [Hp Hlen]. apply in_map_iff in Hp. destruct Hp as (x & <- & Hx).
    repeat split.
    + now apply nonEmpty_length.
    + apply trim_edges.
    + apply trim_keeps_free.
      pose proof (split_pieces "," text) as Hs. rewrite Forall_forall in Hs. auto.
  - intros text [= ->] Hne Hsep. apply truthy_true in Hne. rewrite Hne. f_equal.
    apply filter_none. intros p Hp. apply in_map_iff in Hp.
    destruct Hp as (x & <- & Hx).
    assert (Hblank : isBlank x = true).
    { clear Hne. revert x Hx. unfold onlySeparators in Hsep. unfold isBlank.
      induction text as [|c r IH]; cbn [split list_ascii_of_string forallb] in *.
      - intros x [<-|[]]. reflexivity.
      - apply andb_prop in Hsep. destruct Hsep as [Hc Hr]. specialize (IH Hr).
        intros x Hx. destruct (Ascii.eqb c ",") eqn:E.
        + destruct Hx as [<-|Hx]; [reflexivity|auto].
        + rewrite orb_false_r in Hc.
          pose proof (split_not_nil "," r) as Hnn.
          destruct (split "," r) as [|h t]; [contradiction|].
          destruct Hx as [<-|Hx].
          * cbn. rewrite Hc. apply IH. now left.
          * apply IH. now right. }
    apply trim_empty in Hblank. rewrite Hblank. discriminate.
Qed.

Lemma join_not_empty (sep : string) (p : string) (ps : list string) :
  p <> EmptyString -> join sep (p :: ps) <> EmptyString.
Proof.
  intros Hp. destruct ps as [|q ps]; [exact Hp|].
  rewrite join_cons. destruct p; [contradiction|discriminate].
Qed.

(** X13: patterns typed into the input box come back as typed.  The
    comma-separated text of one or more patterns, each not empty, without
    white space around it and without a comma, is read back as the list
    of these patterns. *)
Theorem ensurePatterns_reads_back_a_joined_list
    (patterns : list string)
    (Hsome : patterns <> [])
    (Hclean : Forall cleanPattern patterns) :
  ensurePatterns None (Some (join "," patterns)) = Some patterns.
Proof.
  unfold ensurePatterns.
  destruct patterns as [|p ps]; [contradiction|].
  assert (Hne : join "," (p :: ps) <> EmptyString).
  { apply join_not_empty. inversion Hclean as [|? ? (Hp & _) _]. exact Hp. }
  apply truthy_true in Hne. rewrite Hne. f_equal.
  rewrite split_join.
  - rewrite filter_all.
    + rewrite <- (map_id (p :: ps)) at 2. apply map_ext_in.
      intros a Ha. rewrite Forall_forall in Hclean.
      destruct (Hclean a Ha) as (_ & He & _). now apply trim_id.
    + intros a Ha. apply in_map_iff in Ha. destruct Ha as (x & <- & Hx).
      rewrite Forall_forall in Hclean. destruct (Hclean x Hx) as (Hn & He & _).
      rewrite (trim_id x He). now apply nonEmpty_length.
  - discriminate.
  - unfold countIn, list_sum. clear Hne Hsome.
    induction Hclean as [|a l (_ & _ & Ha) _ IH]; [reflexivity|].
    cbn [map fold_right]. rewrite Ha. exact IH.
Qed.

Lemma ensurePatterns_reads_back_witness :
  ensurePatterns None (Some "src/**,docs/a b.md,*.ts")
  = Some ["src/**"; "docs/a b.md"; "*.ts"].
Proof.
  apply (ensurePatterns_reads_back_a_joined_list ["src/**"; "docs/a b.md"; "*.ts"]).
  - discriminate.
  - repeat constructor; discriminate.
Defined.

(** *** Temporary files *)

Lemma sanitize_safe (s : string) : allSafe (sanitize s) = true.
Proof.
  unfold allSafe. induction s as [|c r IH]; [reflexivity|].
  cbn [sanitize list_ascii_of_string forallb]. rewrite IH, andb_true_r.
  destruct (isSafeChar c) eqn:E; [exact E|reflexivity].
Qed.

Lemma sanitize_length (s : string) : String.length (sanitize s) = String.length s.
Proof. induction s as [|c r IH]; [reflexivity|]. cbn. now rewrite IH. Qed.

Lemma sanitize_id (s : string) : allSafe s = true -> sanitize s = s.
Proof.
  unfold allSafe. induction s as [|c r IH]; [reflexivity|].
  cbn [sanitize list_ascii_of_string forallb]. intros H.
  apply andb_prop in H. destruct H as [Hc Hr]. now rewrite Hc, IH.
Qed.

Lemma allSafe_no_slash (s : string) : allSafe s = true -> countChar "/" s = 0.
Proof.
  unfold allSafe. induction s as [|c r IH]; [reflexivity|].
  cbn [list_ascii_of_string forallb countChar]. intros H.
  apply andb_prop in H. destruct H as [Hc Hr]. rewrite (IH Hr).
  destruct (Ascii.eqb_spec c "/") as [->|_]; [discriminate Hc|reflexivity].
Qed.

(** X14: the name of an empty temporary file.  Whatever the prefix, the
    file name is not empty, is made of letters, digits, dots, underscores
    and hyphens, so holds no slash, and is as long as the prefix unless
    the prefix is empty; a prefix made of these characters is kept as it
    is. *)
Theorem temp_file_names_are_safe (prefix : string) :
  exists name,
    createTempEmptyFile prefix = TempEmptyFile name
    /\ name <> EmptyString
    /\ allSafe name = true
    /\ countChar "/" name = 0
    /\ (prefix <> EmptyString -> String.length name = String.length prefix)
    /\ (prefix <> EmptyString -> allSafe prefix = true -> name = prefix)
    /\ (prefix = EmptyString -> name = "empty").
Proof.
  unfold createTempEmptyFile. eexists. split; [reflexivity|].
  assert (Hcases : (sanitize prefix <> EmptyString
                    /\ or_str (sanitize prefix) "empty" = sanitize prefix)
                   \/ (sanitize prefix = EmptyString
                       /\ or_str (sanitize prefix) "empty" = "empty")).
  { unfold or_str, truthy.
    destruct (String.eqb_spec (sanitize prefix) ""); cbn [negb]; [right|left]; tauto. }
  assert (Hempty : sanitize prefix = EmptyString <-> prefix = EmptyString).
  { destruct prefix; cbn; split; congruence. }
  destruct Hcases as [[Hne ->]|[He ->]].
  - repeat split.
    + exact Hne.
    + apply sanitize_safe.
    + apply allSafe_no_slash, sanitize_safe.
    + intros _. apply sanitize_length.
    + intros _. apply sanitize_id.
    + intros H. apply Hempty in H. contradiction.
  - apply Hempty in He. subst prefix. repeat split; try discriminate; contradiction.
Qed.

(** *** The overlay mapping *)

Lemma map_get_delete {V} (k : string) (m : Map V) :
  map_get k (map_delete k m) = None.
Proof.
  unfold map_delete. induction m as [|[k' v] m IH]; [reflexivity|].
  cbn [filter fst]. destruct (String.eqb_spec k' k) as [->|Hne]; cbn [negb].
  - exact IH.
  - cbn [map_get]. destruct (String.eqb_spec k' k); [contradiction|exact IH].
Qed.

Lemma map_get_delete_other {V} (k k' : string) (m : Map V) :
  k' <> k -> map_get k' (map_delete k m) = map_get k' m.
Proof.
  intros Hne. unfold map_delete. induction m as [|[k0 v] m IH]; [reflexivity|].
  cbn [filter fst map_get]. destruct (String.eqb_spec k0 k) as [->|H0]; cbn [negb].
  - destruct (String.eqb_spec k k'); [congruence|exact IH].
  - cbn [map_get]. now rewrite IH.
Qed.

Lemma overlayKey_inj (a b : string) : overlayKey a = overlayKey b -> a = b.
Proof. unfold overlayKey. cbn. now intros [= ->]. Qed.

(** X15: back from the overlay.  Once the original folder is remembered
    for an overlay, [restoreWorkspaceFolder] run in the overlay opens that
    folder and forgets the mapping; run again it only warns; and the
    mappings of other overlays are as they were before. *)
Theorem restore_opens_the_remembered_folder_once
    (state : Map string) (overlay original : string)
    (Hoverlay : overlay <> EmptyString) (Horiginal : original <> EmptyString) :
  let remembered := rememberOverlayMapping state overlay original in
  let forgotten := forgetOverlayMapping remembered overlay in
  restoreWorkspaceFolder remembered (Some overlay)
  = ([OpenFolder original; UpdateSandboxContexts], forgotten)
  /\ restoreWorkspaceFolder forgotten (Some overlay)
     = ([ShowWarningMessage noOriginalWarning; UpdateSandboxContexts], forgotten)
  /\ hasOriginal remembered (Some overlay) = true
  /\ hasOriginal forgotten (Some overlay) = false
  /\ forall other, other <> overlay ->
       recallOriginalForOverlay forgotten other
       = recallOriginalForOverlay state other.
Proof.
  cbv zeta. apply truthy_true in Hoverlay, Horiginal.
  unfold restoreWorkspaceFolder, hasOriginal, recallOriginalForOverlay,
    forgetOverlayMapping, rememberOverlayMapping.
  rewrite Hoverlay, map_get_set, map_get_delete. cbn [truthy_opt].
  rewrite Horiginal. repeat split.
  intros other Hne.
  assert (Hk : overlayKey other <> overlayKey overlay)
    by (intros H; apply overlayKey_inj in H; contradiction).
  rewrite map_get_delete_other by exact Hk.
  apply map_get_set_other. congruence.
Qed.

Lemma restore_witness :
  restoreWorkspaceFolder (rememberOverlayMapping [] "/tmp/overlay" "/home/me/project")
    (Some "/tmp/overlay")
  = ([OpenFolder "/home/me/project"; UpdateSandboxContexts], []).
Proof.
  refine (proj1 (restore_opens_the_remembered_folder_once
                   [] "/tmp/overlay" "/home/me/project" _ _)); discriminate.
Defined.

(** X16: the Restore action and the command agree.  In the overlay root the
    Actions group offers [Restore Workspace Folder] exactly when the
    command would open a folder rather than warn; outside the overlay
    root it is always offered. *)
Theorem restore_is_offered_when_it_would_work
    (state : Map string) (current : option string) (cwd : string)
    (inOverlay : bool) :
  let restore := makeAction "Restore Workspace Folder"
                   "sandbox.restoreWorkspaceFolder" "folder" in
  exists actions,
    children (buildActionsGroupNode cwd inOverlay (hasOriginal state current))
    = Some actions
    /\ (inOverlay = true ->
        (In restore actions
         <-> exists original,
               fst (restoreWorkspaceFolder state current)
               = [OpenFolder original; UpdateSandboxContexts]))
    /\ (inOverlay = false -> In restore actions)
    /\ (hasOriginal state current = true
        <-> exists original,
              fst (restoreWorkspaceFolder state current)
              = [OpenFolder original; UpdateSandboxContexts]).
Proof.
  cbv zeta.
  assert (Hlink : hasOriginal state current = true
                  <-> exists original,
                        fst (restoreWorkspaceFolder state current)
                        = [OpenFolder original; UpdateSandboxContexts]).
  { unfold hasOriginal, restoreWorkspaceFolder.
    destruct current as [cur|]; [|split; [discriminate|intros (o & H); discriminate]].
    destruct (truthy cur); [|split; [discriminate|intros (o & H); discriminate]].
    destruct (recallOriginalForOverlay state cur) as [o|]; cbn [truthy_opt].
    - destruct (truthy o); cbn [fst].
      + split; [eauto|reflexivity].
      + split; [discriminate|intros (o' & H); discriminate].
    - split; [discriminate|intros (o' & H); discriminate]. }
  unfold buildActionsGroupNode. destruct inOverlay.
  - eexists. split; [reflexivity|]. split; [|split; [discriminate|exact Hlink]].
    intros _. rewrite <- Hlink.
    destruct (hasOriginal state current); cbn.
    + split; [reflexivity|]. intros _. right. now left.
    + split; [|discriminate]. intros [H|[]]. discriminate.
  - eexists. split; [reflexivity|]. split; [discriminate|].
    split; [|exact Hlink]. intros _. cbn. do 8 right. now left.
Qed.

(** *** The textual diff *)




(** *** Accept and reject *)



(** *** What a click on a node selects *)

Lemma tokenize_literal (s rest : string) :
  countChar "*" s = 0 ->
  tokenize (s ++ rest)
  = map TLit (list_ascii_of_string s) ++ tokenize rest.
Proof.
  induction s as [|c r IH]; [reflexivity|].
  cbn [countChar String.append list_ascii_of_string map app].
  destruct (Ascii.eqb c "*") eqn:E; [discriminate|]. intros H.
  cbn [tokenize]. rewrite E. f_equal. apply IH, H.
Qed.

Lemma globMatches_literals (l : list ascii) (ts : list GlobToken) (s : list ascii) :
  globMatches (map TLit l ++ ts) s
  <-> exists rest, s = l ++ rest /\ globMatches ts rest.
Proof.
  revert s. induction l as [|c l IH]; intros s; cbn [map app].
  - split; [intros H; now exists s|now intros (rest & -> & H)].
  - split.
    + intros H. inversion H as [|c0 ts0 s0 Hrest| |]; subst.
      apply IH in Hrest. destruct Hrest as (rest & -> & Hr). now exists rest.
    + intros (rest & -> & H). constructor. apply IH. now exists rest.
Qed.

Lemma globMatches_nil_iff (s : list ascii) : globMatches [] s <-> s = [].
Proof. split; [now inversion 1|intros ->; constructor]. Qed.

Lemma globMatches_rest (s : list ascii) :
  globMatches [TDoubleStar] s <-> forallb (fun c => negb (isLineTerminator c)) s = true.
Proof.
  rewrite forallb_forall. split.
  - intros H. inversion H as [| | |run ts s0 Hrun Hnil]; subst.
    apply globMatches_nil_iff in Hnil. subst. rewrite app_nil_r.
    rewrite Forall_forall in Hrun. intros c Hc. now rewrite (Hrun c Hc).
  - intros H. rewrite <- (app_nil_r s). constructor; [|constructor].
    apply Forall_forall. intros c Hc. apply H in Hc.
    now destruct (isLineTerminator c).
Qed.

Lemma plainGlob_app (a b : string) :
  plainGlob a -> plainGlob b -> plainGlob (a ++ b).
Proof. unfold plainGlob. rewrite chars_app, Forall_app. tauto. Qed.

(** Selecting with one plain pattern, by what the pattern matches. *)
Lemma one_pattern_filter (changes : list SandboxChangeEntry) (pattern : string)
    (keep : SandboxChangeEntry -> bool) :
  plainGlob pattern ->
  (forall c, keep c = true
             <-> globMatches (tokenize pattern) (list_ascii_of_string (destination c))) ->
  filterChangesByPatterns changes [pattern] = Some (filter keep changes).
Proof.
  intros Hplain Hkeep.
  destruct (plain_patterns_filter changes [pattern]) as (keep' & -> & Hk').
  { now constructor. }
  f_equal. apply filter_ext. intros c.
  destruct (keep' c) eqn:E1, (keep c) eqn:E2; try reflexivity; exfalso.
  - apply Hk' in E1. destruct E1 as (p & [<-|[]] & Hm).
    apply Hkeep in Hm. congruence.
  - apply Hkeep in E2. assert (keep' c = true); [|congruence].
    apply Hk'. exists pattern. split; [now left|exact E2].
Qed.

(** X19: a click on a change selects it.  The node of a change runs
    [sandbox.diff] on the destination of the change; when the destination
    has no [*], [?] or [:], the pattern selects, among the changes of the
    status, exactly those with this destination, the change itself among
    them. *)
Theorem a_click_on_a_change_selects_it
    (changes : list SandboxChangeEntry) (c : SandboxChangeEntry)
    (Hin : In c changes)
    (Hdest : destination c <> EmptyString)
    (Hplain : plainGlob (destination c))
    (Hstar : countChar "*" (destination c) = 0) :
  command (nodeFromChange c) = Some (diffOn (destination c))
  /\ filterChangesByPatterns changes [destination c]
     = Some (filter (hasDestination (destination c)) changes)
  /\ In c (filter (hasDestination (destination c)) changes).
Proof.
  split; [|split].
  - unfold nodeFromChange, newSandboxNode, diffOn. cbn [command].
    apply truthy_true in Hdest. now rewrite Hdest.
  - apply one_pattern_filter; [exact Hplain|]. intros c'.
    rewrite <- (append_nil_r (destination c)) at 2.
    rewrite tokenize_literal by exact Hstar. cbn [tokenize].
    rewrite globMatches_literals. unfold hasDestination. split.
    + intros H. apply String.eqb_eq in H. rewrite H.
      exists []. split; [now rewrite app_nil_r|constructor].
    + intros (rest & Hs & Hnil). apply globMatches_nil_iff in Hnil. subst rest.
      rewrite app_nil_r in Hs. apply String.eqb_eq. now apply chars_inj.
  - apply filter_In. split; [exact Hin|]. apply String.eqb_refl.
Qed.

Lemma a_click_on_a_change_witness :
  filterChangesByPatterns
    [modified "/w/a.txt"; modified "/w/b.txt"; entryFor "/w/a.txt" "chmod"]
    ["/w/a.txt"]
  = Some [modified "/w/a.txt"; entryFor "/w/a.txt" "chmod"].
Proof.
  refine (proj1 (proj2 (a_click_on_a_change_selects_it
            [modified "/w/a.txt"; modified "/w/b.txt"; entryFor "/w/a.txt" "chmod"]
            (modified "/w/a.txt") _ _ _ _))).
  - now left.
  - discriminate.
  - unfold plainGlob. cbn. repeat constructor; discriminate.
  - reflexivity.
Defined.

Lemma isUnder_spec (folder : string) (c : SandboxChangeEntry) :
  isUnder folder c = true
  <-> exists rest,
        list_ascii_of_string (destination c)
        = list_ascii_of_string folder ++ "/"%char :: rest
        /\ forallb (fun c => negb (isLineTerminator c)) rest = true.
Proof.
  unfold isUnder, startsWith, oneLine. rewrite andb_true_iff. split.
  - intros [Hp Hl]. apply prefix_split in Hp.
    rewrite length_app in Hp. cbn [String.length] in Hp.
    exists (list_ascii_of_string
              (substring_from (String.length folder + 1) (destination c))).
    split; [|exact Hl]. rewrite Hp at 1. rewrite !chars_app, <- app_assoc.
    reflexivity.
  - intros (rest & Hs & Hl).
    assert (Hd : destination c = (folder ++ "/" ++ string_of_list_ascii rest)%string).
    { apply chars_inj. rewrite Hs, !chars_app, list_ascii_of_string_of_list_ascii.
      reflexivity. }
    rewrite Hd, <- append_assoc. split; [apply prefix_app|].
    replace (String.length folder + 1) with (String.length (folder ++ "/"))
      by (rewrite length_app; reflexivity).
    rewrite substring_from_app, list_ascii_of_string_of_list_ascii. exact Hl.
Qed.

(** The names of the hierarchy hold no slash. *)
Lemma buildRoot_no_slash (changes : list SandboxChangeEntry) (cwd : option string)
    (name : string) :
  nameIn name (buildRoot changes cwd) -> countChar "/" name = 0.
Proof.
  unfold buildRoot.
  assert (H : forall m,
            (forall n, nameIn n m -> countChar "/" n = 0) ->
            forall n, nameIn n (fold_left
                        (fun root c => insertParts (pathParts cwd c) c root) changes m) ->
                      countChar "/" n = 0).
  { induction changes as [|c changes IH]; intros m Hm n Hn; [now apply Hm|].
    cbn [fold_left] in Hn. eapply IH; [|exact Hn]. intros n' Hn'.
    apply insertParts_nameIn in Hn'. destruct Hn' as [Hp|Hn']; [|now apply Hm].
    unfold pathParts in Hp. apply filter_In in Hp. destruct Hp as [Hp _].
    pose proof (split_pieces "/" (relPath cwd c)) as Hs.
    rewrite Forall_forall in Hs. now apply Hs. }
  apply H. intros n Hn. inversion Hn as [? ? ? Hnone|? ? ? ? Hnone]; destruct Hnone.
Qed.

Lemma folder_pattern_filter (folder : string) (listed : list SandboxChangeEntry) :
  plainGlob folder -> countChar "*" folder = 0 ->
  filterChangesByPatterns listed [(folder ++ "/**")%string]
  = Some (filter (isUnder folder) listed).
Proof.
  intros Hplain Hstar. apply one_pattern_filter.
  - apply plainGlob_app; [exact Hplain|]. unfold plainGlob. cbn.
    repeat constructor; discriminate.
  - intros c. rewrite tokenize_literal by exact Hstar.
    change (tokenize "/**") with [TLit "/"%char; TDoubleStar].
    rewrite globMatches_literals, isUnder_spec. split.
    + intros (rest & Hs & Hl). exists ("/"%char :: rest). split; [exact Hs|].
      constructor. now apply globMatches_rest.
    + intros (rest & Hs & Hm).
      inversion Hm as [|c0 ts0 s0 Hr| |]; subst.
      exists s0. split; [exact Hs|]. now apply globMatches_rest.
Qed.

Lemma relative_path_not_under (folder : string) (c : SandboxChangeEntry) :
  folder <> EmptyString -> String.prefix "/" folder = false ->
  String.prefix "/" (destination c) = true -> isUnder folder c = false.
Proof.
  intros Hne Hrel Habs. unfold isUnder, startsWith.
  destruct folder as [|a r]; [contradiction|].
  destruct (destination c) as [|b d]; [discriminate|].
  cbn [String.prefix] in Hrel, Habs.
  destruct (ascii_dec "/" a) as [<-|Ha]; [destruct r; discriminate|].
  destruct (ascii_dec "/" b) as [<-|Hb]; [|discriminate].
  cbn [String.append]. rewrite prefix_head_ne; [reflexivity|congruence].
Qed.

Lemma join_first (name : string) (rest : list string) :
  name <> EmptyString -> countChar "/" name = 0 ->
  join "/" (name :: rest) <> EmptyString
  /\ String.prefix "/" (join "/" (name :: rest)) = false.
Proof.
  intros Hne Hfree. split; [now apply join_not_empty|].
  destruct name as [|a r]; [contradiction|].
  cbn [countChar] in Hfree.
  destruct (Ascii.eqb_spec a "/") as [->|Ha]; [discriminate|].
  destruct rest as [|q rest]; [|rewrite join_cons]; cbn [join String.concat String.append];
    apply prefix_head_ne; congruence.
Qed.

(** X20: a click on a folder selects by the relative path.  The node of a
    folder runs [sandbox.diff] on the path of the folder followed by
    [/**]; when that path has no [*], [?] or [:], the pattern selects the
    changes whose destination begins with the path and a slash, so none
    whose destination begins with a slash, as the destinations under the
    workspace folder do. *)
Theorem a_click_on_a_folder_selects_by_relative_path
    (localeCompare : string -> string -> Z)
    (changes : list SandboxChangeEntry) (cwd : option string)
    (folders : list string) (f : SandboxNode) (kids : list SandboxNode)
    (Hat : nodeAt folders f (buildDirectoryHierarchy localeCompare changes cwd))
    (Hkids : children f = Some kids)
    (Hplain : plainGlob (join "/" (folders ++ [label f])))
    (Hstar : countChar "*" (join "/" (folders ++ [label f])) = 0) :
  let folderPath := join "/" (folders ++ [label f]) in
  command f = Some (diffOn (folderPath ++ "/**"))
  /\ forall listed,
       filterChangesByPatterns listed [(folderPath ++ "/**")%string]
       = Some (filter (isUnder folderPath) listed)
       /\ ((forall c, In c listed -> String.prefix "/" (destination c) = true) ->
           filterChangesByPatterns listed [(folderPath ++ "/**")%string] = Some []).
Proof.
  cbv zeta.
  destruct (rendered_folders localeCompare folders f kids
              (buildRoot changes cwd) "" Hat Hkids (buildRoot_filled changes cwd))
    as (Hf & Hne & Hnames).
  assert (Hnonempty : Forall (fun n => n <> EmptyString) (folders ++ [label f])).
  { eapply Forall_impl; [|exact Hnames]. intros a Ha.
    exact (buildRoot_names changes cwd a Ha). }
  rewrite pathBelow_top in Hf by exact Hnonempty.
  split.
  - rewrite Hf at 1. reflexivity.
  - intros listed.
    pose proof (folder_pattern_filter _ listed Hplain Hstar) as Hfilter.
    split; [exact Hfilter|]. intros Habs. rewrite Hfilter. f_equal.
    apply filter_none. intros c Hc Hunder.
    assert (Hrel : join "/" (folders ++ [label f]) <> EmptyString
                   /\ String.prefix "/" (join "/" (folders ++ [label f])) = false).
    { destruct (folders ++ [label f]) as [|n rest] eqn:E.
      - destruct folders; discriminate.
      - inversion Hnonempty; subst. inversion Hnames; subst.
        apply join_first; [assumption|].
        eapply buildRoot_no_slash; eassumption. }
    destruct Hrel as [Hr1 Hr2].
    rewrite (relative_path_not_under _ c Hr1 Hr2 (Habs c Hc)) in Hunder.
    discriminate.
Qed.

Lemma a_click_on_a_folder_witness :
  filterChangesByPatterns sampleChanges ["m/**"] = Some [].
Proof.
  pose proof (a_click_on_a_folder_selects_by_relative_path unitCompare
                sampleChanges (Some "/w") []
                (folderNode "m" "m" [nodeFromChange (entryFor "/w/m/x" "create")])
                [nodeFromChange (entryFor "/w/m/x" "create")]) as H.
  cbv zeta in H. apply H.
  - constructor. vm_compute. right. right. left. reflexivity.
  - reflexivity.
  - unfold plainGlob. cbn. repeat constructor; discriminate.
  - reflexivity.
  - intros c Hc. cbn in Hc.
    repeat (destruct Hc as [<-|Hc]; [reflexivity|]). contradiction.
Defined.

End ExtensionExtras.
